(** * mcp-openapi: schema resolution and tool flattening

    A shallow embedding of [mcp_openapi/parser.py] (class [Config]:
    [_process_schema], [_process_operation]) together with the
    properties stated about it in the specification.  The module
    [mcp_openapi/tools.py] is not among the sources; the parts of it the
    properties talk about are modelled from the specification and are
    marked as such. *)

From Stdlib Require Import String Ascii List Arith Lia ZArith.
From stdpp Require Import base option gmap strings list sorting.

Local Open Scope string_scope.
Local Open Scope list_scope.
Set Warnings "-register-all".

(** ** Python values and truthiness *)

(** Literal values carried by [enum] and [default] ([Any] in the source). *)
Inductive Value : Type :=
| VNone
| VBool (b : bool)
| VInt (z : Z)
| VStr (s : string)
| VList (l : list Value)
| VDict (d : list (string * Value)).

(** Python's [bool(v)]. *)
Definition truthy (v : Value) : bool :=
  match v with
  | VNone => false
  | VBool b => b
  | VInt z => negb (Z.eqb z 0)
  | VStr s => negb (String.eqb s "")
  | VList l => match l with [] => false | _ :: _ => true end
  | VDict d => match d with [] => false | _ :: _ => true end
  end.

(** [x or d] for an optional string [x]: [None] and [""] are falsy. *)
Definition str_or (x : option string) (d : string) : string :=
  match x with
  | Some s => if String.eqb s "" then d else s
  | None => d
  end.

(** [if x:] for an optional string. *)
Definition str_truthy (x : option string) : bool :=
  match x with
  | Some s => negb (String.eqb s "")
  | None => false
  end.

(** [if l:] for a list. *)
Definition nonempty {A : Type} (l : list A) : bool :=
  match l with [] => false | _ :: _ => true end.

(** [s.split("/")[-1]]: the text after the last slash. *)
Fixpoint last_segment_from (acc s : string) : string :=
  match s with
  | EmptyString => acc
  | String c s' =>
      if Ascii.eqb c "/"%char then last_segment_from "" s'
      else last_segment_from (acc +:+ String c "") s'
  end.

Definition last_segment (s : string) : string := last_segment_from "" s.

(** ** The OpenAPI document as the resolver reads it *)

(** A schema node is either a reference object (it has the attribute
    [ref]) or a schema object.  A schema object exposes [type],
    [description], [properties] (a dict, kept in document order),
    [items], [allOf], [anyOf] and [additionalProperties]. *)
Inductive SchemaNode : Type :=
| Reference (ref : string)
| Inline (body : SchemaBody)
with SchemaBody : Type :=
| mkBody (type : option string)
         (description : option string)
         (properties : list (string * SchemaNode))
         (items : option SchemaNode)
         (allOf : list SchemaNode)
         (anyOf : list SchemaNode)
         (additionalProperties : option (bool + SchemaNode)).

Definition b_type (b : SchemaBody) : option string :=
  match b with mkBody t _ _ _ _ _ _ => t end.
Definition b_description (b : SchemaBody) : option string :=
  match b with mkBody _ d _ _ _ _ _ => d end.
Definition b_properties (b : SchemaBody) : list (string * SchemaNode) :=
  match b with mkBody _ _ p _ _ _ _ => p end.
Definition b_items (b : SchemaBody) : option SchemaNode :=
  match b with mkBody _ _ _ i _ _ _ => i end.
Definition b_allOf (b : SchemaBody) : list SchemaNode :=
  match b with mkBody _ _ _ _ a _ _ => a end.
Definition b_anyOf (b : SchemaBody) : list SchemaNode :=
  match b with mkBody _ _ _ _ _ a _ => a end.
Definition b_additionalProperties (b : SchemaBody) : option (bool + SchemaNode) :=
  match b with mkBody _ _ _ _ _ _ a => a end.

(** [if prop_schema.additionalProperties:] *)
Definition additional_truthy (a : option (bool + SchemaNode)) : bool :=
  match a with
  | None => false
  | Some (inl b) => b
  | Some (inr _) => true
  end.

Definition empty_body : SchemaBody := mkBody None None [] None [] [] None.

(** [api.components.schemas]: component name to schema object. *)
Record OpenAPI : Type := mkOpenAPI { components_schemas : gmap string SchemaBody }.

(** Attribute reads on a node.  A reference object forwards every
    attribute other than [ref] to its target, which for a component
    reference is the schema stored under the last path segment; a
    reference without target reads as an empty schema. *)
Definition attrs (api : OpenAPI) (n : SchemaNode) : SchemaBody :=
  match n with
  | Inline b => b
  | Reference r => default empty_body (components_schemas api !! last_segment r)
  end.

(** ** The normalized representation *)

(** [type: str | list[str]] *)
Inductive PropType : Type :=
| TName (s : string)
| TUnion (l : list string).

Inductive SchemaProperty : Type :=
| mkSchemaProperty (name : string)
                   (type : PropType)
                   (items : option SchemaProperty)
                   (properties : option (list SchemaProperty))
                   (description : option string)
                   (any_of : option (list SchemaProperty))
                   (all_of : option (list SchemaProperty)).

Definition sp_name (p : SchemaProperty) : string :=
  match p with mkSchemaProperty n _ _ _ _ _ _ => n end.
Definition sp_type (p : SchemaProperty) : PropType :=
  match p with mkSchemaProperty _ t _ _ _ _ _ => t end.
Definition sp_items (p : SchemaProperty) : option SchemaProperty :=
  match p with mkSchemaProperty _ _ i _ _ _ _ => i end.
Definition sp_properties (p : SchemaProperty) : option (list SchemaProperty) :=
  match p with mkSchemaProperty _ _ _ ps _ _ _ => ps end.
Definition sp_description (p : SchemaProperty) : option string :=
  match p with mkSchemaProperty _ _ _ _ d _ _ => d end.
Definition sp_any_of (p : SchemaProperty) : option (list SchemaProperty) :=
  match p with mkSchemaProperty _ _ _ _ _ a _ => a end.
Definition sp_all_of (p : SchemaProperty) : option (list SchemaProperty) :=
  match p with mkSchemaProperty _ _ _ _ _ _ a => a end.

(** Attribute assignments on an existing property object. *)
Definition set_name (n : string) (p : SchemaProperty) : SchemaProperty :=
  match p with mkSchemaProperty _ t i ps d a b => mkSchemaProperty n t i ps d a b end.
Definition set_items (i : option SchemaProperty) (p : SchemaProperty) : SchemaProperty :=
  match p with mkSchemaProperty n t _ ps d a b => mkSchemaProperty n t i ps d a b end.
Definition set_properties (ps : option (list SchemaProperty)) (p : SchemaProperty)
  : SchemaProperty :=
  match p with mkSchemaProperty n t i _ d a b => mkSchemaProperty n t i ps d a b end.

Record Schema : Type := mkSchema {
  schema_name : string;
  schema_properties : option (list SchemaProperty)
}.

(** [if xs:] for an optional list: [None] and [[]] are falsy. *)
Definition props_or_nil (ps : option (list SchemaProperty)) : list SchemaProperty :=
  default [] ps.

(** ** Resolution: state, errors and the recursion stack *)

(** A call of [_process_schema] either completes with a value and the
    (shared, mutated) visited set, raises [KeyError] from the component
    lookup, or exhausts the stack it was given. *)
Inductive Outcome (A : Type) : Type :=
| OutOfFuel
| KeyError (key : string)
| Done (a : A) (visited : gset string).

Arguments OutOfFuel {A}.
Arguments KeyError {A} key.
Arguments Done {A} a visited.

Definition M (A : Type) : Type := gset string -> Outcome A.

Definition ret {A : Type} (a : A) : M A := fun visited => Done a visited.

Definition bind {A B : Type} (m : M A) (k : A -> M B) : M B :=
  fun visited =>
    match m visited with
    | OutOfFuel => OutOfFuel
    | KeyError key => KeyError key
    | Done a visited' => k a visited'
    end.

Definition raise {A : Type} (key : string) : M A := fun _ => KeyError key.

Notation "'let*' x ':=' m 'in' k" := (bind m (fun x => k))
  (at level 10, x pattern, m at level 100, k at level 200).

(** A [for] loop that updates its accumulators in order. *)
Fixpoint for_each {A S : Type} (l : list A) (body : A -> S -> M S) (s : S) : M S :=
  match l with
  | [] => ret s
  | x :: l' => let* s' := body x s in for_each l' body s'
  end.

(** [api.components.schemas[name]] *)
Definition lookup_component (api : OpenAPI) (name : string) : M SchemaBody :=
  match components_schemas api !! name with
  | Some b => ret b
  | None => raise name
  end.

(** ** [Config._process_schema] *)

Section Resolver.

Variable api : OpenAPI.
Variable max_depth : nat.

(** The recursive call [cls._process_schema(s, api, d, max_depth, visited)]. *)
Variable rec : SchemaNode -> nat -> M (option Schema).

(** [if hasattr(schema, "ref"): ... visited.add(schema_ref)]; the
    result says whether the reference was already in [visited]. *)
Definition track_visited (schema : SchemaNode) : M bool :=
  match schema with
  | Reference schema_ref =>
      fun visited =>
        if decide (schema_ref ∈ visited) then Done true visited
        else Done false ({[schema_ref]} ∪ visited)
  | Inline _ => ret false
  end.

(** [schema_name] and [resolved_schema]. *)
Definition resolve (schema : SchemaNode) : M (string * SchemaBody) :=
  match schema with
  | Reference schema_ref =>
      let schema_name := last_segment schema_ref in
       let* resolved_schema := lookup_component api schema_name in
      ret (schema_name, resolved_schema)
  | Inline b => ret ("inline", b)
  end.

(** The [allOf] loop (the same text at the root and inside an object
    property): accumulators [all_properties] and [all_schemas]. *)
Definition all_of_loop (depth : nat) (subs : list SchemaNode)
  : M (list SchemaProperty * list SchemaProperty) :=
  for_each subs
    (fun sub_schema '(all_properties, all_schemas) =>
       let* sub_result := rec sub_schema (S depth) in
       match sub_result with
       | Some r =>
           ret (all_properties ++ props_or_nil (schema_properties r),
                all_schemas ++
                  [mkSchemaProperty (schema_name r) (TName "object") None
                     (schema_properties r)
                     (b_description (attrs api sub_schema)) None None])
       | None => ret (all_properties, all_schemas)
       end)
    ([], []).

(** The root [anyOf] loop: accumulators [any_of_properties] and [types]. *)
Definition any_of_loop (depth : nat) (subs : list SchemaNode)
  : M (list SchemaProperty * list string) :=
  for_each subs
    (fun sub_schema '(any_of_properties, types) =>
       let types :=
         match b_type (attrs api sub_schema) with
         | Some t => if str_truthy (Some t) then types ++ [t] else types
         | None => types
         end in
       let* sub_result := rec sub_schema (S depth) in
       match sub_result with
       | Some r => ret (any_of_properties ++ props_or_nil (schema_properties r), types)
       | None => ret (any_of_properties, types)
       end)
    ([], []).

(** The [anyOf] loop of an object property and of a nested property:
    accumulators [types] and [any_of_schemas]. *)
Definition prop_any_of_loop (depth : nat) (subs : list SchemaNode)
  : M (list string * list SchemaProperty) :=
  for_each subs
    (fun schema '(types, any_of_schemas) =>
       let types :=
         match b_type (attrs api schema) with
         | Some t => if str_truthy (Some t) then types ++ [t] else types
         | None => types
         end in
       let* result := rec schema (S depth) in
       match result with
       | Some r =>
           ret (types,
                any_of_schemas ++
                  [mkSchemaProperty (schema_name r)
                     (TName (str_or (b_type (attrs api schema)) "object")) None
                     (schema_properties r)
                     (b_description (attrs api schema)) None None])
       | None => ret (types, any_of_schemas)
       end)
    ([], []).

(** [types if types else "object"] *)
Definition union_type (types : list string) : PropType :=
  if nonempty types then TUnion types else TName "object".

(** Properties of a referenced array item of type object. *)
Definition item_properties_loop (depth : nat) (props : list (string * SchemaNode))
  : M (list SchemaProperty) :=
  for_each props
    (fun '(item_prop_name, item_prop_schema) item_properties =>
       let item_prop_type := str_or (b_type (attrs api item_prop_schema)) "object" in
       let item_prop :=
         mkSchemaProperty item_prop_name (TName item_prop_type) None None
           (b_description (attrs api item_prop_schema)) None None in
       if String.eqb item_prop_type "object" then
       let* nested_schema := rec item_prop_schema (S depth) in
         match nested_schema with
         | Some n =>
             ret (item_properties ++ [set_properties (schema_properties n) item_prop])
         | None => ret (item_properties ++ [item_prop])
         end
       else ret (item_properties ++ [item_prop]))
    [].

(** Children of a plain nested object. *)
Definition nested_properties_loop (depth : nat) (props : list (string * SchemaNode))
  : M (list SchemaProperty) :=
  for_each props
    (fun '(nested_name, nested_schema) nested_properties =>
       if nonempty (b_anyOf (attrs api nested_schema)) then
       let* (types, any_of_schemas) := prop_any_of_loop depth (b_anyOf (attrs api nested_schema)) in
         ret (nested_properties ++
                [mkSchemaProperty nested_name (union_type types) None None
                   (b_description (attrs api nested_schema))
                   (Some any_of_schemas) None])
       else
       let* nested_result := rec nested_schema (S depth) in
         match nested_result with
         | Some r =>
             match schema_properties r with
             | Some (nested_prop :: _) =>
                 ret (nested_properties ++ [set_name nested_name nested_prop])
             | _ => ret nested_properties
             end
         | None => ret nested_properties
         end)
    [].

(** One iteration of [for prop_name, prop_schema in
    resolved_schema.properties.items()]: the property to append. *)
Definition process_property (depth : nat) (prop_name : string)
  (prop_schema : SchemaNode) : M SchemaProperty :=
  let pb := attrs api prop_schema in
  let prop_type := str_or (b_type pb) "object" in
  let prop :=
    mkSchemaProperty prop_name (TName prop_type) None None (b_description pb)
      None None in
  match (if String.eqb prop_type "array" then b_items pb else None) with
  | Some (Reference item_ref) =>
      let item_name := last_segment item_ref in
      let* resolved_item_schema := lookup_component api item_name in
      if decide (b_type resolved_item_schema = Some "object") then
        let* item_properties :=
          item_properties_loop depth (b_properties resolved_item_schema) in
        ret (set_items
               (Some (mkSchemaProperty item_name (TName "object") None
                        (Some item_properties)
                        (b_description (attrs api (Reference item_ref)))
                        None None))
               prop)
      else ret prop
  | Some (Inline ib) =>
      let item_type := str_or (b_type ib) "object" in
      ret (set_items
             (Some (mkSchemaProperty "item" (TName item_type) None None
                      (b_description ib) None None))
             prop)
  | None =>
      if String.eqb prop_type "object" then
        match prop_schema with
        | Reference _ =>
            let* nested_schema := rec prop_schema (S depth) in
            match nested_schema with
            | Some n => ret (set_properties (schema_properties n) prop)
            | None => ret prop
            end
        | Inline _ =>
            if nonempty (b_anyOf pb) then
              let* (types, any_of_schemas) := prop_any_of_loop depth (b_anyOf pb) in
              ret (mkSchemaProperty prop_name (union_type types) None None
                     (b_description pb) (Some any_of_schemas) None)
            else if nonempty (b_allOf pb) then
              let* (all_properties, all_schemas) := all_of_loop depth (b_allOf pb) in
              if nonempty all_properties then
                ret (mkSchemaProperty prop_name (TName prop_type) None
                       (Some all_properties) (b_description pb) None
                       (Some all_schemas))
              else ret prop
            else if additional_truthy (b_additionalProperties pb) then
              ret (set_properties None prop)
            else
              let* nested_properties :=
                nested_properties_loop depth (b_properties pb) in
              ret (set_properties (Some nested_properties) prop)
        end
      else ret prop
  end.

Definition properties_loop (depth : nat) (props : list (string * SchemaNode))
  : M (list SchemaProperty) :=
  for_each props
    (fun '(prop_name, prop_schema) properties =>
       let* prop := process_property depth prop_name prop_schema in
       ret (properties ++ [prop]))
    [].

(** The part of the body after the depth and cycle checks. *)
Definition build (depth : nat) (schema_name : string) (resolved_schema : SchemaBody)
  : M (option Schema) :=
  if nonempty (b_allOf resolved_schema) then
    let* (all_properties, all_schemas) :=
      all_of_loop depth (b_allOf resolved_schema) in
    if nonempty all_properties then
      ret (Some (mkSchema schema_name
                   (Some [mkSchemaProperty "merged" (TName "object") None
                            (Some all_properties)
                            (b_description resolved_schema) None
                            (Some all_schemas)])))
    else ret None
  else if nonempty (b_anyOf resolved_schema) then
    let* (any_of_properties, types) :=
      any_of_loop depth (b_anyOf resolved_schema) in
    ret (Some (mkSchema schema_name
                 (Some [mkSchemaProperty "any_of" (union_type types) None None
                          (b_description resolved_schema)
                          (if nonempty any_of_properties
                           then Some any_of_properties else None)
                          None])))
  else if nonempty (b_properties resolved_schema) then
    let* properties := properties_loop depth (b_properties resolved_schema) in
    ret (Some (mkSchema schema_name (Some properties)))
  else if decide (b_type resolved_schema = Some "array") then
    match b_items resolved_schema with
    | None => ret (Some (mkSchema schema_name (Some [])))
    | Some items =>
        let* processed_items := rec items (S depth) in
        match processed_items with
        | None => ret (Some (mkSchema schema_name (Some [])))
        | Some pi =>
            ret (Some (mkSchema schema_name
                         (Some [mkSchemaProperty "inline" (TName "array")
                                  (Some (mkSchemaProperty "item"
                                           (TName (str_or (b_type (attrs api items))
                                                     "object"))
                                           None (schema_properties pi)
                                           (b_description (attrs api items))
                                           None None))
                                  None (b_description resolved_schema)
                                  None None])))
        end
    end
  else ret (Some (mkSchema schema_name (Some []))).

(** The body of [_process_schema], with its recursive calls left to [rec]. *)
Definition process_body (schema : SchemaNode) (depth : nat) : M (option Schema) :=
  if (max_depth <=? depth)%nat then ret None
  else
    let* seen := track_visited schema in
    if (seen : bool) then ret None
    else
      let* (schema_name, resolved_schema) := resolve schema in
      build depth schema_name resolved_schema.

End Resolver.

(** The recursion, on a stack of [fuel] frames. *)
Fixpoint process_fuel (fuel : nat) (api : OpenAPI) (max_depth : nat)
  (schema : SchemaNode) (depth : nat) : M (option Schema) :=
  match fuel with
  | O => fun _ => OutOfFuel
  | S fuel' =>
      process_body api max_depth
        (fun s d => process_fuel fuel' api max_depth s d) schema depth
  end.

(** [Config._process_schema(schema, api, depth, max_depth, visited)].
    Every recursive call is made at [depth + 1] and a call at
    [depth >= max_depth] returns at once, so [max_depth - depth + 1]
    frames are all a call can use (see [process_fuel_enough]). *)
Definition _process_schema (schema : SchemaNode) (api : OpenAPI) (depth : nat)
  (max_depth : nat) (visited : gset string) : Outcome (option Schema) :=
  process_fuel (S (max_depth - depth)) api max_depth schema depth visited.

(** The defaults [depth=0, max_depth=10, visited=None]. *)
Definition process_schema_default (schema : SchemaNode) (api : OpenAPI)
  : Outcome (option Schema) :=
  _process_schema schema api 0 10 ∅.

(** ** [Config._process_operation]: the parameters *)

(** What a call can raise: [KeyError] from a component lookup,
    [AttributeError] from reading an attribute of [None], [re.error]
    from compiling a pattern, whatever the loader of the document
    raises; [RaisedOutOfFuel] stands for a resolution that exhausts its
    stack. *)
Inductive Raised : Type :=
| RaisedKeyError (key : string)
| RaisedAttributeError
| RaisedReError (pattern : string)
| RaisedLoadError (source : string)
| RaisedOutOfFuel.

(** An operation parameter of the document: the attributes read by
    the loop over [operation.parameters].  The attributes fetched with
    [getattr(param, ..., default)] are optional, and so is [schema_]
    (a parameter may describe itself by [content] instead). *)
Record ParameterSchema : Type := mkParameterSchema {
  ps_type : option string;
  ps_enum : option (list Value);
  ps_default : option Value
}.

Record ApiParameter : Type := mkApiParameter {
  ap_name : string;
  ap_in : string;
  ap_required : option bool;
  ap_description : option string;
  ap_deprecated : option bool;
  ap_allowEmptyValue : option bool;
  ap_style : option string;
  ap_explode : option bool;
  ap_allowReserved : option bool;
  ap_schema : option ParameterSchema
}.

(** The pydantic model [Parameter] of the source ([schema_] is never
    passed and stays [None]); the name is reserved in Rocq. *)
Record ParameterModel : Type := mkParameterModel {
  p_name : string;
  p_in : string;
  p_required : bool;
  p_description : option string;
  p_deprecated : option bool;
  p_allowEmptyValue : option bool;
  p_style : option string;
  p_explode : option bool;
  p_allowReserved : option bool;
  p_type : option string;
  p_enum : option (list Value);
  p_default : option Value
}.

(** [if param.schema_.enum:] *)
Definition enum_truthy (e : option (list Value)) : bool :=
  match e with
  | Some (_ :: _) => true
  | _ => false
  end.

(** [if param.schema_.default:] *)
Definition default_truthy (d : option Value) : bool :=
  match d with
  | Some v => truthy v
  | None => false
  end.

(** One iteration of [for param in operation.parameters]: [param_dict]
    is built, [enum] and [default] are added under their truthiness
    tests, and the model built from it is appended.  Reading
    [param.schema_.type] of a parameter without schema raises
    [AttributeError]. *)
Definition process_parameter (param : ApiParameter) : Raised + ParameterModel :=
  match ap_schema param with
  | None => inl RaisedAttributeError
  | Some sch =>
      let has_enum := enum_truthy (ps_enum sch) in
      let has_default := default_truthy (ps_default sch) in
      inr {| p_name := ap_name param;
             p_in := ap_in param;
             p_required := if has_enum then true else default false (ap_required param);
             p_description := ap_description param;
             p_deprecated := ap_deprecated param;
             p_allowEmptyValue := ap_allowEmptyValue param;
             p_style := ap_style param;
             p_explode := ap_explode param;
             p_allowReserved := ap_allowReserved param;
             p_type := ps_type sch;
             p_enum := if has_enum then ps_enum sch else None;
             p_default := if has_default then ps_default sch else None |}
  end.

(** The loop over [operation.parameters], giving [processed_params]:
    it stops at the first parameter that raises. *)
Fixpoint process_parameters (params : list ApiParameter)
  : Raised + list ParameterModel :=
  match params with
  | [] => inr []
  | param :: rest =>
      match process_parameter param with
      | inl e => inl e
      | inr p =>
          match process_parameters rest with
          | inl e => inl e
          | inr ps => inr (p :: ps)
          end
      end
  end.

(** The models [RequestBody] and [Operation] of the source, as far as
    the tool builder reads them: [content] is kept as the list of its
    content types, [responses] is left out. *)
Record RequestBody : Type := mkRequestBody {
  rb_description : option string;
  rb_content : list string;
  rb_required : bool;
  rb_schema : option Schema
}.

Record Operation : Type := mkOperation {
  op_id : string;
  op_summary : option string;
  op_description : option string;
  op_parameters : list ParameterModel;
  op_request_body : option RequestBody
}.

(** ** Tool descriptors and dispatch ([mcp_openapi/tools.py]) *)

(** Modelled from the spec: the record [ToolParameter] of
    [mcp_openapi/tools.py], which is not among the sources: a flattened
    leaf with its name, type tag, description, default, the original
    body field name, and the marker of body origin. *)
Record ToolParameter : Type := mkToolParameter {
  tp_name : string;
  tp_type : string;
  tp_description : string;
  tp_default : Value;
  tp_request_body_field : option string;
  tp_in_body : bool
}.

(** Modelled from the spec: the fixed maximum length of an enum
    description (the constant of [mcp_openapi/tools.py] named in the
    tests). *)
Definition MAX_ENUM_DESCRIPTION_LENGTH : nat := 100.

(** Modelled from the spec: truncation of a description in
    [Tool.from_operation] to the maximum length, with a trailing
    ellipsis when it is cut. *)
Definition truncate_description (s : string) : string :=
  if (String.length s <=? MAX_ENUM_DESCRIPTION_LENGTH)%nat then s
  else substring 0 (MAX_ENUM_DESCRIPTION_LENGTH - 3) s +:+ "...".

(** Modelled from the spec: the marker suffix of array parameters in
    [Tool.from_operation] (bracket notation). *)
Definition ARRAY_MARKER : string := "[]".

(** Modelled from the spec: the test "the name ends with the array
    marker" of [Tool.from_operation]. *)
Definition ends_with (s suffix : string) : bool :=
  let n := String.length s in
  let m := String.length suffix in
  (m <=? n)%nat && String.eqb (substring (n - m) m s) suffix.

(** Modelled from the spec: the normalisation of a parameter name in
    [Tool.from_operation]: the marker is stripped and an [s] appended
    ([array_param[]] becomes [array_params]). *)
Definition flatten_param_name (name : string) : string :=
  if ends_with name ARRAY_MARKER
  then substring 0 (String.length name - String.length ARRAY_MARKER) name +:+ "s"
  else name.

(** Modelled from the spec: the type tags of [Tool.from_operation]:
    [string] to [str], [integer] to [int], [number] to [float],
    [boolean] to [bool], anything else [object]. *)
Definition python_type (t : option string) : string :=
  match t with
  | Some t' =>
      if String.eqb t' "string" then "str"
      else if String.eqb t' "integer" then "int"
      else if String.eqb t' "number" then "float"
      else if String.eqb t' "boolean" then "bool"
      else "object"
  | None => "object"
  end.

(** Modelled from the spec: the type tag of a query or path parameter
    in [Tool.from_operation]: a parameter with the array marker is a
    list of its base type. *)
Definition parameter_type (name : string) (t : option string) : string :=
  if ends_with name ARRAY_MARKER then "list[" +:+ python_type t +:+ "]"
  else python_type t.

(** Modelled from the spec: the JSON-body marker prefix of
    [mcp_openapi/tools.py]. *)
Definition JSON_PREFIX : string := "j_".

(** Modelled from the spec: the prefix chosen by [Tool.from_operation]
    from the content types of the body: none for a form-encoded body,
    the JSON marker otherwise. *)
Definition body_prefix (content : list string) : string :=
  if bool_decide ("application/x-www-form-urlencoded" ∈ content) then ""
  else JSON_PREFIX.

Section ToolBuilder.

(** Python's [str] on an option value, and the flattening of the
    children of a nested object property in [Tool.from_operation];
    the specification fixes neither, so both are left open. *)
Variable py_str : Value -> string.
Variable nested_parameters : string -> SchemaProperty -> list ToolParameter.

(** Modelled from the spec: the description of an enum parameter in
    [Tool.from_operation]: the original text, [" Options: "] and the
    options separated by commas, truncated. *)
Definition enum_description (description : string) (enum : list Value) : string :=
  truncate_description
    (description +:+ " Options: " +:+ String.concat ", " (map py_str enum)).

(** Modelled from the spec: the [ToolParameter] that
    [Tool.from_operation] makes of a query or path parameter. *)
Definition parameter_to_tool (p : ParameterModel) : ToolParameter :=
  {| tp_name := flatten_param_name (p_name p);
     tp_type := parameter_type (p_name p) (p_type p);
     tp_description :=
       match p_enum p with
       | Some (e :: es) => enum_description (default "" (p_description p)) (e :: es)
       | _ => default "" (p_description p)
       end;
     tp_default := default VNone (p_default p);
     tp_request_body_field := None;
     tp_in_body := false |}.

(** Modelled from the spec: the summary of one branch of an [anyOf]
    body leaf in [Tool.from_operation]: the property names of an object
    branch, the description of a scalar branch. *)
Definition branch_summary (b : SchemaProperty) : string :=
  match sp_properties b with
  | Some (c :: cs) =>
      "Object with properties: " +:+ String.concat ", " (map sp_name (c :: cs))
  | _ => default "" (sp_description b)
  end.

(** Modelled from the spec: the description [Tool.from_operation]
    synthesizes for an [anyOf] body leaf. *)
Definition any_of_description (branches : list SchemaProperty) : string :=
  "One of: " +:+
  String.concat " OR " (map (fun b => "(" +:+ branch_summary b +:+ ")") branches).

(** Modelled from the spec: the body parameters that
    [Tool.from_operation] makes of one top-level property of the
    request-body schema: one [str] parameter for an [anyOf] leaf, the
    flattened children for a nested object, one parameter for a
    scalar leaf; each name carries the prefix and each parameter
    records its original field. *)
Definition body_property_to_tools (prefix : string) (p : SchemaProperty)
  : list ToolParameter :=
  match sp_any_of p with
  | Some branches =>
      [{| tp_name := prefix +:+ sp_name p;
          tp_type := "str";
          tp_description := any_of_description branches;
          tp_default := VNone;
          tp_request_body_field := Some (sp_name p);
          tp_in_body := true |}]
  | None =>
      match sp_properties p with
      | Some (_ :: _) => nested_parameters prefix p
      | _ =>
          [{| tp_name := prefix +:+ sp_name p;
              tp_type := match sp_type p with
                         | TName t => python_type (Some t)
                         | TUnion _ => "str"
                         end;
              tp_description := default "" (sp_description p);
              tp_default := VNone;
              tp_request_body_field := Some (sp_name p);
              tp_in_body := true |}]
      end
  end.

(** Modelled from the spec: the body parameters of
    [Tool.from_operation]: the top-level properties of the resolved
    request-body schema, flattened in order. *)
Definition body_to_tools (body : option RequestBody) : list ToolParameter :=
  match body with
  | Some rb =>
      match rb_schema rb with
      | Some sch =>
          flat_map (body_property_to_tools (body_prefix (rb_content rb)))
            (props_or_nil (schema_properties sch))
      | None => []
      end
  | None => []
  end.

(** Modelled from the spec: the parameter list of the descriptor that
    [Tool.from_operation] builds: the query and path parameters in
    order, then the body parameters. *)
Definition from_operation_parameters (operation : Operation) : list ToolParameter :=
  map parameter_to_tool (op_parameters operation)
  ++ body_to_tools (op_request_body operation).

End ToolBuilder.

(** Modelled from the spec: the value the dispatcher of
    [mcp_openapi/tools.py] sends for a parameter: the caller's argument,
    or the declared default when there is none. *)
Definition argument_value (args : gmap string Value) (p : ToolParameter) : Value :=
  default (tp_default p) (args !! tp_name p).

(** Modelled from the spec: the key of a body parameter as the
    specification words it: the recorded field, or the flattened name
    when none was recorded. *)
Definition body_key_as_stated (p : ToolParameter) : string :=
  default (tp_name p) (tp_request_body_field p).

(** Modelled from the spec: a name without the marker prefix it
    carries, as [mcp_openapi/tools.py] needs it to recover a body
    field. *)
Definition remove_prefix (prefix s : string) : string :=
  if String.prefix prefix s
  then substring (String.length prefix) (String.length s - String.length prefix) s
  else s.

(** Modelled from the spec: the key of a body parameter, with the case
    of no recorded field taken from the repository's test
    [test_tool_function_noexec] instead, which sends the parameter
    [j_body_param] as [body_param]: the flattened name without the JSON
    marker. *)
Definition body_key (p : ToolParameter) : string :=
  default (remove_prefix JSON_PREFIX (tp_name p)) (tp_request_body_field p).

(** Modelled from the spec: one step of the argument partition of the
    dispatcher ([create_tool_function_noexec],
    [create_tool_function_exec] of [mcp_openapi/tools.py]): the value
    of a parameter is written into the outgoing body object or into the
    outgoing query map. *)
Definition dispatch_step (key : ToolParameter -> string) (args : gmap string Value)
  (acc : gmap string Value * gmap string Value) (p : ToolParameter)
  : gmap string Value * gmap string Value :=
  let '(query, body) := acc in
  if tp_in_body p then (query, <[key p := argument_value args p]> body)
  else (<[tp_name p := argument_value args p]> query, body).

(** Modelled from the spec: the argument partition of the dispatcher
    of [mcp_openapi/tools.py]: one pass over the parameters, starting
    from an empty query map and an empty body. *)
Definition dispatch_with (key : ToolParameter -> string) (params : list ToolParameter)
  (args : gmap string Value) : gmap string Value * gmap string Value :=
  fold_left (dispatch_step key args) params (∅, ∅).

(** Modelled from the spec: the dispatcher of [mcp_openapi/tools.py]
    with the body keys exactly as the specification words them. *)
Definition dispatch_as_stated : list ToolParameter -> gmap string Value ->
                                gmap string Value * gmap string Value :=
  dispatch_with body_key_as_stated.

(** Modelled from the spec: the dispatcher of [mcp_openapi/tools.py]
    with the body keys that the repository's test asserts. *)
Definition dispatch : list ToolParameter -> gmap string Value ->
                      gmap string Value * gmap string Value :=
  dispatch_with body_key.

(** ** Notions used to state the properties *)

(** Two computations that agree on every visited set. *)
Definition eqM {A : Type} (m1 m2 : M A) : Prop := forall v, m1 v = m2 v.

(** A computation that never exhausts the stack. *)
Definition safe {A : Type} (m : M A) : Prop := forall v, m v <> OutOfFuel.

(** [enters api schema visited name resolved visited'] : a call on
    [schema] passes the cycle check with [visited], and continues with
    [schema_name = name], [resolved_schema = resolved] and the visited
    set [visited']. *)
Inductive enters (api : OpenAPI)
  : SchemaNode -> gset string -> string -> SchemaBody -> gset string -> Prop :=
| enters_inline b visited :
    enters api (Inline b) visited "inline" b visited
| enters_reference ref b visited :
    ref ∉ visited ->
    components_schemas api !! last_segment ref = Some b ->
    enters api (Reference ref) visited (last_segment ref) b ({[ref]} ∪ visited).

(** The calls a loop makes on its branches, in order, each starting
    from the visited set the previous one left. *)
Inductive runs (rec : SchemaNode -> M (option Schema))
  : list SchemaNode -> gset string -> list (option Schema) -> gset string -> Prop :=
| runs_nil v : runs rec [] v [] v
| runs_cons s ss v r v1 rs v2 :
    rec s v = Done r v1 ->
    runs rec ss v1 rs v2 ->
    runs rec (s :: ss) v (r :: rs) v2.

(** What a resolved branch adds to [all_properties] / [any_of_properties]. *)
Definition branch_properties (r : option Schema) : list SchemaProperty :=
  match r with
  | Some s => props_or_nil (schema_properties s)
  | None => []
  end.

(** What a resolved [allOf] branch adds to [all_schemas]. *)
Definition branch_as_property (api : OpenAPI) (sub : SchemaNode) (r : option Schema)
  : list SchemaProperty :=
  match r with
  | Some s =>
      [mkSchemaProperty (schema_name s) (TName "object") None (schema_properties s)
         (b_description (attrs api sub)) None None]
  | None => []
  end.

(** The declared types of the branches of a union. *)
Definition declared_types (api : OpenAPI) (subs : list SchemaNode) : list string :=
  concat (map (fun s => match b_type (attrs api s) with
                        | Some t => if String.eqb t "" then [] else [t]
                        | None => []
                        end) subs).

(** A computation that raises [KeyError] only for a name that is not a
    component of the document. *)
Definition raises_missing (api : OpenAPI) {A : Type} (m : M A) : Prop :=
  forall v key, m v = KeyError key -> components_schemas api !! key = None.

(** The properties a branch brings along: the property list of the
    [Schema] it resolved to, and nothing when it resolved to null or to
    a [Schema] whose property list is null. *)
Definition resolved_properties (r : option Schema) : list SchemaProperty :=
  match r with
  | Some (mkSchema _ (Some ps)) => ps
  | _ => []
  end.

(** The type of a union property: the declared types as a list, or
    ["object"] when no branch declares one. *)
Definition types_or_object (types : list string) : PropType :=
  match types with
  | [] => TName "object"
  | _ :: _ => TUnion types
  end.

(** What the children of a plain nested object give to the property
    list of their parent, child by child and in order, each child
    starting from the visited set the previous one left.  A child
    without [anyOf] is resolved one level deeper: when that gives a
    [Schema] with at least one property, the child gives the first of
    them under the child's own name, and otherwise nothing.  A child
    with [anyOf] gives one union property. *)
Inductive children_give (api : OpenAPI) (rec : SchemaNode -> nat -> M (option Schema))
  (depth : nat)
  : list (string * SchemaNode) -> gset string -> list SchemaProperty -> gset string
    -> Prop :=
| give_nil v : children_give api rec depth [] v [] v
| give_first nested_name child rest v schema first others v1 given v2 :
    nonempty (b_anyOf (attrs api child)) = false ->
    rec child (S depth) v = Done (Some (mkSchema schema (Some (first :: others)))) v1 ->
    children_give api rec depth rest v1 given v2 ->
    children_give api rec depth ((nested_name, child) :: rest) v
      (set_name nested_name first :: given) v2
| give_nothing nested_name child rest v r v1 given v2 :
    nonempty (b_anyOf (attrs api child)) = false ->
    rec child (S depth) v = Done r v1 ->
    resolved_properties r = [] ->
    children_give api rec depth rest v1 given v2 ->
    children_give api rec depth ((nested_name, child) :: rest) v given v2
| give_union nested_name child rest v types any_of_schemas v1 given v2 :
    nonempty (b_anyOf (attrs api child)) = true ->
    prop_any_of_loop api rec depth (b_anyOf (attrs api child)) v
    = Done (types, any_of_schemas) v1 ->
    children_give api rec depth rest v1 given v2 ->
    children_give api rec depth ((nested_name, child) :: rest) v
      (mkSchemaProperty nested_name (types_or_object types) None None
         (b_description (attrs api child)) (Some any_of_schemas) None :: given) v2.

(** ** Example documents *)

(** [Node: {type: object, properties: {child: {$ref: Node}}}] *)
Definition node_ref : string := "#/components/schemas/Node".
Definition node_body : SchemaBody :=
  mkBody (Some "object") (Some "A tree node") [("child", Reference node_ref)]
    None [] [] None.
Definition node_api : OpenAPI := mkOpenAPI {[ "Node" := node_body ]}.

(** [Loop: {allOf: [{$ref: Loop}]}] *)
Definition loop_ref : string := "#/components/schemas/Loop".
Definition loop_body : SchemaBody :=
  mkBody None None [] None [Reference loop_ref] [] None.
Definition loop_api : OpenAPI := mkOpenAPI {[ "Loop" := loop_body ]}.

(** [Address: {type: object, properties: {street: {type: string}}}] and
    an inline order schema with two properties of that type. *)
Definition address_ref : string := "#/components/schemas/Address".
Definition string_body : SchemaBody := mkBody (Some "string") None [] None [] [] None.
Definition address_body : SchemaBody :=
  mkBody (Some "object") None [("street", Inline string_body)] None [] [] None.
Definition address_api : OpenAPI := mkOpenAPI {[ "Address" := address_body ]}.
Definition order_schema : SchemaNode :=
  Inline (mkBody (Some "object") None
            [("billing", Reference address_ref); ("shipping", Reference address_ref)]
            None [] [] None).

(** [k] array levels around [leaf]. *)
Fixpoint nest_arrays (k : nat) (leaf : SchemaNode) : SchemaNode :=
  match k with
  | O => leaf
  | S k' => Inline (mkBody (Some "array") None [] (Some (nest_arrays k' leaf)) [] [] None)
  end.

Definition empty_api : OpenAPI := mkOpenAPI ∅.
Definition id_leaf : SchemaNode :=
  Inline (mkBody (Some "object") None [("id", Inline string_body)] None [] [] None).
Definition name_leaf : SchemaNode :=
  Inline (mkBody (Some "object") None [("name", Inline string_body)] None [] [] None).

(** What a nested child without [anyOf] contributes to its parent's
    property list: the first property of its resolved schema, under the
    child's own name, and nothing when there is none. *)
Definition first_property_renamed (nested_name : string) (r : option Schema)
  : list SchemaProperty :=
  match r with
  | Some s =>
      match schema_properties s with
      | Some (nested_prop :: _) => [set_name nested_name nested_prop]
      | _ => []
      end
  | None => []
  end.

(** The component [Pet], an [anyOf] of [Pet] and a string, and an
    object with a [Pet] property. *)
Definition integer_body : SchemaBody := mkBody (Some "integer") None [] None [] [] None.
Definition pet_ref : string := "#/components/schemas/Pet".
Definition pet_body : SchemaBody :=
  mkBody (Some "object") (Some "A pet") [("name", Inline string_body)] None [] [] None.
Definition pet_api : OpenAPI := mkOpenAPI {[ "Pet" := pet_body ]}.
Definition pet_or_string : SchemaNode :=
  Inline (mkBody None (Some "A pet or its name") [] None []
            [Reference pet_ref; Inline string_body] None).
Definition owner_body : SchemaBody :=
  mkBody (Some "object") (Some "Owner")
    [("pet", Reference pet_ref); ("nick", Inline string_body)] None [] [] None.

(** An object with two scalar properties. *)
Definition home_body : SchemaBody :=
  mkBody (Some "object") None
    [("street", Inline string_body); ("city", Inline string_body)] None [] [] None.

(** A query parameter [tags[]] whose schema declares [default: []]. *)
Definition tags_parameter : ApiParameter :=
  {| ap_name := "tags[]"; ap_in := "query"; ap_required := Some false;
     ap_description := Some "Tags to filter by"; ap_deprecated := None;
     ap_allowEmptyValue := None; ap_style := None; ap_explode := None;
     ap_allowReserved := None;
     ap_schema := Some {| ps_type := Some "array"; ps_enum := None;
                          ps_default := Some (VList []) |} |}.

(** The text of a string option. *)
Definition option_text (v : Value) : string :=
  match v with
  | VStr s => s
  | _ => ""
  end.

(** The operation of [test_tool_from_operation_with_long_enum]: one
    query parameter with the twenty options [option0] to [option19]. *)
Definition long_enum : list Value :=
  map (fun i => VStr ("option" +:+ i))
    ["0"; "1"; "2"; "3"; "4"; "5"; "6"; "7"; "8"; "9"; "10"; "11"; "12"; "13"; "14";
     "15"; "16"; "17"; "18"; "19"].

Definition long_enum_parameter : ApiParameter :=
  {| ap_name := "long_enum_param"; ap_in := "query"; ap_required := None;
     ap_description := Some "A parameter with many enum options";
     ap_deprecated := None; ap_allowEmptyValue := None; ap_style := None;
     ap_explode := None; ap_allowReserved := None;
     ap_schema := Some {| ps_type := Some "string"; ps_enum := Some long_enum;
                          ps_default := Some (VStr "option0") |} |}.

(** An operation with the query parameters [array_param[]] and
    [array_params] and no body. *)
Definition query_parameter (name : string) (type : string) : ParameterModel :=
  {| p_name := name; p_in := "query"; p_required := false; p_description := None;
     p_deprecated := None; p_allowEmptyValue := None; p_style := None;
     p_explode := None; p_allowReserved := None; p_type := Some type;
     p_enum := None; p_default := None |}.

Definition colliding_operation : Operation :=
  {| op_id := "listThings"; op_summary := None; op_description := None;
     op_parameters := [query_parameter "array_param[]" "string";
                       query_parameter "array_params" "string"];
     op_request_body := None |}.

(** An operation with a query parameter [foo] and a JSON body with the
    field [foo]. *)
Definition foo_operation : Operation :=
  {| op_id := "createFoo"; op_summary := None; op_description := None;
     op_parameters := [query_parameter "foo" "string"];
     op_request_body :=
       Some {| rb_description := None; rb_content := ["application/json"];
               rb_required := true;
               rb_schema :=
                 Some (mkSchema "Foo"
                         (Some [mkSchemaProperty "foo" (TName "string") None None
                                  None None None])) |} |}.

Definition no_nested (prefix : string) (p : SchemaProperty) : list ToolParameter := [].

(** The tool and the call of [test_tool_function_noexec], and the
    request the test asserts ([params] and [json]). *)
Definition mock_tool_parameters : list ToolParameter :=
  [ {| tp_name := "param1"; tp_type := "str"; tp_description := "First parameter";
       tp_default := VStr "None"; tp_request_body_field := None; tp_in_body := false |};
    {| tp_name := "param2"; tp_type := "int"; tp_description := "Second parameter";
       tp_default := VStr "None"; tp_request_body_field := None; tp_in_body := false |};
    {| tp_name := "j_body_param"; tp_type := "dict"; tp_description := "Body parameter";
       tp_default := VStr "None"; tp_request_body_field := None; tp_in_body := true |} ].

Definition mock_arguments : gmap string Value :=
  {[ "param1" := VStr "test"; "param2" := VInt 123;
     "j_body_param" := VDict [("key", VStr "value")] ]}.

Definition asserted_params : gmap string Value :=
  {[ "param1" := VStr "test"; "param2" := VInt 123 ]}.

Definition asserted_json : gmap string Value :=
  {[ "body_param" := VDict [("key", VStr "value")] ]}.

(** A JSON body field [foo] after flattening. *)
Definition foo_tool_parameter : ToolParameter :=
  {| tp_name := "j_foo"; tp_type := "str"; tp_description := "";
     tp_default := VNone; tp_request_body_field := Some "foo"; tp_in_body := true |}.

(** ** Further notions: the visited set, scalar schemas *)

(** A computation that only ever adds to the visited set. *)
Definition grows {A : Type} (m : M A) : Prop :=
  forall v a v', m v = Done a v' -> v ⊆ v'.

(** A schema object that takes none of the four branches of the body:
    no [allOf], no [anyOf], no [properties], and not an array. *)
Definition scalar_body (b : SchemaBody) : bool :=
  negb (nonempty (b_allOf b)) && negb (nonempty (b_anyOf b))
  && negb (nonempty (b_properties b))
  && negb (bool_decide (b_type b = Some "array")).

(** The property an array item contributes for a declared property
    whose type is not [object]: its name, type and description. *)
Definition plain_item_property (api : OpenAPI) (c : string * SchemaNode)
  : SchemaProperty :=
  mkSchemaProperty c.1 (TName (str_or (b_type (attrs api c.2)) "object")) None None
    (b_description (attrs api c.2)) None None.

(** [Tree: {type: object, properties: {label: string, children: {type:
    array, items: {$ref: Tree}}}}] *)
Definition tree_ref : string := "#/components/schemas/Tree".
Definition tree_children : SchemaNode :=
  Inline (mkBody (Some "array") (Some "Sub-trees") [] (Some (Reference tree_ref))
            [] [] None).
Definition tree_body : SchemaBody :=
  mkBody (Some "object") (Some "A tree")
    [("label", Inline string_body); ("children", tree_children)] None [] [] None.
Definition tree_api : OpenAPI := mkOpenAPI {[ "Tree" := tree_body ]}.

(** A reference to a component that the document does not define. *)
Definition ghost_ref : string := "#/components/schemas/Ghost".

(** ** [Config._process_operation]: responses and request body *)

(** The document side: a media type object with its [schema_] and
    [encoding], a response, a request body and an operation, with the
    attributes the method reads.  A Python dict is kept as the list of
    its items, in order. *)
Record EncodingObject : Type := mkEncodingObject {
  eo_explode : option bool;
  eo_style : option string;
  eo_allowReserved : option bool;
  eo_contentType : option string
}.

Record MediaType : Type := mkMediaType {
  mt_schema : option SchemaNode;
  mt_encoding : list (string * EncodingObject)
}.

Record ApiResponse : Type := mkApiResponse {
  ar_description : string;
  ar_content : option (list (string * MediaType))
}.

Record ApiRequestBody : Type := mkApiRequestBody {
  arb_description : option string;
  arb_content : option (list (string * MediaType));
  arb_required : option bool
}.

Record ApiOperation : Type := mkApiOperation {
  ao_operationId : option string;
  ao_summary : option string;
  ao_description : option string;
  ao_parameters : list ApiParameter;
  ao_requestBody : option ApiRequestBody;
  ao_responses : list (string * ApiResponse)
}.

(** The pydantic models [Response], [RequestBody] and [Operation] with
    all the fields [_process_operation] fills ([RequestBody] and
    [Operation] above are the part of them the tool builder reads). *)
Record ResponseModel : Type := mkResponseModel {
  rs_description : string;
  rs_content : option (list (string * MediaType));
  rs_schema : option Schema;
  rs_format : string
}.

Record RequestBodyModel : Type := mkRequestBodyModel {
  rq_description : option string;
  rq_content : option (list (string * MediaType));
  rq_required : bool;
  rq_schema : option Schema;
  rq_encoding : option (list (string * EncodingObject))
}.

Record OperationModel : Type := mkOperationModel {
  om_id : string;
  om_summary : option string;
  om_description : option string;
  om_parameters : list ParameterModel;
  om_request_body : option RequestBodyModel;
  om_responses : list (string * ResponseModel)
}.

(** [d[key]] / [key in d] on a dict kept as its items. *)
Fixpoint dict_get {V : Type} (key : string) (d : list (string * V)) : option V :=
  match d with
  | [] => None
  | (k, v) :: d' => if String.eqb k key then Some v else dict_get key d'
  end.

(** [content and key in content], giving the entry. *)
Definition content_entry (content : option (list (string * MediaType))) (key : string)
  : option MediaType :=
  match content with
  | Some c => dict_get key c
  | None => None
  end.

(** [cls._process_schema(schema, api)] with the defaults, on what may
    be [None]: the body then fails on [resolved_schema.allOf]. *)
Definition resolve_top (schema : option SchemaNode) (api : OpenAPI)
  : Raised + option Schema :=
  match schema with
  | None => inl RaisedAttributeError
  | Some s =>
      match process_schema_default s api with
      | Done r _ => inr r
      | KeyError key => inl (RaisedKeyError key)
      | OutOfFuel => inl RaisedOutOfFuel
      end
  end.

(** One iteration of [for status_code, response in
    operation.responses.items()]. *)
Definition process_response (api : OpenAPI) (response : ApiResponse)
  : Raised + ResponseModel :=
  match content_entry (ar_content response) "application/json" with
  | Some media =>
      match resolve_top (mt_schema media) api with
      | inl e => inl e
      | inr schema =>
          inr {| rs_description := ar_description response;
                 rs_content := ar_content response;
                 rs_schema := schema;
                 rs_format := "application/json" |}
      end
  | None =>
      inr {| rs_description := ar_description response;
             rs_content := ar_content response;
             rs_schema := None;
             rs_format := "text/plain" |}
  end.

Fixpoint process_responses (api : OpenAPI) (responses : list (string * ApiResponse))
  : Raised + list (string * ResponseModel) :=
  match responses with
  | [] => inr []
  | (status_code, response) :: rest =>
      match process_response api response with
      | inl e => inl e
      | inr r =>
          match process_responses api rest with
          | inl e => inl e
          | inr rs => inr ((status_code, r) :: rs)
          end
      end
  end.

(** The encoding dictionary built for a form-encoded body. *)
Definition convert_encoding (encoding : list (string * EncodingObject))
  : list (string * EncodingObject) :=
  map (fun '(field_name, encoding_obj) =>
         (field_name,
          {| eo_explode := eo_explode encoding_obj;
             eo_style := eo_style encoding_obj;
             eo_allowReserved := eo_allowReserved encoding_obj;
             eo_contentType := eo_contentType encoding_obj |}))
    encoding.

(** [schema] and [encoding] of the request body: the form-encoded
    content first, the JSON content otherwise. *)
Definition request_body_schema (api : OpenAPI)
  (content : option (list (string * MediaType)))
  : Raised + (option Schema * option (list (string * EncodingObject))) :=
  match content_entry content "application/x-www-form-urlencoded" with
  | Some form =>
      let encoding :=
        if nonempty (mt_encoding form) then Some (convert_encoding (mt_encoding form))
        else None in
      match mt_schema form with
      | Some s =>
          match resolve_top (Some s) api with
          | inl e => inl e
          | inr schema => inr (schema, encoding)
          end
      | None => inr (None, encoding)
      end
  | None =>
      match content_entry content "application/json" with
      | Some json =>
          match resolve_top (mt_schema json) api with
          | inl e => inl e
          | inr schema => inr (schema, None)
          end
      | None => inr (None, None)
      end
  end.

Definition process_request_body (api : OpenAPI) (body : option ApiRequestBody)
  : Raised + option RequestBodyModel :=
  match body with
  | None => inr None
  | Some rb =>
      match request_body_schema api (arb_content rb) with
      | inl e => inl e
      | inr (schema, encoding) =>
          inr (Some {| rq_description := arb_description rb;
                       rq_content := arb_content rb;
                       rq_required := default false (arb_required rb);
                       rq_schema := schema;
                       rq_encoding := encoding |})
      end
  end.

(** [Config._process_operation(path_name, operation, api)]: the
    parameters, then the responses, then the request body. *)
Definition _process_operation (path_name : string) (operation : ApiOperation)
  (api : OpenAPI) : Raised + OperationModel :=
  match process_parameters (ao_parameters operation) with
  | inl e => inl e
  | inr processed_params =>
      match process_responses api (ao_responses operation) with
      | inl e => inl e
      | inr processed_responses =>
          match process_request_body api (ao_requestBody operation) with
          | inl e => inl e
          | inr request_body =>
              inr {| om_id := str_or (ao_operationId operation) path_name;
                     om_summary := ao_summary operation;
                     om_description := ao_description operation;
                     om_parameters := processed_params;
                     om_request_body := request_body;
                     om_responses := processed_responses |}
          end
      end
  end.

(** An operation with two JSON responses of the same schema [Address]
    and a request body that offers form-encoded and JSON content. *)
Definition address_media : MediaType :=
  {| mt_schema := Some (Reference address_ref); mt_encoding := [] |}.
Definition ghost_media : MediaType :=
  {| mt_schema := Some (Reference ghost_ref); mt_encoding := [] |}.
Definition no_schema_media : MediaType := {| mt_schema := None; mt_encoding := [] |}.
Definition json_response (description : string) (media : MediaType) : ApiResponse :=
  {| ar_description := description;
     ar_content := Some [("application/json", media)] |}.
Definition plain_response (description : string) : ApiResponse :=
  {| ar_description := description; ar_content := None |}.

Definition move_operation : ApiOperation :=
  {| ao_operationId := Some "moveHouse"; ao_summary := None; ao_description := None;
     ao_parameters := [tags_parameter; long_enum_parameter];
     ao_requestBody :=
       Some {| arb_description := None;
               arb_content := Some [("application/json", ghost_media);
                                    ("application/x-www-form-urlencoded",
                                     no_schema_media)];
               arb_required := Some true |};
     ao_responses := [("200", json_response "Moved" address_media);
                      ("201", json_response "Created" address_media);
                      ("204", plain_response "Nothing")] |}.

Definition broken_operation : ApiOperation :=
  {| ao_operationId := None; ao_summary := None; ao_description := None;
     ao_parameters := [];
     ao_requestBody :=
       Some {| arb_description := None;
               arb_content := Some [("application/json", ghost_media)];
               arb_required := None |};
     ao_responses := [("200", json_response "Fine" address_media);
                      ("500", json_response "No schema" no_schema_media)] |}.

(** ** [Config._from_api] *)

(** A path item with its five operations, the model [Path], and the
    loaded document: its components and its paths in order. *)
Record PathItem : Type := mkPathItem {
  pi_get : option ApiOperation;
  pi_post : option ApiOperation;
  pi_put : option ApiOperation;
  pi_delete : option ApiOperation;
  pi_patch : option ApiOperation
}.

Record PathModel : Type := mkPathModel {
  pm_path : string;
  pm_get : option OperationModel;
  pm_post : option OperationModel;
  pm_put : option OperationModel;
  pm_delete : option OperationModel;
  pm_patch : option OperationModel
}.

Record Document : Type := mkDocument {
  doc_api : OpenAPI;
  doc_paths : list (string * PathItem)
}.

(** [if path_item.get: processed_path.get = cls._process_operation(...)] *)
Definition process_method (path : string) (operation : option ApiOperation)
  (api : OpenAPI) : Raised + option OperationModel :=
  match operation with
  | Some op =>
      match _process_operation path op api with
      | inl e => inl e
      | inr o => inr (Some o)
      end
  | None => inr None
  end.

(** The five assignments on [processed_path], in the order of the
    source. *)
Definition process_path_item (path : string) (item : PathItem) (api : OpenAPI)
  : Raised + PathModel :=
  match process_method path (pi_get item) api with
  | inl e => inl e
  | inr get =>
  match process_method path (pi_post item) api with
  | inl e => inl e
  | inr post =>
  match process_method path (pi_put item) api with
  | inl e => inl e
  | inr put =>
  match process_method path (pi_delete item) api with
  | inl e => inl e
  | inr delete =>
  match process_method path (pi_patch item) api with
  | inl e => inl e
  | inr patch =>
      inr {| pm_path := path; pm_get := get; pm_post := post; pm_put := put;
             pm_delete := delete; pm_patch := patch |}
  end end end end end.

Section FromApi.

(** The regular expressions of Python's [re]: compiled patterns,
    [re.compile] (which fails on an invalid pattern) and
    [pattern.match(path)] as a truth value. *)
Variable Pattern : Type.
Variable re_compile : string -> option Pattern.
Variable re_match : Pattern -> string -> bool.

(** [[re.compile(pattern) for pattern in path_patterns]] *)
Fixpoint compile_patterns (path_patterns : list string) : Raised + list Pattern :=
  match path_patterns with
  | [] => inr []
  | pattern :: rest =>
      match re_compile pattern with
      | None => inl (RaisedReError pattern)
      | Some compiled =>
          match compile_patterns rest with
          | inl e => inl e
          | inr cs => inr (compiled :: cs)
          end
      end
  end.

(** [any(pattern.match(path) for pattern in compiled_patterns)] *)
Definition matches_any (compiled_patterns : list Pattern) (path : string) : bool :=
  existsb (fun pattern => re_match pattern path) compiled_patterns.

(** The loop over [api.paths.paths.items()]. *)
Fixpoint process_paths (compiled_patterns : list Pattern) (api : OpenAPI)
  (paths : list (string * PathItem)) : Raised + list PathModel :=
  match paths with
  | [] => inr []
  | (path, path_item) :: rest =>
      if negb (matches_any compiled_patterns path) then
        process_paths compiled_patterns api rest
      else
        match process_path_item path path_item api with
        | inl e => inl e
        | inr processed_path =>
            match process_paths compiled_patterns api rest with
            | inl e => inl e
            | inr ps => inr (processed_path :: ps)
            end
        end
  end.

(** [Config._from_api(api, path_patterns)]: the paths of the resulting
    [Config]. *)
Definition _from_api (doc : Document) (path_patterns : list string)
  : Raised + list PathModel :=
  match compile_patterns path_patterns with
  | inl e => inl e
  | inr compiled_patterns => process_paths compiled_patterns (doc_api doc) (doc_paths doc)
  end.

End FromApi.

(** Patterns for the examples: a pattern is a literal prefix of the
    path ([re.match] anchors at the start), and the pattern ["("] does
    not compile. *)
Definition literal_compile (pattern : string) : option string :=
  if String.eqb pattern "(" then None else Some pattern.
Definition literal_match (pattern path : string) : bool := String.prefix pattern path.

Definition pets_document : Document :=
  {| doc_api := address_api;
     doc_paths :=
       [("/pets", mkPathItem (Some move_operation) None None None None);
        ("/internal/debug", mkPathItem (Some broken_operation) None None None None);
        ("/pets/{id}", mkPathItem None None None (Some move_operation) None)] |}.

(** ** [Config.from_file] and [Config.from_url]: the cache *)

(** The order of Python's string comparison (by code points), and
    [sorted] on a list of strings. *)
Definition string_le (a b : string) : Prop := String.leb a b = true.

#[global] Instance string_le_dec (a b : string) : Decision (string_le a b) :=
  decide (String.leb a b = true).

Definition sorted (l : list string) : list string := merge_sort string_le l.

Section Cache.

Variable Pattern : Type.
Variable re_compile : string -> option Pattern.
Variable re_match : Pattern -> string -> bool.

(** [hashlib.md5(text.encode()).hexdigest()] *)
Variable md5_hexdigest : string -> string.

(** The name of the cache file, relative to [CACHE_DIR]. *)
Definition cache_file (source : string) (path_patterns : list string) : string :=
  md5_hexdigest (source +:+ ":" +:+ String.concat "," (sorted path_patterns))
  +:+ ".pickle".

(** [Config.from_file] and [Config.from_url] have the same text but for
    the loader: [load] is [OpenAPI.load_file] or [OpenAPI.load_sync],
    the cache directory is a map from file names to the pickled
    [Config] (its paths), and the result is the value and the cache
    directory afterwards. *)
Definition cached_load (load : string -> Raised + Document) (source : string)
  (path_patterns : list string) (cache : gmap string (list PathModel))
  : (Raised + list PathModel) * gmap string (list PathModel) :=
  let file := cache_file source path_patterns in
  match cache !! file with
  | Some config => (inr config, cache)
  | None =>
      match load source with
      | inl e => (inl e, cache)
      | inr api =>
          match _from_api Pattern re_compile re_match api path_patterns with
          | inl e => (inl e, cache)
          | inr config => (inr config, <[file := config]> cache)
          end
      end
  end.

End Cache.

(** Loaders for the examples: the first finds the pets document
    everywhere, the second fails everywhere; and a digest that is the
    text itself. *)
Definition load_pets (source : string) : Raised + Document := inr pets_document.
Definition load_nothing (source : string) : Raised + Document :=
  inl (RaisedLoadError source).
Definition plain_digest (text : string) : string := text.

(** ** [ServerManager] ([mcp_openapi/server_manager.py]) *)

(** A server entry of the configuration file, with the keys
    [start_server] reads. *)
Record ServerConfig : Type := mkServerConfig {
  sc_namespace : string;
  sc_name : string;
  sc_url : string;
  sc_base_url : string;
  sc_paths : list string;
  sc_forward_headers : list string;
  sc_forward_query_params : list (string * string)
}.

Section Manager.

(** The collaborators of [start_server]: the loaded spec
    ([Spec.from_file] / [Spec.from_url], which may raise), the
    [FastMCP] server object, the tools ([tools_from_spec], which may
    raise; a tool shows its name and description), the registration of
    one tool ([create_tool_function_exec] and [mcp.tool], which may
    raise) and the routes of [mcp.sse_app()] (which may raise). *)
Variable SpecT ServerT ToolT RouteT : Type.
Variable load_spec : ServerConfig -> option SpecT.
Variable new_server : ServerConfig -> ServerT.
Variable tools_from_spec : SpecT -> list string -> option (list ToolT).
Variable tool_name tool_description : ToolT -> string.
Variable register_tool : ServerT -> ToolT -> bool.
Variable sse_app_routes : ServerT -> option (list RouteT).

(** The routes of the application: the two listing endpoints of
    [setup_endpoints] and the routes of the servers. *)
Inductive Route : Type :=
| ListingRoute (path : string)
| ServerRoute (r : RouteT).

(** The attributes of a [ServerManager]. *)
Record Manager : Type := mkManager {
  mg_servers : gmap string ServerT;
  mg_tools : gmap string (list ToolT);
  mg_routes : list Route;
  mg_config : list ServerConfig
}.

(** [setup_endpoints]: [self.routes.extend([Route("/tools", ...),
    Route("/tools/{namespace}", ...)])]. *)
Definition setup_endpoints (m : Manager) : Manager :=
  {| mg_servers := mg_servers m; mg_tools := mg_tools m;
     mg_routes := mg_routes m ++ [ListingRoute "/tools"; ListingRoute "/tools/{namespace}"];
     mg_config := mg_config m |}.

(** [load_config], given what the configuration file holds (a missing
    or unreadable file ends the process, which is not modelled). *)
Definition load_config (servers : list ServerConfig) (m : Manager) : Manager :=
  {| mg_servers := mg_servers m; mg_tools := mg_tools m; mg_routes := mg_routes m;
     mg_config := servers |}.

(** [__init__]: empty registries, then [setup_endpoints] and
    [load_config]. *)
Definition new_manager (servers : list ServerConfig) : Manager :=
  load_config servers
    (setup_endpoints {| mg_servers := ∅; mg_tools := ∅; mg_routes := [];
                        mg_config := [] |}).

(** [start_server]: the keys of [server_config] are read first (the
    record has them all, so these reads succeed); what follows happens
    inside [try], and an exception there is logged and swallowed,
    leaving what was assigned before it. *)
Definition start_server (m : Manager) (server_config : ServerConfig) : Manager :=
  let namespace := sc_namespace server_config in
  match load_spec server_config with
  | None => m
  | Some spec =>
      let mcp := new_server server_config in
      match tools_from_spec spec (map fst (sc_forward_query_params server_config)) with
      | None => m
      | Some tools =>
          let m1 := {| mg_servers := mg_servers m;
                       mg_tools := <[namespace := tools]> (mg_tools m);
                       mg_routes := mg_routes m; mg_config := mg_config m |} in
          if forallb (register_tool mcp) tools then
            let m2 := {| mg_servers := <[namespace := mcp]> (mg_servers m1);
                         mg_tools := mg_tools m1; mg_routes := mg_routes m1;
                         mg_config := mg_config m1 |} in
            match sse_app_routes mcp with
            | None => m2
            | Some routes =>
                {| mg_servers := mg_servers m2; mg_tools := mg_tools m2;
                   mg_routes := mg_routes m2 ++ map ServerRoute routes;
                   mg_config := mg_config m2 |}
            end
          else m1
      end
  end.

(** [start_servers]: [for server_config in self.config["servers"]]. *)
Definition start_servers (m : Manager) : Manager :=
  fold_left start_server (mg_config m) m.

(** [stop_servers]: [self.servers.clear(); self.routes = []]. *)
Definition stop_servers (m : Manager) : Manager :=
  {| mg_servers := ∅; mg_tools := mg_tools m; mg_routes := []; mg_config := mg_config m |}.

(** The answer of the endpoint [/tools/{namespace}]: 404 for an unknown
    namespace, else the name and description of each tool. *)
Definition get_namespace_tools (m : Manager) (namespace : string)
  : option (list (string * string)) :=
  match mg_tools m !! namespace with
  | None => None
  | Some tools => Some (map (fun tool => (tool_name tool, tool_description tool)) tools)
  end.

(** [ConfigFileHandler._handle_config_change] on the manager it holds:
    [stop_servers], [load_config] (with what the file holds now), then
    [start_servers]. *)
Definition handle_config_change (servers : list ServerConfig) (m : Manager) : Manager :=
  start_servers (load_config servers (stop_servers m)).

End Manager.

(** Collaborators for the examples: every spec loads and offers one
    tool named after the server, a server object is its namespace, and
    its application has the two routes of the SSE transport. *)
Definition demo_config (namespace : string) : ServerConfig :=
  {| sc_namespace := namespace; sc_name := namespace; sc_url := "file://spec.yaml";
     sc_base_url := "http://localhost"; sc_paths := ["/"]; sc_forward_headers := [];
     sc_forward_query_params := [] |}.
Definition demo_load_spec (c : ServerConfig) : option string := Some (sc_name c).
Definition demo_new_server (c : ServerConfig) : string := sc_namespace c.
Definition demo_tools (spec : string) (forwarded : list string)
  : option (list (string * string)) := Some [(spec, "A tool")].
Definition demo_register (server : string) (tool : string * string) : bool := true.
Definition demo_routes (server : string) : option (list string) :=
  Some ["/" +:+ server +:+ "/sse"; "/" +:+ server +:+ "/messages/"].

(** A manager started with the namespace [pets], and the same manager
    after the configuration file was changed to the namespace [store]. *)
Definition demo_started : Manager string (string * string) string :=
  start_servers string string (string * string) string demo_load_spec demo_new_server
    demo_tools demo_register demo_routes
    (new_manager string (string * string) string [demo_config "pets"]).
Definition demo_reloaded : Manager string (string * string) string :=
  handle_config_change string string (string * string) string demo_load_spec
    demo_new_server demo_tools demo_register demo_routes [demo_config "store"] demo_started.
Definition demo_listing := get_namespace_tools string (string * string) string fst snd.

(** ** Further examples *)

(** [k] levels of [allOf] with a single branch around [leaf]. *)
Fixpoint nest_all_of (k : nat) (leaf : SchemaNode) : SchemaNode :=
  match k with
  | O => leaf
  | S k' => Inline (mkBody None None [] None [nest_all_of k' leaf] [] None)
  end.

(** An [anyOf] of two scalars. *)
Definition string_or_integer : SchemaBody :=
  mkBody None (Some "Text or number") [] None []
    [Inline string_body; Inline integer_body] None.

(** [Customer: {type: object, properties: {contact: {$ref: Contact}}}],
    [Contact: {type: object, properties: {email: {type: string}}}] and
    the schema [{allOf: [{$ref: Customer}, {$ref: Contact}]}]: two
    object schemas with the disjoint property sets [contact] and
    [email], and no cycle. *)
Definition customer_ref : string := "#/components/schemas/Customer".
Definition contact_ref : string := "#/components/schemas/Contact".
Definition contact_body : SchemaBody :=
  mkBody (Some "object") None [("email", Inline string_body)] None [] [] None.
Definition customer_body : SchemaBody :=
  mkBody (Some "object") None [("contact", Reference contact_ref)] None [] [] None.
Definition customer_api : OpenAPI :=
  mkOpenAPI {[ "Customer" := customer_body; "Contact" := contact_body ]}.
Definition customer_and_contact : SchemaNode :=
  Inline (mkBody None (Some "Customer with contact") [] None
            [Reference customer_ref; Reference contact_ref] [] None).

(** A schema with both [allOf] and [anyOf], an [anyOf] with a branch on
    an undefined component, and an [anyOf] whose second branch repeats
    the first. *)
Definition all_and_any : SchemaNode :=
  Inline (mkBody None None [] None [Inline string_body] [Inline string_body] None).
Definition pet_or_ghost : SchemaNode :=
  Inline (mkBody None None [] None [] [Reference pet_ref; Reference ghost_ref] None).
Definition pet_or_pet : SchemaNode :=
  Inline (mkBody None (Some "A pet, twice") [] None []
            [Reference pet_ref; Reference pet_ref] None).

(** An object property with three children: [home] is an object with
    two properties, [age] a scalar, and [contact] an [anyOf]. *)
Definition person_body : SchemaBody :=
  mkBody (Some "object") (Some "Person")
    [("home", Inline home_body); ("age", Inline integer_body);
     ("contact", Inline string_or_integer)] None [] [] None.

(** [Employee: {type: object, properties: {name: string, manager:
    {$ref: Employee}, badge: integer}}] *)
Definition employee_ref : string := "#/components/schemas/Employee".
Definition employee_body : SchemaBody :=
  mkBody (Some "object") (Some "An employee")
    [("name", Inline string_body); ("manager", Reference employee_ref);
     ("badge", Inline integer_body)] None [] [] None.
Definition employee_api : OpenAPI := mkOpenAPI {[ "Employee" := employee_body ]}.

(** A parameter that describes itself by [content] and has no schema,
    and an operation with it, whose only response refers to an
    undefined component. *)
Definition content_parameter : ApiParameter :=
  {| ap_name := "filter"; ap_in := "query"; ap_required := None;
     ap_description := None; ap_deprecated := None; ap_allowEmptyValue := None;
     ap_style := None; ap_explode := None; ap_allowReserved := None;
     ap_schema := None |}.
Definition filter_operation : ApiOperation :=
  {| ao_operationId := Some "filterPets"; ao_summary := None; ao_description := None;
     ao_parameters := [tags_parameter; content_parameter; long_enum_parameter];
     ao_requestBody := None;
     ao_responses := [("200", json_response "Found" ghost_media)] |}.

(** ** The recursion is bounded by the depth guard *)

Lemma eqM_refl {A : Type} (m : M A) : eqM m m.
Proof. intros v; reflexivity. Qed.

Lemma bind_eqM {A B : Type} (m1 m2 : M A) (k1 k2 : A -> M B) :
  eqM m1 m2 -> (forall a, eqM (k1 a) (k2 a)) -> eqM (bind m1 k1) (bind m2 k2).
Proof.
  intros Hm Hk v. unfold bind. rewrite Hm.
  destruct (m2 v); auto. apply Hk.
Qed.

Lemma for_each_eqM {A S : Type} (l : list A) (b1 b2 : A -> S -> M S) :
  (forall x s, eqM (b1 x s) (b2 x s)) ->
  forall s, eqM (for_each l b1 s) (for_each l b2 s).
Proof.
  intros Hb. induction l as [|x l IH]; intros s; simpl.
  - apply eqM_refl.
  - apply bind_eqM; auto.
Qed.

Lemma bind_done {A B : Type} (m : M A) (k : A -> M B) v a v1 :
  m v = Done a v1 -> bind m k v = k a v1.
Proof. intros H. unfold bind. by rewrite H. Qed.

Lemma bind_keyerror {A B : Type} (m : M A) (k : A -> M B) v key :
  m v = KeyError key -> bind m k v = KeyError key.
Proof. intros H. unfold bind. by rewrite H. Qed.

Lemma ret_safe {A : Type} (a : A) : safe (ret a).
Proof. intros v; discriminate. Qed.

Lemma raise_safe {A : Type} (key : string) : safe (@raise A key).
Proof. intros v; discriminate. Qed.

Lemma bind_safe {A B : Type} (m : M A) (k : A -> M B) :
  safe m -> (forall a, safe (k a)) -> safe (bind m k).
Proof.
  intros Hm Hk v. unfold bind. specialize (Hm v).
  destruct (m v); first [congruence | apply Hk].
Qed.

Lemma for_each_safe {A S : Type} (l : list A) (body : A -> S -> M S) :
  (forall x s, safe (body x s)) -> forall s, safe (for_each l body s).
Proof.
  intros Hb. induction l as [|x l IH]; intros s; simpl.
  - apply ret_safe.
  - apply bind_safe; auto.
Qed.

Lemma lookup_component_safe api name : safe (lookup_component api name).
Proof.
  unfold lookup_component. destruct (_ !! _); [apply ret_safe | apply raise_safe].
Qed.

Lemma track_visited_safe schema : safe (track_visited schema).
Proof.
  destruct schema; simpl; [|apply ret_safe].
  intros v. destruct (decide _); discriminate.
Qed.

(** Peel one layer of a computation built from [bind], [for_each],
    [ret] and case distinctions. *)
Ltac peel_case :=
  match goal with
  | |- context [match ?x with _ => _ end] =>
      first [is_var x; destruct x | let E := fresh "E" in destruct x eqn:E]
  end.

Ltac intro_binder :=
  match goal with |- forall _, _ => intro end.

Ltac peel_eqM H :=
  repeat first
    [ apply eqM_refl
    | apply H
    | apply bind_eqM
    | apply for_each_eqM
    | intro_binder
    | peel_case ].

Ltac peel_safe H :=
  repeat first
    [ apply ret_safe
    | apply raise_safe
    | apply lookup_component_safe
    | apply track_visited_safe
    | apply H
    | apply bind_safe
    | apply for_each_safe
    | intro_binder
    | peel_case ].

Section Parametric.

Variable api : OpenAPI.
Variable max_depth : nat.
Variables rec1 rec2 : SchemaNode -> nat -> M (option Schema).
Variable depth : nat.

Hypothesis rec_agree : forall s, eqM (rec1 s (S depth)) (rec2 s (S depth)).

Lemma all_of_loop_eqM subs :
  eqM (all_of_loop api rec1 depth subs) (all_of_loop api rec2 depth subs).
Proof. unfold all_of_loop. peel_eqM rec_agree. Qed.

Lemma any_of_loop_eqM subs :
  eqM (any_of_loop api rec1 depth subs) (any_of_loop api rec2 depth subs).
Proof. unfold any_of_loop. peel_eqM rec_agree. Qed.

Lemma prop_any_of_loop_eqM subs :
  eqM (prop_any_of_loop api rec1 depth subs) (prop_any_of_loop api rec2 depth subs).
Proof. unfold prop_any_of_loop. peel_eqM rec_agree. Qed.

Lemma item_properties_loop_eqM props :
  eqM (item_properties_loop api rec1 depth props)
      (item_properties_loop api rec2 depth props).
Proof. unfold item_properties_loop. peel_eqM rec_agree. Qed.

Lemma nested_properties_loop_eqM props :
  eqM (nested_properties_loop api rec1 depth props)
      (nested_properties_loop api rec2 depth props).
Proof.
  unfold nested_properties_loop.
  apply for_each_eqM. intros [n s] acc.
  destruct (nonempty _).
  - apply bind_eqM; [apply prop_any_of_loop_eqM | intros; apply eqM_refl].
  - apply bind_eqM; [apply rec_agree | intros; apply eqM_refl].
Qed.

Lemma process_property_eqM name s :
  eqM (process_property api rec1 depth name s)
      (process_property api rec2 depth name s).
Proof.
  unfold process_property.
  repeat first
    [ apply eqM_refl
    | apply rec_agree
    | apply item_properties_loop_eqM
    | apply nested_properties_loop_eqM
    | apply prop_any_of_loop_eqM
    | apply all_of_loop_eqM
    | apply bind_eqM
    | intro_binder
    | peel_case ].
Qed.

Lemma properties_loop_eqM props :
  eqM (properties_loop api rec1 depth props) (properties_loop api rec2 depth props).
Proof.
  unfold properties_loop. apply for_each_eqM. intros [n s] acc.
  apply bind_eqM; [apply process_property_eqM | intros; apply eqM_refl].
Qed.

Lemma build_eqM name resolved :
  eqM (build api rec1 depth name resolved) (build api rec2 depth name resolved).
Proof.
  unfold build.
  repeat first
    [ apply eqM_refl
    | apply rec_agree
    | apply properties_loop_eqM
    | apply any_of_loop_eqM
    | apply all_of_loop_eqM
    | apply bind_eqM
    | intro_binder
    | peel_case ].
Qed.

End Parametric.

Section ParametricSafe.

Variable api : OpenAPI.
Variable max_depth : nat.
Variable rec : SchemaNode -> nat -> M (option Schema).
Variable depth : nat.

Hypothesis rec_safe : forall s, safe (rec s (S depth)).

Lemma all_of_loop_safe subs : safe (all_of_loop api rec depth subs).
Proof. unfold all_of_loop. peel_safe rec_safe. Qed.

Lemma any_of_loop_safe subs : safe (any_of_loop api rec depth subs).
Proof. unfold any_of_loop. peel_safe rec_safe. Qed.

Lemma prop_any_of_loop_safe subs : safe (prop_any_of_loop api rec depth subs).
Proof. unfold prop_any_of_loop. peel_safe rec_safe. Qed.

Lemma item_properties_loop_safe props : safe (item_properties_loop api rec depth props).
Proof. unfold item_properties_loop. peel_safe rec_safe. Qed.

Lemma nested_properties_loop_safe props :
  safe (nested_properties_loop api rec depth props).
Proof.
  unfold nested_properties_loop.
  apply for_each_safe. intros [n s] acc.
  destruct (nonempty _).
  - apply bind_safe; [apply prop_any_of_loop_safe | intros [? ?]; apply ret_safe].
  - apply bind_safe; [apply rec_safe | peel_safe rec_safe].
Qed.

Ltac peel_safe_loops :=
  repeat first
    [ apply ret_safe
    | apply raise_safe
    | apply lookup_component_safe
    | apply rec_safe
    | apply item_properties_loop_safe
    | apply nested_properties_loop_safe
    | apply prop_any_of_loop_safe
    | apply any_of_loop_safe
    | apply all_of_loop_safe
    | apply bind_safe
    | intro_binder
    | peel_case ].

Lemma process_property_safe name s : safe (process_property api rec depth name s).
Proof. unfold process_property. peel_safe_loops. Qed.

Lemma properties_loop_safe props : safe (properties_loop api rec depth props).
Proof.
  unfold properties_loop. apply for_each_safe. intros [n s] acc.
  apply bind_safe; [apply process_property_safe | intros; apply ret_safe].
Qed.

Lemma build_safe name resolved : safe (build api rec depth name resolved).
Proof.
  unfold build.
  repeat first [ apply properties_loop_safe | progress peel_safe_loops ].
Qed.

End ParametricSafe.

(** The body only ever calls [rec] one level deeper, and only below the
    depth limit. *)
Lemma process_body_eqM api max_depth rec1 rec2 schema depth :
  (depth < max_depth -> forall s, eqM (rec1 s (S depth)) (rec2 s (S depth))) ->
  eqM (process_body api max_depth rec1 schema depth)
      (process_body api max_depth rec2 schema depth).
Proof.
  intros H. unfold process_body.
  destruct (Nat.leb_spec max_depth depth) as [Hle|Hlt]; [apply eqM_refl|].
  apply bind_eqM; [apply eqM_refl|]. intros [|]; [apply eqM_refl|].
  apply bind_eqM; [apply eqM_refl|]. intros [name resolved].
  apply build_eqM. auto.
Qed.

Lemma process_body_safe api max_depth rec schema depth :
  (depth < max_depth -> forall s, safe (rec s (S depth))) ->
  safe (process_body api max_depth rec schema depth).
Proof.
  intros H. unfold process_body.
  destruct (Nat.leb_spec max_depth depth) as [Hle|Hlt]; [apply ret_safe|].
  apply bind_safe; [apply track_visited_safe|]. intros [|]; [apply ret_safe|].
  apply bind_safe.
  - destruct schema; simpl; [|apply ret_safe].
    apply bind_safe; [apply lookup_component_safe | intros; apply ret_safe].
  - intros [name resolved]. apply build_safe. auto.
Qed.

(** With more frames than levels left below the limit, the stack is
    never exhausted. *)
Lemma process_fuel_safe fuel :
  forall api max_depth schema depth,
    max_depth - depth < fuel ->
    safe (process_fuel fuel api max_depth schema depth).
Proof.
  induction fuel as [|fuel IH]; intros api max_depth schema depth Hf.
  - lia.
  - simpl. apply process_body_safe. intros Hlt s. apply IH. lia.
Qed.

(** ... and the result does not depend on how many frames there were. *)
Lemma process_fuel_enough fuel1 :
  forall fuel2 api max_depth schema depth,
    max_depth - depth < fuel1 ->
    max_depth - depth < fuel2 ->
    eqM (process_fuel fuel1 api max_depth schema depth)
        (process_fuel fuel2 api max_depth schema depth).
Proof.
  induction fuel1 as [|fuel1 IH]; intros fuel2 api max_depth schema depth H1 H2.
  - lia.
  - destruct fuel2 as [|fuel2]; [lia|].
    simpl. apply process_body_eqM. intros Hlt s. apply IH; lia.
Qed.

(** [_process_schema] satisfies the recursive equation of the source. *)
Lemma process_schema_unfold schema api depth max_depth visited :
  _process_schema schema api depth max_depth visited =
  process_body api max_depth
    (fun s d v => _process_schema s api d max_depth v) schema depth visited.
Proof.
  unfold _process_schema. simpl.
  apply process_body_eqM. intros Hlt s v.
  apply (process_fuel_enough (max_depth - depth) (S (max_depth - S depth))); lia.
Qed.

(** ** Entering the body, and running a list of branches *)

Lemma process_schema_enter api schema depth max_depth visited name resolved visited' :
  depth < max_depth ->
  enters api schema visited name resolved visited' ->
  _process_schema schema api depth max_depth visited =
  build api (fun s d v => _process_schema s api d max_depth v) depth name resolved
    visited'.
Proof.
  intros Hd He. rewrite process_schema_unfold. unfold process_body.
  destruct (Nat.leb_spec max_depth depth) as [Hle|_]; [lia|].
  destruct He as [b v | ref b v Hin Hb]; simpl; unfold bind; simpl.
  - reflexivity.
  - destruct (decide (ref ∈ v)) as [Hc|_]; [contradiction|].
    unfold lookup_component. rewrite Hb. reflexivity.
Qed.

(** At or beyond the limit the call returns null and leaves the visited
    set as it was. *)
Lemma process_schema_depth_guard schema api depth max_depth visited :
  max_depth <= depth ->
  _process_schema schema api depth max_depth visited = Done None visited.
Proof.
  intros Hd. rewrite process_schema_unfold. unfold process_body.
  destruct (Nat.leb_spec max_depth depth) as [_|Hlt]; [reflexivity | lia].
Qed.

(** A reference already in the visited set returns null and leaves the
    set as it was. *)
Lemma process_schema_seen ref api depth max_depth visited :
  ref ∈ visited ->
  _process_schema (Reference ref) api depth max_depth visited = Done None visited.
Proof.
  intros Hin. rewrite process_schema_unfold. unfold process_body.
  destruct (max_depth <=? depth)%nat; [reflexivity|].
  simpl. unfold bind. destruct (decide (ref ∈ visited)); [reflexivity | contradiction].
Qed.

Section LoopResults.

Variable api : OpenAPI.
Variable rec : SchemaNode -> nat -> M (option Schema).
Variable depth : nat.

Lemma all_of_loop_from subs : forall acc_p acc_s v rs v',
  runs (fun s => rec s (S depth)) subs v rs v' ->
  for_each subs
    (fun sub_schema '(all_properties, all_schemas) =>
       let* sub_result := rec sub_schema (S depth) in
       match sub_result with
       | Some r =>
           ret (all_properties ++ props_or_nil (schema_properties r),
                all_schemas ++
                  [mkSchemaProperty (schema_name r) (TName "object") None
                     (schema_properties r)
                     (b_description (attrs api sub_schema)) None None])
       | None => ret (all_properties, all_schemas)
       end)
    (acc_p, acc_s) v =
  Done (acc_p ++ concat (map branch_properties rs),
        acc_s ++ concat (zip_with (branch_as_property api) subs rs)) v'.
Proof.
  induction subs as [|s subs IH]; intros acc_p acc_s v rs v' Hr;
    inversion Hr; subst; simpl.
  - unfold ret. by rewrite !app_nil_r.
  - destruct r as [r|]; simpl;
      (erewrite bind_done by (erewrite bind_done by eassumption; reflexivity)).
    + erewrite IH by eassumption. by rewrite <- !app_assoc.
    + erewrite IH by eassumption. reflexivity.
Qed.

Lemma all_of_loop_runs subs v rs v' :
  runs (fun s => rec s (S depth)) subs v rs v' ->
  all_of_loop api rec depth subs v =
  Done (concat (map branch_properties rs),
        concat (zip_with (branch_as_property api) subs rs)) v'.
Proof. intros Hr. unfold all_of_loop. by erewrite all_of_loop_from. Qed.

Lemma any_of_loop_from subs : forall acc_p acc_t v rs v',
  runs (fun s => rec s (S depth)) subs v rs v' ->
  for_each subs
    (fun sub_schema '(any_of_properties, types) =>
       let types :=
         match b_type (attrs api sub_schema) with
         | Some t => if str_truthy (Some t) then types ++ [t] else types
         | None => types
         end in
       let* sub_result := rec sub_schema (S depth) in
       match sub_result with
       | Some r => ret (any_of_properties ++ props_or_nil (schema_properties r), types)
       | None => ret (any_of_properties, types)
       end)
    (acc_p, acc_t) v =
  Done (acc_p ++ concat (map branch_properties rs),
        acc_t ++ declared_types api subs) v'.
Proof.
  induction subs as [|s subs IH]; intros acc_p acc_t v rs v' Hr;
    inversion Hr; subst; simpl.
  - unfold ret, declared_types. simpl. by rewrite !app_nil_r.
  - assert (Ht : forall ts,
               match b_type (attrs api s) with
               | Some t => if str_truthy (Some t) then ts ++ [t] else ts
               | None => ts
               end ++ declared_types api subs
               = ts ++ declared_types api (s :: subs)).
    { intros ts. unfold declared_types. simpl.
      destruct (b_type (attrs api s)) as [t|]; simpl; [|reflexivity].
      destruct (String.eqb t ""); simpl; [reflexivity|].
      by rewrite <- app_assoc. }
    destruct r as [r|]; simpl;
      (erewrite bind_done by (erewrite bind_done by eassumption; reflexivity)).
    + erewrite IH by eassumption. rewrite Ht. by rewrite <- !app_assoc.
    + erewrite IH by eassumption. by rewrite Ht.
Qed.

Lemma any_of_loop_runs subs v rs v' :
  runs (fun s => rec s (S depth)) subs v rs v' ->
  any_of_loop api rec depth subs v =
  Done (concat (map branch_properties rs), declared_types api subs) v'.
Proof. intros Hr. unfold any_of_loop. by erewrite any_of_loop_from. Qed.

End LoopResults.

(** Past the depth and cycle checks, only the [allOf] branch can return
    null. *)
Lemma build_null_inv api rec depth name resolved v v' :
  build api rec depth name resolved v = Done None v' ->
  nonempty (b_allOf resolved) = true.
Proof.
  unfold build. destruct (nonempty (b_allOf resolved)); [reflexivity|].
  intros H. exfalso. unfold bind, ret in H.
  repeat match type of H with
         | context [match ?x with _ => _ end] => destruct x
         end; discriminate.
Qed.

Lemma process_schema_null_inv schema api depth max_depth v v' :
  _process_schema schema api depth max_depth v = Done None v' ->
  max_depth <= depth
  \/ (exists ref, schema = Reference ref /\ ref ∈ v)
  \/ nonempty (b_allOf (attrs api schema)) = true.
Proof.
  rewrite process_schema_unfold. unfold process_body.
  destruct (Nat.leb_spec max_depth depth) as [Hle|Hlt]; [auto|].
  intros H. right.
  destruct schema as [ref|b]; simpl in H; unfold bind in H; simpl in H.
  - destruct (decide (ref ∈ v)) as [Hin|Hnin]; [left; eauto|].
    right. simpl. unfold lookup_component in H.
    destruct (components_schemas api !! last_segment ref) as [b|]; simpl in *;
      [|discriminate].
    eapply build_null_inv; eassumption.
  - right. simpl. eapply build_null_inv; eassumption.
Qed.

(** ** The visited set only grows *)

Lemma bind_inv {A B : Type} (m : M A) (k : A -> M B) v b v' :
  bind m k v = Done b v' ->
  exists a v1, m v = Done a v1 /\ k a v1 = Done b v'.
Proof.
  unfold bind. destruct (m v) as [| |a v1]; try discriminate. eauto.
Qed.

Lemma ret_grows {A : Type} (a : A) : grows (ret a).
Proof. intros v a' v' [= _ <-]. reflexivity. Qed.

Lemma raise_grows {A : Type} (key : string) : grows (@raise A key).
Proof. intros v a v'. discriminate. Qed.

Lemma bind_grows {A B : Type} (m : M A) (k : A -> M B) :
  grows m -> (forall a, grows (k a)) -> grows (bind m k).
Proof.
  intros Hm Hk v b v' H. apply bind_inv in H as (a & v1 & H1 & H2).
  transitivity v1; [eapply Hm | eapply Hk]; eassumption.
Qed.

Lemma for_each_grows {A S : Type} (l : list A) (body : A -> S -> M S) :
  (forall x s, grows (body x s)) -> forall s, grows (for_each l body s).
Proof.
  intros Hb. induction l as [|x l IH]; intros s; simpl.
  - apply ret_grows.
  - apply bind_grows; auto.
Qed.

Lemma lookup_component_grows api name : grows (lookup_component api name).
Proof.
  unfold lookup_component. destruct (_ !! _); [apply ret_grows | apply raise_grows].
Qed.

Lemma track_visited_grows schema : grows (track_visited schema).
Proof.
  destruct schema as [ref|b]; simpl; [|apply ret_grows].
  intros v a v'. destruct (decide (ref ∈ v)); intros [= _ <-]; set_solver.
Qed.

Section ParametricGrows.

Variable api : OpenAPI.
Variable max_depth : nat.
Variable rec : SchemaNode -> nat -> M (option Schema).
Variable depth : nat.

Hypothesis rec_grows : forall s, grows (rec s (S depth)).

Ltac peel_grows :=
  repeat first
    [ apply ret_grows
    | apply raise_grows
    | apply lookup_component_grows
    | apply rec_grows
    | apply bind_grows
    | apply for_each_grows
    | intro_binder
    | peel_case ].

Lemma all_of_loop_grows subs : grows (all_of_loop api rec depth subs).
Proof. unfold all_of_loop. peel_grows. Qed.

Lemma any_of_loop_grows subs : grows (any_of_loop api rec depth subs).
Proof. unfold any_of_loop. peel_grows. Qed.

Lemma prop_any_of_loop_grows subs : grows (prop_any_of_loop api rec depth subs).
Proof. unfold prop_any_of_loop. peel_grows. Qed.

Lemma item_properties_loop_grows props : grows (item_properties_loop api rec depth props).
Proof. unfold item_properties_loop. peel_grows. Qed.

Lemma nested_properties_loop_grows props :
  grows (nested_properties_loop api rec depth props).
Proof.
  unfold nested_properties_loop.
  apply for_each_grows. intros [n s] acc.
  destruct (nonempty _).
  - apply bind_grows; [apply prop_any_of_loop_grows | intros [? ?]; apply ret_grows].
  - apply bind_grows; [apply rec_grows | peel_grows].
Qed.

Ltac peel_grows_loops :=
  repeat first
    [ apply ret_grows
    | apply raise_grows
    | apply lookup_component_grows
    | apply rec_grows
    | apply item_properties_loop_grows
    | apply nested_properties_loop_grows
    | apply prop_any_of_loop_grows
    | apply any_of_loop_grows
    | apply all_of_loop_grows
    | apply bind_grows
    | intro_binder
    | peel_case ].

Lemma process_property_grows name s : grows (process_property api rec depth name s).
Proof. unfold process_property. peel_grows_loops. Qed.

Lemma properties_loop_grows props : grows (properties_loop api rec depth props).
Proof.
  unfold properties_loop. apply for_each_grows. intros [n s] acc.
  apply bind_grows; [apply process_property_grows | intros; apply ret_grows].
Qed.

Lemma build_grows name resolved : grows (build api rec depth name resolved).
Proof.
  unfold build.
  repeat first [ apply properties_loop_grows | progress peel_grows_loops ].
Qed.

End ParametricGrows.

Lemma process_body_grows api max_depth rec schema depth :
  (forall s, grows (rec s (S depth))) ->
  grows (process_body api max_depth rec schema depth).
Proof.
  intros H. unfold process_body.
  destruct (max_depth <=? depth)%nat; [apply ret_grows|].
  apply bind_grows; [apply track_visited_grows|]. intros [|]; [apply ret_grows|].
  apply bind_grows.
  - destruct schema; simpl; [|apply ret_grows].
    apply bind_grows; [apply lookup_component_grows | intros; apply ret_grows].
  - intros [name resolved]. apply build_grows. auto.
Qed.

Lemma process_fuel_grows fuel :
  forall api max_depth schema depth,
    grows (process_fuel fuel api max_depth schema depth).
Proof.
  induction fuel as [|fuel IH]; intros api max_depth schema depth.
  - intros v a v'. discriminate.
  - simpl. apply process_body_grows. intros s. apply IH.
Qed.


Lemma for_each_app {A S : Type} (l1 l2 : list A) (body : A -> S -> M S) (s : S) v :
  for_each (l1 ++ l2) body s v = bind (for_each l1 body s) (for_each l2 body) v.
Proof.
  revert s v. induction l1 as [|x l1 IH]; intros s v; simpl.
  - reflexivity.
  - unfold bind. destruct (body x s v) as [| |s' v']; try reflexivity.
    apply IH.
Qed.

Lemma all_of_loop_keyerror api rec depth pre s post v rs v1 key :
  runs (fun s => rec s (S depth)) pre v rs v1 ->
  rec s (S depth) v1 = KeyError key ->
  all_of_loop api rec depth (pre ++ s :: post) v = KeyError key.
Proof.
  intros Hr Hk. unfold all_of_loop. rewrite for_each_app.
  erewrite bind_done by (apply all_of_loop_from; exact Hr).
  simpl. apply bind_keyerror. by apply bind_keyerror.
Qed.

Lemma any_of_loop_keyerror api rec depth pre s post v rs v1 key :
  runs (fun s => rec s (S depth)) pre v rs v1 ->
  rec s (S depth) v1 = KeyError key ->
  any_of_loop api rec depth (pre ++ s :: post) v = KeyError key.
Proof.
  intros Hr Hk. unfold any_of_loop. rewrite for_each_app.
  erewrite bind_done by (apply any_of_loop_from; exact Hr).
  simpl. apply bind_keyerror. by apply bind_keyerror.
Qed.


(** ** A lookup fails only for a missing component *)

Lemma bind_keyerror_inv {A B : Type} (m : M A) (k : A -> M B) v key :
  bind m k v = KeyError key ->
  m v = KeyError key \/ exists a v1, m v = Done a v1 /\ k a v1 = KeyError key.
Proof.
  unfold bind. destruct (m v) as [ | k0 | a v1 ]; [discriminate | intros [= ->]; left; reflexivity | ].
  intros H. right. exists a, v1. auto.
Qed.

Lemma ret_missing api {A : Type} (a : A) : raises_missing api (ret a).
Proof. intros v key. discriminate. Qed.

Lemma bind_missing api {A B : Type} (m : M A) (k : A -> M B) :
  raises_missing api m -> (forall a, raises_missing api (k a)) ->
  raises_missing api (bind m k).
Proof.
  intros Hm Hk v key H. apply bind_keyerror_inv in H as [H|(a & v1 & _ & H)].
  - eapply Hm. exact H.
  - eapply Hk. exact H.
Qed.

Lemma for_each_missing api {A S : Type} (l : list A) (body : A -> S -> M S) :
  (forall x s, raises_missing api (body x s)) ->
  forall s, raises_missing api (for_each l body s).
Proof.
  intros Hb. induction l as [|x l IH]; intros s; simpl.
  - apply ret_missing.
  - apply bind_missing; auto.
Qed.

Lemma lookup_component_missing api name : raises_missing api (lookup_component api name).
Proof.
  unfold lookup_component. intros v key.
  destruct (components_schemas api !! name) eqn:E; [discriminate|].
  intros [= <-]. exact E.
Qed.

Lemma track_visited_missing api schema : raises_missing api (track_visited schema).
Proof.
  destruct schema as [ref|b]; simpl; [|apply ret_missing].
  intros v key. destruct (decide (ref ∈ v)); discriminate.
Qed.

Section ParametricMissing.

Variable api : OpenAPI.
Variable max_depth : nat.
Variable rec : SchemaNode -> nat -> M (option Schema).
Variable depth : nat.

Hypothesis rec_missing : forall s, raises_missing api (rec s (S depth)).

Ltac peel_missing :=
  repeat first
    [ apply ret_missing
    | apply lookup_component_missing
    | apply rec_missing
    | apply bind_missing
    | apply for_each_missing
    | intro_binder
    | peel_case ].

Lemma all_of_loop_missing subs : raises_missing api (all_of_loop api rec depth subs).
Proof. unfold all_of_loop. peel_missing. Qed.

Lemma any_of_loop_missing subs : raises_missing api (any_of_loop api rec depth subs).
Proof. unfold any_of_loop. peel_missing. Qed.

Lemma prop_any_of_loop_missing subs :
  raises_missing api (prop_any_of_loop api rec depth subs).
Proof. unfold prop_any_of_loop. peel_missing. Qed.

Lemma item_properties_loop_missing props :
  raises_missing api (item_properties_loop api rec depth props).
Proof. unfold item_properties_loop. peel_missing. Qed.

Lemma nested_properties_loop_missing props :
  raises_missing api (nested_properties_loop api rec depth props).
Proof.
  unfold nested_properties_loop.
  apply for_each_missing. intros [n s] acc.
  destruct (nonempty _).
  - apply bind_missing; [apply prop_any_of_loop_missing | intros [? ?]; apply ret_missing].
  - apply bind_missing; [apply rec_missing | peel_missing].
Qed.

Ltac peel_missing_loops :=
  repeat first
    [ apply ret_missing
    | apply lookup_component_missing
    | apply rec_missing
    | apply item_properties_loop_missing
    | apply nested_properties_loop_missing
    | apply prop_any_of_loop_missing
    | apply any_of_loop_missing
    | apply all_of_loop_missing
    | apply bind_missing
    | intro_binder
    | peel_case ].

Lemma process_property_missing name s :
  raises_missing api (process_property api rec depth name s).
Proof. unfold process_property. peel_missing_loops. Qed.

Lemma properties_loop_missing props :
  raises_missing api (properties_loop api rec depth props).
Proof.
  unfold properties_loop. apply for_each_missing. intros [n s] acc.
  apply bind_missing; [apply process_property_missing | intros; apply ret_missing].
Qed.

Lemma build_missing name resolved : raises_missing api (build api rec depth name resolved).
Proof.
  unfold build.
  repeat first [ apply properties_loop_missing | progress peel_missing_loops ].
Qed.

End ParametricMissing.

Lemma process_body_missing api max_depth rec schema depth :
  (forall s, raises_missing api (rec s (S depth))) ->
  raises_missing api (process_body api max_depth rec schema depth).
Proof.
  intros H. unfold process_body.
  destruct (max_depth <=? depth)%nat; [apply ret_missing|].
  apply bind_missing; [apply track_visited_missing|]. intros [|]; [apply ret_missing|].
  apply bind_missing.
  - destruct schema; simpl; [|apply ret_missing].
    apply bind_missing; [apply lookup_component_missing | intros; apply ret_missing].
  - intros [name resolved]. apply build_missing. auto.
Qed.

Lemma process_fuel_missing fuel :
  forall api max_depth schema depth,
    raises_missing api (process_fuel fuel api max_depth schema depth).
Proof.
  induction fuel as [|fuel IH]; intros api max_depth schema depth.
  - intros v key. discriminate.
  - simpl. apply process_body_missing. intros s. apply IH.
Qed.



(** ** Branches run in order, or the first lookup failure ends the loop *)

Lemma runs_or_keyerror (rec : SchemaNode -> M (option Schema)) (subs : list SchemaNode) :
  (forall s, safe (rec s)) ->
  forall v,
    (exists rs v', runs rec subs v rs v')
    \/ (exists pre s post rs v1 key,
           subs = pre ++ s :: post /\ runs rec pre v rs v1 /\ rec s v1 = KeyError key).
Proof.
  intros Hsafe. induction subs as [|s subs IH]; intros v.
  - left. exists [], v. constructor.
  - destruct (rec s v) as [| key | r v1] eqn:E.
    + exfalso. eapply Hsafe. exact E.
    + right. exists [], s, subs, [], v, key. split; [reflexivity|].
      split; [constructor | exact E].
    + destruct (IH v1) as [(rs & v' & Hr) | (pre & s' & post & rs & v2 & key & -> & Hr & Hk)].
      * left. exists (r :: rs), v'. econstructor; eassumption.
      * right. exists (s :: pre), s', post, (r :: rs), v2, key.
        split; [reflexivity|]. split; [econstructor; eassumption | exact Hk].
Qed.

Lemma branch_properties_resolved (r : option Schema) :
  branch_properties r = resolved_properties r.
Proof. by destruct r as [[n [ps|]]|]. Qed.

Lemma union_type_types_or_object (types : list string) :
  union_type types = types_or_object types.
Proof. by destruct types. Qed.

(** The property loop adds one property per declared property to what
    it was given. *)
Lemma properties_loop_from api rec depth props : forall acc v out v',
  for_each props
    (fun '(prop_name, prop_schema) properties =>
       let* prop := process_property api rec depth prop_name prop_schema in
       ret (properties ++ [prop]))
    acc v = Done out v' ->
  exists new, out = acc ++ new /\ length new = length props.
Proof.
  induction props as [|[n s] props IH]; intros acc v out v' H; simpl in H.
  - injection H as <- <-. exists []. by rewrite app_nil_r.
  - apply bind_inv in H as (acc1 & v1 & H1 & H2).
    apply bind_inv in H1 as (p & v2 & Hp & Hr). injection Hr as <- <-.
    apply IH in H2 as (new & -> & Hl). exists (p :: new). split.
    + by rewrite <- app_assoc.
    + simpl. by rewrite Hl.
Qed.

(** ** The [allOf] and [anyOf] branches of the body *)

Lemma process_schema_safe api max_depth s d : 
  safe (fun v => _process_schema s api d max_depth v).
Proof. intros v. apply process_fuel_safe. lia. Qed.

Lemma build_all_of api rec depth name resolved v rs v' :
  nonempty (b_allOf resolved) = true ->
  runs (fun s => rec s (S depth)) (b_allOf resolved) v rs v' ->
  build api rec depth name resolved v =
  Done (if nonempty (concat (map branch_properties rs))
        then Some (mkSchema name
                     (Some [mkSchemaProperty "merged" (TName "object") None
                              (Some (concat (map branch_properties rs)))
                              (b_description resolved) None
                              (Some (concat (zip_with (branch_as_property api)
                                               (b_allOf resolved) rs)))]))
        else None) v'.
Proof.
  intros Hall Hr. unfold build. rewrite Hall.
  erewrite bind_done by (apply all_of_loop_runs; exact Hr).
  cbv beta iota.
  destruct (nonempty (concat (map branch_properties rs))); reflexivity.
Qed.

Lemma build_any_of api rec depth name resolved v rs v' :
  nonempty (b_allOf resolved) = false ->
  nonempty (b_anyOf resolved) = true ->
  runs (fun s => rec s (S depth)) (b_anyOf resolved) v rs v' ->
  build api rec depth name resolved v =
  Done (Some (mkSchema name
                (Some [mkSchemaProperty "any_of"
                         (union_type (declared_types api (b_anyOf resolved)))
                         None None (b_description resolved)
                         (if nonempty (concat (map branch_properties rs))
                          then Some (concat (map branch_properties rs)) else None)
                         None])))
       v'.
Proof.
  intros Hall Hany Hr. unfold build. rewrite Hall, Hany.
  erewrite bind_done by (apply any_of_loop_runs; exact Hr).
  reflexivity.
Qed.

(** ** Cycles *)

(** C1, as stated, fails: the component [Loop: {allOf: [{$ref: Loop}]}]
    refers to itself, and resolving it completes with null instead of a
    [Schema] (the only branch of the [allOf] is the cycle, so no branch
    yields properties). *)
Lemma C1_counterexample :
  attrs loop_api (Reference loop_ref) = loop_body /\
  In (Reference loop_ref) (b_allOf loop_body) /\
  process_schema_default (Reference loop_ref) loop_api = Done None {[ loop_ref ]} /\
  ~ (exists s v, process_schema_default (Reference loop_ref) loop_api = Done (Some s) v).
Proof.
  assert (E : process_schema_default (Reference loop_ref) loop_api
              = Done None {[ loop_ref ]}) by (vm_compute; reflexivity).
  split; [vm_compute; reflexivity|].
  split; [simpl; auto|].
  split; [exact E|].
  intros (s & v & H). rewrite E in H. discriminate.
Qed.

(** C1 (amended): for every document and limit, (1) resolution of any
    node from any state terminates: a stack of [max_depth - depth + 1]
    frames is never exhausted and deeper stacks give the same result,
    which is either a value, with a visited set that contains the
    initial one, or a [KeyError] for a name that is not a component of
    the document; (2) a call on a reference that is in the visited set
    returns null and leaves the set unchanged; (3) a call returns null
    only at the depth limit, on such a reference, or for an [allOf];
    (4) when a component without [allOf] and [anyOf], of type object,
    has a property [p] that refers to the component itself, a call on
    a reference to it, below the depth limit and not yet visited,
    either raises [KeyError] or returns the [Schema] named after the
    component with one entry per declared property, in which the entry
    of [p] is the property [p] of type object without children. *)
Theorem C1_self_reference_terminates (api : OpenAPI) (max_depth : nat) :
  (forall schema depth visited,
      (forall fuel,
          max_depth - depth < fuel ->
          process_fuel fuel api max_depth schema depth visited
          = _process_schema schema api depth max_depth visited)
      /\ ((exists r visited',
              _process_schema schema api depth max_depth visited = Done r visited'
              /\ visited ⊆ visited')
          \/ (exists key,
                 _process_schema schema api depth max_depth visited = KeyError key
                 /\ components_schemas api !! key = None)))
  /\ (forall ref depth visited,
         ref ∈ visited ->
         _process_schema (Reference ref) api depth max_depth visited
         = Done None visited)
  /\ (forall schema depth visited visited',
         _process_schema schema api depth max_depth visited = Done None visited' ->
         max_depth <= depth
         \/ (exists ref, schema = Reference ref /\ ref ∈ visited)
         \/ nonempty (b_allOf (attrs api schema)) = true)
  /\ (forall ref body pre p post depth visited,
         depth < max_depth ->
         ref ∉ visited ->
         components_schemas api !! last_segment ref = Some body ->
         nonempty (b_allOf body) = false ->
         nonempty (b_anyOf body) = false ->
         str_or (b_type body) "object" = "object" ->
         b_properties body = pre ++ (p, Reference ref) :: post ->
         (exists key,
             _process_schema (Reference ref) api depth max_depth visited = KeyError key)
         \/ (exists props visited',
                _process_schema (Reference ref) api depth max_depth visited
                = Done (Some (mkSchema (last_segment ref) (Some props))) visited'
                /\ length props = length (b_properties body)
                /\ props !! length pre
                   = Some (mkSchemaProperty p (TName "object") None None
                             (b_description body) None None))).
Proof.
  split; [|split; [|split]].
  - intros schema depth visited. split.
    + intros fuel Hf. apply process_fuel_enough; lia.
    + destruct (_process_schema schema api depth max_depth visited)
        as [| key | r v'] eqn:E.
      * exfalso. eapply (process_fuel_safe (S (max_depth - depth))); [|exact E]. lia.
      * right. exists key. split; [reflexivity|].
        eapply process_fuel_missing. exact E.
      * left. exists r, v'. split; [reflexivity|].
        eapply process_fuel_grows. exact E.
  - intros; by apply process_schema_seen.
  - intros; eapply process_schema_null_inv; eassumption.
  - intros ref body pre p post depth visited Hd Hnin Hb Hall Hany Hty Hprops.
    erewrite process_schema_enter by (eauto using enters_reference).
    set (rec := fun (s : SchemaNode) (d : nat) (v : gset string) =>
                  _process_schema s api d max_depth v).
    assert (Hgrows : forall s, grows (rec s (S depth))).
    { intros s v a v' Hs. eapply process_fuel_grows. exact Hs. }
    assert (Hsafe : forall s, safe (rec s (S depth))).
    { intros s v. apply process_fuel_safe. lia. }
    assert (Hprop : forall v, ref ∈ v ->
              process_property api rec depth p (Reference ref) v
              = Done (mkSchemaProperty p (TName "object") None None
                        (b_description body) None None) v).
    { intros v Hin. unfold process_property, attrs. rewrite Hb.
      cbn [default from_option id]. rewrite Hty.
      cbn [String.eqb Ascii.eqb Bool.eqb andb].
      erewrite bind_done by (unfold rec; apply process_schema_seen; exact Hin).
      reflexivity. }
    unfold build. rewrite Hall, Hany.
    assert (Hne : nonempty (b_properties body) = true)
      by (rewrite Hprops; by destruct pre).
    rewrite Hne.
    pose proof (properties_loop_safe api rec depth Hsafe (b_properties body)
                  ({[ref]} ∪ visited)) as Hs.
    destruct (properties_loop api rec depth (b_properties body) ({[ref]} ∪ visited))
      as [| key | props v'] eqn:E; [congruence | |].
    + left. exists key. by apply bind_keyerror.
    + right. exists props, v'. erewrite bind_done by exact E.
      split; [reflexivity|].
      unfold properties_loop in E. rewrite Hprops in E |- *.
      rewrite for_each_app in E.
      apply bind_inv in E as (acc1 & v1 & E1 & E2).
      assert (Hin : ref ∈ v1).
      { apply (properties_loop_grows api rec depth Hgrows pre) in E1. set_solver. }
      apply properties_loop_from in E1 as (new1 & -> & Hl1).
      simpl in E2. apply bind_inv in E2 as (acc2 & v2 & E2a & E2b).
      apply bind_inv in E2a as (prop & v3 & Hp & Hr). injection Hr as <- <-.
      rewrite (Hprop v1 Hin) in Hp. injection Hp as <- <-.
      apply properties_loop_from in E2b as (new2 & -> & Hl2).
      simpl. rewrite <- app_assoc. split.
      * rewrite !length_app. simpl. lia.
      * apply list_lookup_middle. by rewrite Hl1.
Qed.

(** The amended C1 at the documents [Node] and [Employee] (and, for the
    null case, at [Loop]): the entry [manager] of [Employee] has no
    children. *)
Lemma C1_witness :
  (process_fuel 40 node_api 10 (Reference node_ref) 0 ∅
   = _process_schema (Reference node_ref) node_api 0 10 ∅)
  /\ _process_schema (Reference node_ref) node_api 1 10 {[ node_ref ]}
     = Done None {[ node_ref ]}
  /\ (10 <= 0
      \/ (exists ref, Reference loop_ref = Reference ref /\ ref ∈ (∅ : gset string))
      \/ nonempty (b_allOf (attrs loop_api (Reference loop_ref))) = true)
  /\ ((exists key,
          _process_schema (Reference employee_ref) employee_api 0 10 ∅ = KeyError key)
      \/ (exists props visited',
             _process_schema (Reference employee_ref) employee_api 0 10 ∅
             = Done (Some (mkSchema (last_segment employee_ref) (Some props))) visited'
             /\ length props = length (b_properties employee_body)
             /\ props !! length [("name", Inline string_body)]
                = Some (mkSchemaProperty "manager" (TName "object") None None
                          (b_description employee_body) None None)))
  /\ process_schema_default (Reference employee_ref) employee_api
     = Done (Some (mkSchema "Employee"
                     (Some [mkSchemaProperty "name" (TName "string") None None
                              None None None;
                            mkSchemaProperty "manager" (TName "object") None None
                              (Some "An employee") None None;
                            mkSchemaProperty "badge" (TName "integer") None None
                              None None None])))
            {[ employee_ref ]}.
Proof.
  split; [|split; [|split; [|split]]].
  - apply (proj1 (proj1 (C1_self_reference_terminates node_api 10)
                    (Reference node_ref) 0 ∅)). simpl. lia.
  - apply (proj1 (proj2 (C1_self_reference_terminates node_api 10))).
    apply elem_of_singleton_2. reflexivity.
  - apply (proj1 (proj2 (proj2 (C1_self_reference_terminates loop_api 10)))
             (Reference loop_ref) 0 ∅ {[ loop_ref ]}).
    vm_compute. reflexivity.
  - apply (proj2 (proj2 (proj2 (C1_self_reference_terminates employee_api 10)))
             employee_ref employee_body [("name", Inline string_body)] "manager"
             [("badge", Inline integer_body)] 0 ∅).
    + lia.
    + apply not_elem_of_empty.
    + vm_compute. reflexivity.
    + reflexivity.
    + reflexivity.
    + reflexivity.
    + reflexivity.
  - vm_compute. reflexivity.
Defined.

(** C2 (the code departs from it): [billing] and [shipping] both refer
    to [Address], which has no cycle.  The first occurrence resolves to
    the address properties; the second, in a sibling branch of the same
    call, resolves to null because the visited set is shared and never
    shrinks. *)
Theorem C2_sibling_reference_dropped :
  process_schema_default order_schema address_api =
  Done (Some (mkSchema "inline"
                (Some [mkSchemaProperty "billing" (TName "object") None
                         (Some [mkSchemaProperty "street" (TName "string") None None
                                  None None None])
                         None None None;
                       mkSchemaProperty "shipping" (TName "object") None
                         None None None None])))
       {[ address_ref ]}.
Proof. vm_compute. reflexivity. Qed.

(** ** The depth guard *)

(** C3, as stated, fails: with the default limit 10, a node reached at
    depth 10 resolves to null.  Under ten array levels the leaf no
    longer influences the result, under nine it still does.  Nor is the
    cut confined to its branch: under ten [allOf] levels the whole
    schema resolves to null, under nine it does not. *)
Lemma C3_counterexample :
  _process_schema id_leaf empty_api 10 10 ∅ = Done None ∅
  /\ ~ (exists s v, _process_schema id_leaf empty_api 10 10 ∅ = Done (Some s) v)
  /\ process_schema_default (nest_arrays 10 id_leaf) empty_api
     = process_schema_default (nest_arrays 10 name_leaf) empty_api
  /\ process_schema_default (nest_arrays 9 id_leaf) empty_api
     <> process_schema_default (nest_arrays 9 name_leaf) empty_api
  /\ process_schema_default (nest_all_of 10 id_leaf) empty_api = Done None ∅
  /\ process_schema_default (nest_all_of 9 id_leaf) empty_api <> Done None ∅.
Proof.
  split; [vm_compute; reflexivity|].
  split; [intros (s & v & H); vm_compute in H; discriminate|].
  split; [vm_compute; reflexivity|].
  split; [vm_compute; discriminate|].
  split; [vm_compute; reflexivity|].
  vm_compute. discriminate.
Qed.

(** At the depth limit every branch of a loop is cut: each call returns
    null and leaves the visited set as it was. *)
Lemma runs_cut api max_depth depth (subs : list SchemaNode) v :
  max_depth <= depth ->
  runs (fun s v => _process_schema s api depth max_depth v) subs v
    (const None <$> subs) v.
Proof.
  intros Hd. induction subs as [|s subs IH]; csimpl; [constructor|].
  econstructor; [|exact IH]. by apply process_schema_depth_guard.
Qed.

Lemma cut_branches_give_nothing (subs : list SchemaNode) :
  concat (map branch_properties (const None <$> subs)) = [].
Proof. induction subs as [|s subs IH]; csimpl; [reflexivity | exact IH]. Qed.

(** C3 (amended): a call at [depth >= max_depth] returns null and leaves
    the visited set unchanged; a call at [depth < max_depth] is not cut
    by the guard (it returns null only for a reference in the visited
    set or from an [allOf]).  What the cut does to the enclosing call,
    at [depth = max_depth - 1], depends on the construct: an [allOf]
    returns null itself, an [anyOf] returns its union [Schema] with the
    declared types and a null [any_of] field, and an array returns a
    [Schema] with an empty property list. *)
Theorem C3_depth_guard (api : OpenAPI) (schema : SchemaNode) (depth max_depth : nat)
  (visited : gset string) :
  (max_depth <= depth ->
   _process_schema schema api depth max_depth visited = Done None visited)
  /\ (depth < max_depth ->
      forall visited',
        _process_schema schema api depth max_depth visited = Done None visited' ->
        (exists ref, schema = Reference ref /\ ref ∈ visited)
        \/ nonempty (b_allOf (attrs api schema)) = true)
  /\ (S depth = max_depth ->
      forall name resolved v0,
        enters api schema visited name resolved v0 ->
        (nonempty (b_allOf resolved) = true ->
         _process_schema schema api depth max_depth visited = Done None v0)
        /\ (nonempty (b_allOf resolved) = false ->
            nonempty (b_anyOf resolved) = true ->
            _process_schema schema api depth max_depth visited
            = Done (Some (mkSchema name
                            (Some [mkSchemaProperty "any_of"
                                     (types_or_object
                                        (declared_types api (b_anyOf resolved)))
                                     None None (b_description resolved) None None])))
                   v0)
        /\ (nonempty (b_allOf resolved) = false ->
            nonempty (b_anyOf resolved) = false ->
            nonempty (b_properties resolved) = false ->
            b_type resolved = Some "array" ->
            _process_schema schema api depth max_depth visited
            = Done (Some (mkSchema name (Some []))) v0)).
Proof.
  split; [|split].
  - apply process_schema_depth_guard.
  - intros Hd v' H. apply process_schema_null_inv in H.
    destruct H as [H|H]; [lia | exact H].
  - intros Hd name resolved v0 He.
    assert (Hlt : depth < max_depth) by lia.
    rewrite (process_schema_enter _ _ _ _ _ _ _ _ Hlt He).
    split; [|split].
    + intros Hall.
      erewrite build_all_of by (first [exact Hall | apply runs_cut; lia]).
      by rewrite cut_branches_give_nothing.
    + intros Hall Hany.
      erewrite build_any_of by (first [exact Hall | exact Hany | apply runs_cut; lia]).
      by rewrite cut_branches_give_nothing, union_type_types_or_object.
    + intros Hall Hany Hprops Hty. unfold build. rewrite Hall, Hany, Hprops.
      destruct (decide (b_type resolved = Some "array")) as [_|Hne]; [|congruence].
      destruct (b_items resolved) as [items|]; [|reflexivity].
      erewrite bind_done by (apply process_schema_depth_guard; lia).
      reflexivity.
Qed.

(** The amended C3 at the default limit 10: a leaf at depth 10, and an
    [allOf], an [anyOf] and an array at depth 9. *)
Lemma C3_witness :
  _process_schema id_leaf empty_api 10 10 ∅ = Done None ∅
  /\ ((exists ref, Reference loop_ref = Reference ref /\ ref ∈ (∅ : gset string))
      \/ nonempty (b_allOf (attrs loop_api (Reference loop_ref))) = true)
  /\ _process_schema (nest_all_of 1 id_leaf) empty_api 9 10 ∅ = Done None ∅
  /\ _process_schema (Inline string_or_integer) empty_api 9 10 ∅
     = Done (Some (mkSchema "inline"
                     (Some [mkSchemaProperty "any_of" (TUnion ["string"; "integer"])
                              None None (Some "Text or number") None None])))
            ∅
  /\ _process_schema (nest_arrays 1 id_leaf) empty_api 9 10 ∅
     = Done (Some (mkSchema "inline" (Some []))) ∅.
Proof.
  split; [|split; [|split; [|split]]].
  - apply (proj1 (C3_depth_guard empty_api id_leaf 10 10 ∅)). lia.
  - apply (proj1 (proj2 (C3_depth_guard loop_api (Reference loop_ref) 0 10 ∅))
             ltac:(lia) {[ loop_ref ]}).
    vm_compute. reflexivity.
  - apply (proj1 (proj2 (proj2 (C3_depth_guard empty_api (nest_all_of 1 id_leaf)
                                  9 10 ∅))
                    eq_refl "inline" _ ∅ (enters_inline _ _ _))).
    reflexivity.
  - apply (proj1 (proj2 (proj2 (proj2 (C3_depth_guard empty_api
                                         (Inline string_or_integer) 9 10 ∅))
                           eq_refl "inline" _ ∅ (enters_inline _ _ _))));
      reflexivity.
  - apply (proj2 (proj2 (proj2 (proj2 (C3_depth_guard empty_api
                                         (nest_arrays 1 id_leaf) 9 10 ∅))
                           eq_refl "inline" _ ∅ (enters_inline _ _ _))));
      reflexivity.
Defined.

(** ** Composition *)

(** When both branches of an [allOf] resolve, to schemas with the
    property lists [P1] and [P2], not both empty, the result is one
    property ["merged"] whose children are [P1 ++ P2] and whose
    [all_of] keeps both branches; an [allOf] (of any length) none of
    whose branches yields properties resolves to null. *)
Lemma all_of_of_resolved_branches (api : OpenAPI) (schema : SchemaNode)
  (depth max_depth : nat) (visited : gset string) (name : string)
  (resolved : SchemaBody) (v0 : gset string) :
  depth < max_depth ->
  enters api schema visited name resolved v0 ->
  (forall s1 s2 r1 r2 P1 P2 v1 v2,
      b_allOf resolved = [s1; s2] ->
      _process_schema s1 api (S depth) max_depth v0 = Done (Some r1) v1 ->
      _process_schema s2 api (S depth) max_depth v1 = Done (Some r2) v2 ->
      schema_properties r1 = Some P1 ->
      schema_properties r2 = Some P2 ->
      P1 ++ P2 <> [] ->
      _process_schema schema api depth max_depth visited
      = Done (Some (mkSchema name
                      (Some [mkSchemaProperty "merged" (TName "object") None
                               (Some (P1 ++ P2)) (b_description resolved) None
                               (Some [mkSchemaProperty (schema_name r1) (TName "object")
                                        None (Some P1) (b_description (attrs api s1))
                                        None None;
                                      mkSchemaProperty (schema_name r2) (TName "object")
                                        None (Some P2) (b_description (attrs api s2))
                                        None None])])))
             v2
      /\ (forall q, q ∈ P1 ++ P2 <-> q ∈ P1 \/ q ∈ P2)
      /\ (NoDup (sp_name <$> P1) -> NoDup (sp_name <$> P2) ->
          (forall n, n ∈ sp_name <$> P1 -> n ∉ sp_name <$> P2) ->
          NoDup (sp_name <$> (P1 ++ P2))))
  /\ (forall rs v',
         b_allOf resolved <> [] ->
         runs (fun s v => _process_schema s api (S depth) max_depth v)
           (b_allOf resolved) v0 rs v' ->
         Forall (fun r => branch_properties r = []) rs ->
         _process_schema schema api depth max_depth visited = Done None v').
Proof.
  intros Hd He. split.
  - intros s1 s2 r1 r2 P1 P2 v1 v2 Hall H1 H2 HP1 HP2 Hne.
    split; [|split].
    + erewrite process_schema_enter by eassumption.
      erewrite build_all_of with (rs := [Some r1; Some r2]) (v' := v2).
      * rewrite Hall. cbn [map concat zip_with branch_properties branch_as_property].
        rewrite HP1, HP2. cbn [props_or_nil default from_option id].
        rewrite !app_nil_r.
        destruct (P1 ++ P2) eqn:E; [congruence|]. reflexivity.
      * by rewrite Hall.
      * rewrite Hall. eapply runs_cons; [exact H1|].
        eapply runs_cons; [exact H2|]. constructor.
    + intros q. apply elem_of_app.
    + intros N1 N2 Hdis. rewrite fmap_app. apply NoDup_app. auto.
  - intros rs v' Hne Hr Hall.
    erewrite process_schema_enter by eassumption.
    erewrite build_all_of by (first [eassumption | by destruct (b_allOf resolved)]).
    assert (Hc : concat (map branch_properties rs) = []).
    { clear Hr. induction Hall as [|r rs Hr' _ IH]; simpl; [reflexivity|].
      by rewrite Hr', IH. }
    rewrite Hc. reflexivity.
Qed.

(** C4 (the code departs from it): [Customer] and [Contact] are two
    object schemas with the disjoint property sets [contact] and
    [email], and each of them resolves on its own.  In their [allOf]
    the children of ["merged"] are the properties of [Customer] alone,
    and [all_of] retains [Customer] alone: the branch [Contact]
    resolves to null, because [Contact] entered the visited set while
    [Customer] was resolved, although there is no cycle. *)
Theorem C4_resolved_branch_dropped :
  process_schema_default (Reference customer_ref) customer_api
  = Done (Some (mkSchema "Customer"
                  (Some [mkSchemaProperty "contact" (TName "object") None
                           (Some [mkSchemaProperty "email" (TName "string") None None
                                    None None None])
                           None None None])))
         {[ customer_ref; contact_ref ]}
  /\ process_schema_default (Reference contact_ref) customer_api
     = Done (Some (mkSchema "Contact"
                     (Some [mkSchemaProperty "email" (TName "string") None None
                              None None None])))
            {[ contact_ref ]}
  /\ _process_schema (Reference contact_ref) customer_api 1 10
       {[ customer_ref; contact_ref ]}
     = Done None {[ customer_ref; contact_ref ]}
  /\ process_schema_default customer_and_contact customer_api
     = Done (Some (mkSchema "inline"
                     (Some [mkSchemaProperty "merged" (TName "object") None
                              (Some [mkSchemaProperty "contact" (TName "object") None
                                       (Some [mkSchemaProperty "email" (TName "string")
                                                None None None None None])
                                       None None None])
                              (Some "Customer with contact") None
                              (Some [mkSchemaProperty "Customer" (TName "object") None
                                       (Some [mkSchemaProperty "contact"
                                                (TName "object") None
                                                (Some [mkSchemaProperty "email"
                                                         (TName "string") None None
                                                         None None None])
                                                None None None])
                                       None None None])])))
            {[ customer_ref; contact_ref ]}.
Proof. repeat split; vm_compute; reflexivity. Qed.

(** C5, as stated, fails: a schema with [anyOf] does not always resolve
    to a [Schema].  When it also has [allOf], the [allOf] branch is
    taken (here it yields no properties, so the result is null); at the
    depth limit it resolves to null; and a branch on an undefined
    component raises [KeyError] instead of being skipped. *)
Lemma C5_counterexample :
  nonempty (b_anyOf (attrs empty_api all_and_any)) = true
  /\ process_schema_default all_and_any empty_api = Done None ∅
  /\ ~ (exists s v, process_schema_default all_and_any empty_api = Done (Some s) v)
  /\ nonempty (b_anyOf (attrs pet_api pet_or_string)) = true
  /\ _process_schema pet_or_string pet_api 10 10 ∅ = Done None ∅
  /\ nonempty (b_anyOf (attrs pet_api pet_or_ghost)) = true
  /\ process_schema_default pet_or_ghost pet_api = KeyError "Ghost".
Proof.
  split; [reflexivity|].
  split; [vm_compute; reflexivity|].
  split; [intros (s & v & H); vm_compute in H; discriminate|].
  split; [reflexivity|].
  split; [vm_compute; reflexivity|].
  split; [reflexivity|].
  vm_compute. reflexivity.
Qed.

(** C5 (amended): a call below the depth limit, on an inline schema or
    on a reference not yet visited whose component exists, for a schema
    with [anyOf] and without [allOf], either raises [KeyError] for a
    name that is not a component of the document, or returns the
    [Schema] with the single property ["any_of"]: its type is the list
    of the types the branches declare, or ["object"] when none
    declares one, and its [any_of] field is the concatenation, in
    order, of the property lists of the branches, each resolved one
    level deeper from the visited set the previous one left (a branch
    that resolves to null brings nothing), or null when that
    concatenation is empty. *)
Theorem C5_any_of_union (api : OpenAPI) (schema : SchemaNode) (depth max_depth : nat)
  (visited : gset string) (name : string) (resolved : SchemaBody) (v0 : gset string) :
  depth < max_depth ->
  enters api schema visited name resolved v0 ->
  nonempty (b_allOf resolved) = false ->
  nonempty (b_anyOf resolved) = true ->
  (exists key,
      _process_schema schema api depth max_depth visited = KeyError key
      /\ components_schemas api !! key = None)
  \/ (exists rs v',
         runs (fun s v => _process_schema s api (S depth) max_depth v)
           (b_anyOf resolved) v0 rs v'
         /\ _process_schema schema api depth max_depth visited
            = Done (Some (mkSchema name
                            (Some [mkSchemaProperty "any_of"
                                     (types_or_object
                                        (declared_types api (b_anyOf resolved)))
                                     None None (b_description resolved)
                                     (match concat (map resolved_properties rs) with
                                      | [] => None
                                      | p :: ps => Some (p :: ps)
                                      end)
                                     None])))
                   v').
Proof.
  intros Hd He Hall Hany.
  erewrite process_schema_enter by eassumption.
  set (rec := fun (s : SchemaNode) (d : nat) (v : gset string) =>
                _process_schema s api d max_depth v).
  assert (Hsafe : forall s, safe (rec s (S depth))).
  { intros s v. apply process_fuel_safe. lia. }
  destruct (runs_or_keyerror (fun s => rec s (S depth)) (b_anyOf resolved) Hsafe v0)
    as [(rs & v' & Hr) | (pre & s & post & rs & v1 & key & Hs & Hr & Hk)].
  - right. exists rs, v'. split; [exact Hr|].
    erewrite build_any_of by eassumption.
    rewrite union_type_types_or_object.
    replace (map branch_properties rs) with (map resolved_properties rs)
      by (apply map_ext; intros r; by rewrite branch_properties_resolved).
    by destruct (concat (map resolved_properties rs)).
  - left. exists key. split.
    + unfold build. rewrite Hall, Hany, Hs. apply bind_keyerror.
      eapply any_of_loop_keyerror; eassumption.
    + eapply process_fuel_missing. exact Hk.
Qed.

(** The amended C5 at an [anyOf] of [Pet] and a string, and at an
    [anyOf] whose second branch is [Pet] again and resolves to null. *)
Lemma C5_witness :
  process_schema_default pet_or_string pet_api
  = Done (Some (mkSchema "inline"
                  (Some [mkSchemaProperty "any_of" (TUnion ["object"; "string"])
                           None None (Some "A pet or its name")
                           (Some [mkSchemaProperty "name" (TName "string") None None
                                    None None None])
                           None])))
         {[ pet_ref ]}
  /\ process_schema_default pet_or_pet pet_api
     = Done (Some (mkSchema "inline"
                     (Some [mkSchemaProperty "any_of" (TUnion ["object"; "object"])
                              None None (Some "A pet, twice")
                              (Some [mkSchemaProperty "name" (TName "string") None None
                                       None None None])
                              None])))
            {[ pet_ref ]}.
Proof.
  split.
  - destruct (C5_any_of_union pet_api pet_or_string 0 10 ∅ "inline" _ ∅
                ltac:(lia) (enters_inline _ _ _) eq_refl eq_refl)
      as [(key & H & _) | (rs & v' & Hr & H)].
    + vm_compute in H. discriminate.
    + unfold process_schema_default. rewrite H. cbn [b_anyOf] in Hr.
      inversion Hr as [|s1 ss1 w1 r1 w2 rs1 w3 H1 Hr1]; subst.
      inversion Hr1 as [|s2 ss2 w4 r2 w5 rs2 w6 H2 Hr2]; subst.
      inversion Hr2; subst.
      vm_compute in H1. injection H1 as <- <-.
      vm_compute in H2. injection H2 as <- <-.
      vm_compute. reflexivity.
  - destruct (C5_any_of_union pet_api pet_or_pet 0 10 ∅ "inline" _ ∅
                ltac:(lia) (enters_inline _ _ _) eq_refl eq_refl)
      as [(key & H & _) | (rs & v' & Hr & H)].
    + vm_compute in H. discriminate.
    + unfold process_schema_default. rewrite H. cbn [b_anyOf] in Hr.
      inversion Hr as [|s1 ss1 w1 r1 w2 rs1 w3 H1 Hr1]; subst.
      inversion Hr1 as [|s2 ss2 w4 r2 w5 rs2 w6 H2 Hr2]; subst.
      inversion Hr2; subst.
      vm_compute in H1. injection H1 as <- <-.
      vm_compute in H2. injection H2 as <- <-.
      vm_compute. reflexivity.
Defined.

(** ** Nested objects *)

Section NestedLoop.

Variable api : OpenAPI.
Variable rec : SchemaNode -> nat -> M (option Schema).
Variable depth : nat.

Lemma nested_properties_loop_from props : forall acc v rs v',
  Forall (fun c : string * SchemaNode =>
            nonempty (b_anyOf (attrs api c.2)) = false) props ->
  runs (fun s => rec s (S depth)) props.*2 v rs v' ->
  for_each props
    (fun '(nested_name, nested_schema) nested_properties =>
       if nonempty (b_anyOf (attrs api nested_schema)) then
         let* (types, any_of_schemas) :=
           prop_any_of_loop api rec depth (b_anyOf (attrs api nested_schema)) in
         ret (nested_properties ++
                [mkSchemaProperty nested_name (union_type types) None None
                   (b_description (attrs api nested_schema))
                   (Some any_of_schemas) None])
       else
         let* nested_result := rec nested_schema (S depth) in
         match nested_result with
         | Some r =>
             match schema_properties r with
             | Some (nested_prop :: _) =>
                 ret (nested_properties ++ [set_name nested_name nested_prop])
             | _ => ret nested_properties
             end
         | None => ret nested_properties
         end)
    acc v =
  Done (acc ++ concat (zip_with first_property_renamed props.*1 rs)) v'.
Proof.
  induction props as [|[n s] props IH]; intros acc v rs v' Hf Hr;
    inversion Hr; subst; simpl.
  - unfold ret. by rewrite app_nil_r.
  - inversion Hf as [|? ? Hs Hf']; subst. simpl in Hs. rewrite Hs.
    destruct r as [[rn [[|p ps]|]]|]; simpl;
      (erewrite bind_done by (erewrite bind_done by eassumption; reflexivity));
      erewrite IH by eassumption; simpl; try reflexivity.
    by rewrite <- app_assoc.
Qed.

End NestedLoop.

Section NestedChildren.

Variable api : OpenAPI.
Variable rec : SchemaNode -> nat -> M (option Schema).
Variable depth : nat.

(** A completed loop over the children gave what [children_give]
    describes. *)
Lemma nested_properties_loop_gives props : forall acc v out v',
  for_each props
    (fun '(nested_name, nested_schema) nested_properties =>
       if nonempty (b_anyOf (attrs api nested_schema)) then
         let* (types, any_of_schemas) :=
           prop_any_of_loop api rec depth (b_anyOf (attrs api nested_schema)) in
         ret (nested_properties ++
                [mkSchemaProperty nested_name (union_type types) None None
                   (b_description (attrs api nested_schema))
                   (Some any_of_schemas) None])
       else
         let* nested_result := rec nested_schema (S depth) in
         match nested_result with
         | Some r =>
             match schema_properties r with
             | Some (nested_prop :: _) =>
                 ret (nested_properties ++ [set_name nested_name nested_prop])
             | _ => ret nested_properties
             end
         | None => ret nested_properties
         end)
    acc v = Done out v' ->
  exists given, children_give api rec depth props v given v' /\ out = acc ++ given.
Proof.
  induction props as [|[n s] props IH]; intros acc v out v' H; simpl in H.
  - injection H as <- <-. exists []. split; [constructor | by rewrite app_nil_r].
  - destruct (nonempty (b_anyOf (attrs api s))) eqn:Ea.
    + apply bind_inv in H as (acc1 & v1 & H1 & H2).
      apply bind_inv in H1 as ([types schemas] & v2 & Hl & Hr). injection Hr as <- <-.
      apply IH in H2 as (given & Hg & ->). eexists. split.
      * eapply give_union; eassumption.
      * by rewrite <- app_assoc, union_type_types_or_object.
    + apply bind_inv in H as (acc1 & v1 & H1 & H2).
      apply bind_inv in H1 as (r & v2 & Hrec & Hr).
      destruct r as [[rn [[|first others]|]]|]; injection Hr as <- <-;
        apply IH in H2 as (given & Hg & ->).
      * exists given. split; [|reflexivity].
        eapply give_nothing; [exact Ea | exact Hrec | reflexivity | exact Hg].
      * eexists. split; [eapply give_first; eassumption|]. by rewrite <- app_assoc.
      * exists given. split; [|reflexivity].
        eapply give_nothing; [exact Ea | exact Hrec | reflexivity | exact Hg].
      * exists given. split; [|reflexivity].
        eapply give_nothing; [exact Ea | exact Hrec | reflexivity | exact Hg].
Qed.

(** ... and what [children_give] describes is what the loop gives. *)
Lemma children_give_loop props v given v' :
  children_give api rec depth props v given v' ->
  forall acc,
    for_each props
      (fun '(nested_name, nested_schema) nested_properties =>
         if nonempty (b_anyOf (attrs api nested_schema)) then
           let* (types, any_of_schemas) :=
             prop_any_of_loop api rec depth (b_anyOf (attrs api nested_schema)) in
           ret (nested_properties ++
                  [mkSchemaProperty nested_name (union_type types) None None
                     (b_description (attrs api nested_schema))
                     (Some any_of_schemas) None])
         else
           let* nested_result := rec nested_schema (S depth) in
           match nested_result with
           | Some r =>
               match schema_properties r with
               | Some (nested_prop :: _) =>
                   ret (nested_properties ++ [set_name nested_name nested_prop])
               | _ => ret nested_properties
               end
           | None => ret nested_properties
           end)
      acc v = Done (acc ++ given) v'.
Proof.
  induction 1 as [v | n s rest v sn first others v1 given v2 Ha Hrec _ IH
                  | n s rest v r v1 given v2 Ha Hrec Hnone _ IH
                  | n s rest v types schemas v1 given v2 Ha Hl _ IH];
    intros acc; simpl.
  - unfold ret. by rewrite app_nil_r.
  - rewrite Ha.
    erewrite bind_done by (erewrite bind_done by exact Hrec; reflexivity).
    rewrite IH. by rewrite <- app_assoc.
  - rewrite Ha.
    erewrite bind_done
      by (erewrite bind_done by exact Hrec;
          destruct r as [[rn [[|first others]|]]|]; first [discriminate | reflexivity]).
    apply IH.
  - rewrite Ha.
    erewrite bind_done by (erewrite bind_done by exact Hl; reflexivity).
    rewrite IH. by rewrite <- app_assoc, union_type_types_or_object.
Qed.

End NestedChildren.

(** C10: for an object-typed inline property with no [anyOf], no
    [allOf] and no [additionalProperties], whatever its children are,
    the call of the property loop completes with a property exactly
    when its children give a list as [children_give] describes, and the
    property then has that list as its children: child by child and in
    order, a child without [anyOf] whose resolved [Schema] has
    properties gives the first of them under the child's name (the
    others are dropped), a child without [anyOf] that resolves to null
    or to a [Schema] without properties gives nothing, and a child
    with [anyOf] gives its union property. *)
Theorem C10_nested_first_property (api : OpenAPI) (depth max_depth : nat)
  (prop_name : string) (pb : SchemaBody) (visited : gset string) :
  str_or (b_type pb) "object" = "object" ->
  nonempty (b_anyOf pb) = false ->
  nonempty (b_allOf pb) = false ->
  additional_truthy (b_additionalProperties pb) = false ->
  forall prop visited',
    process_property api (fun s d v => _process_schema s api d max_depth v) depth
      prop_name (Inline pb) visited
    = Done prop visited'
    <-> exists children,
          children_give api (fun s d v => _process_schema s api d max_depth v) depth
            (b_properties pb) visited children visited'
          /\ prop = mkSchemaProperty prop_name (TName "object") None (Some children)
                      (b_description pb) None None.
Proof.
  intros Hty Hany Hall Hadd prop visited'.
  unfold process_property. cbn [attrs]. rewrite Hty.
  cbn [String.eqb Ascii.eqb Bool.eqb andb]. rewrite Hany, Hall, Hadd.
  unfold nested_properties_loop. split.
  - intros H. apply bind_inv in H as (nested & v1 & Hl & Hr). injection Hr as <- <-.
    apply nested_properties_loop_gives in Hl as (given & Hg & ->).
    exists given. split; [exact Hg | reflexivity].
  - intros (children & Hg & ->).
    erewrite bind_done by (apply children_give_loop; exact Hg).
    reflexivity.
Qed.

(** C10 at the property [person]: [home] gives its first property
    [street] under the name [home] ([city] is dropped), the scalar
    [age] gives nothing, and [contact], an [anyOf], gives its union
    property. *)
Lemma C10_witness :
  process_property empty_api (fun s d v => _process_schema s empty_api d 10 v) 0
    "person" (Inline person_body) ∅
  = Done (mkSchemaProperty "person" (TName "object") None
            (Some [mkSchemaProperty "home" (TName "string") None None None None None;
                   mkSchemaProperty "contact" (TUnion ["string"; "integer"]) None None
                     (Some "Text or number")
                     (Some [mkSchemaProperty "inline" (TName "string") None (Some [])
                              None None None;
                            mkSchemaProperty "inline" (TName "integer") None (Some [])
                              None None None])
                     None])
            (Some "Person") None None)
         ∅.
Proof.
  apply (proj2 (C10_nested_first_property empty_api 0 10 "person" person_body ∅
                  eq_refl eq_refl eq_refl eq_refl _ _)).
  eexists. split.
  - eapply give_first; [reflexivity | vm_compute; reflexivity |].
    eapply give_nothing; [reflexivity | vm_compute; reflexivity | reflexivity |].
    eapply give_union; [reflexivity | vm_compute; reflexivity |].
    apply give_nil.
  - reflexivity.
Defined.

(** ** Operation parameters *)

(** C9 (the code departs from it): the schema of [tags[]] declares the
    default [[]]; the processed [Parameter] has no default, because the
    test [if param.schema_.default:] is false for an empty list. *)
Theorem C9_empty_list_default_dropped :
  exists sch p,
    ap_schema tags_parameter = Some sch
    /\ ps_default sch = Some (VList [])
    /\ process_parameter tags_parameter = inr p
    /\ p_default p = None
    /\ p_default p <> Some (VList []).
Proof. do 2 eexists. repeat split; discriminate. Qed.

(** Every parameter whose schema declares the default [[]] loses it. *)
Lemma process_parameter_empty_list_default (param : ApiParameter)
  (sch : ParameterSchema) :
  ap_schema param = Some sch ->
  ps_default sch = Some (VList []) ->
  exists p, process_parameter param = inr p /\ p_default p = None.
Proof.
  intros Hs H. unfold process_parameter. rewrite Hs. eexists. split; [reflexivity|].
  cbn. rewrite H. reflexivity.
Qed.

(** ** Strings *)




Lemma append_inj_r (p a b : string) : p +:+ a = p +:+ b -> a = b.
Proof. induction p as [|c p IH]; simpl; [auto | intros [= H]; auto]. Qed.

Lemma prefix_append (p s : string) : String.prefix p (p +:+ s) = true.
Proof.
  induction p as [|c p IH]; simpl.
  - by destruct s.
  - destruct (ascii_dec c c); [exact IH | congruence].
Qed.

(** ** Enum parameters *)



(** ** Flattened names *)

(** C6, as stated, fails: the query parameters [array_param[]] and
    [array_params] of one operation both flatten to [array_params]. *)
Lemma C6_counterexample :
  NoDup (p_name <$> op_parameters colliding_operation)
  /\ tp_name <$> from_operation_parameters option_text no_nested colliding_operation
     = ["array_params"; "array_params"]
  /\ ~ NoDup (tp_name <$>
              from_operation_parameters option_text no_nested colliding_operation).
Proof.
  split; [|split].
  - apply NoDup_cons. split; [|apply NoDup_singleton].
    intros H. apply list_elem_of_singleton in H. discriminate.
  - reflexivity.
  - intros H. apply NoDup_cons in H as [H _]. apply H. left.
Qed.

Lemma flatten_param_name_id (name : string) :
  ends_with name ARRAY_MARKER = false -> flatten_param_name name = name.
Proof. intros H. unfold flatten_param_name. by rewrite H. Qed.

Lemma tool_names_of_parameters py_str (params : list ParameterModel) :
  tp_name <$> map (parameter_to_tool py_str) params
  = flatten_param_name <$> (p_name <$> params).
Proof. induction params as [|p ps IH]; csimpl; [reflexivity | by rewrite IH]. Qed.

Lemma tool_names_of_leaves nested prefix (props : list SchemaProperty) :
  Forall (fun p => sp_any_of p = None -> nonempty (props_or_nil (sp_properties p)) = false)
    props ->
  tp_name <$> flat_map (body_property_to_tools nested prefix) props
  = (fun n => prefix +:+ n) <$> (sp_name <$> props).
Proof.
  induction 1 as [|p ps Hp _ IH]; csimpl; [reflexivity|].
  rewrite fmap_app, IH.
  change ((prefix +:+ sp_name p) :: ((fun n => prefix +:+ n) <$> (sp_name <$> ps)))
    with ([prefix +:+ sp_name p] ++ ((fun n => prefix +:+ n) <$> (sp_name <$> ps))).
  f_equal.
  unfold body_property_to_tools.
  destruct (sp_any_of p); [reflexivity|].
  specialize (Hp eq_refl). destruct (sp_properties p) as [[|c cs]|]; simpl in *;
    first [reflexivity | discriminate].
Qed.

(** C6 (amended): the names of a descriptor are pairwise distinct
    exactly when the normalised query and path names are, the body
    parameter names are, and no normalised query or path name is also a
    body parameter name.  In particular they are distinct when the
    operation's parameter names are pairwise distinct, none ends with
    the array marker or starts with the JSON marker, and the body is a
    JSON body whose top-level properties are leaves (scalar or [anyOf])
    with pairwise distinct names. *)
Theorem C6_unique_names (py_str : Value -> string)
  (nested : string -> SchemaProperty -> list ToolParameter) (operation : Operation) :
  (NoDup (tp_name <$> from_operation_parameters py_str nested operation)
   <-> NoDup (flatten_param_name <$> (p_name <$> op_parameters operation))
       /\ (forall n, n ∈ flatten_param_name <$> (p_name <$> op_parameters operation) ->
                     n ∉ tp_name <$> body_to_tools nested
                                       (op_request_body operation))
       /\ NoDup (tp_name <$> body_to_tools nested (op_request_body operation)))
  /\ (forall rb sch props,
         op_request_body operation = Some rb ->
         "application/x-www-form-urlencoded" ∉ rb_content rb ->
         rb_schema rb = Some sch ->
         schema_properties sch = Some props ->
         Forall (fun p => sp_any_of p = None ->
                          nonempty (props_or_nil (sp_properties p)) = false) props ->
         NoDup (sp_name <$> props) ->
         NoDup (p_name <$> op_parameters operation) ->
         Forall (fun p => ends_with (p_name p) ARRAY_MARKER = false
                          /\ String.prefix JSON_PREFIX (p_name p) = false)
           (op_parameters operation) ->
         NoDup (tp_name <$> from_operation_parameters py_str nested operation)).
Proof.
  assert (Hchar :
    NoDup (tp_name <$> from_operation_parameters py_str nested operation)
    <-> NoDup (flatten_param_name <$> (p_name <$> op_parameters operation))
        /\ (forall n, n ∈ flatten_param_name <$> (p_name <$> op_parameters operation) ->
                      n ∉ tp_name <$> body_to_tools nested
                                        (op_request_body operation))
        /\ NoDup (tp_name <$> body_to_tools nested (op_request_body operation))).
  { unfold from_operation_parameters.
    rewrite fmap_app, tool_names_of_parameters. apply NoDup_app. }
  split; [exact Hchar|].
  intros rb sch props Hrb Hjson Hsch Hprops Hleaves Hfields Hnames Hplain.
  apply Hchar.
  assert (Hq : flatten_param_name <$> (p_name <$> op_parameters operation)
               = p_name <$> op_parameters operation).
  { clear -Hplain. induction Hplain as [|p ps [Hp _] _ IH]; csimpl; [reflexivity|].
    by rewrite IH, flatten_param_name_id. }
  assert (Hb : tp_name <$> body_to_tools nested (op_request_body operation)
               = (fun n => JSON_PREFIX +:+ n) <$> (sp_name <$> props)).
  { unfold body_to_tools. rewrite Hrb, Hsch, Hprops. cbn [props_or_nil default from_option id].
    unfold body_prefix. rewrite bool_decide_eq_false_2 by exact Hjson.
    by apply tool_names_of_leaves. }
  rewrite Hq, Hb. split; [exact Hnames|split].
  - intros n Hn Hin.
    apply list_elem_of_fmap in Hin as (f & -> & _).
    apply list_elem_of_fmap in Hn as (p & Hp & Hpin).
    rewrite Forall_forall in Hplain. destruct (Hplain p Hpin) as [_ Hpre].
    rewrite <- Hp, prefix_append in Hpre. discriminate.
  - apply NoDup_fmap_2; [|exact Hfields].
    intros a b. apply append_inj_r.
Qed.

(** The amended C6 at an operation with the query parameter [foo] and
    the JSON body field [foo]. *)
Lemma C6_witness :
  NoDup (tp_name <$> from_operation_parameters option_text no_nested foo_operation)
  /\ tp_name <$> from_operation_parameters option_text no_nested foo_operation
     = ["foo"; "j_foo"].
Proof.
  split; [|reflexivity].
  refine (proj2 (C6_unique_names option_text no_nested foo_operation)
            _ (mkSchema "Foo" _) _ eq_refl _ eq_refl eq_refl _ _ _ _).
  - intros H. apply list_elem_of_singleton in H. discriminate.
  - repeat constructor.
  - apply NoDup_singleton.
  - apply NoDup_singleton.
  - repeat constructor.
Defined.

(** ** Dispatch *)

(** C8, as stated, fails on the one case the repository tests: for the
    body parameter [j_body_param], which records no original field, the
    rule of the claim writes the value under [j_body_param], whereas
    [test_tool_function_noexec] asserts the body [{"body_param": ...}].
    Taking the name without its JSON marker gives the asserted request. *)
Lemma C8_counterexample :
  tp_request_body_field <$> mock_tool_parameters = [None; None; None]
  /\ (dispatch_as_stated mock_tool_parameters mock_arguments).2
     = {[ "j_body_param" := VDict [("key", VStr "value")] ]}
  /\ (dispatch_as_stated mock_tool_parameters mock_arguments).2 <> asserted_json
  /\ dispatch mock_tool_parameters mock_arguments = (asserted_params, asserted_json).
Proof.
  split; [reflexivity|].
  assert (E : (dispatch_as_stated mock_tool_parameters mock_arguments).2
              = {[ "j_body_param" := VDict [("key", VStr "value")] ]})
    by (vm_compute; reflexivity).
  split; [exact E|]. split.
  - rewrite E. intros H.
    assert (H' : ({[ "j_body_param" := VDict [("key", VStr "value")] ]}
                    : gmap string Value) !! "body_param"
                 = asserted_json !! "body_param") by (by rewrite H).
    vm_compute in H'. discriminate.
  - vm_compute. reflexivity.
Qed.

Lemma dispatch_with_snoc key params p args :
  dispatch_with key (params ++ [p]) args
  = dispatch_step key args (dispatch_with key params args) p.
Proof. unfold dispatch_with. by rewrite fold_left_app. Qed.

(** What the outgoing query map and body object hold after the pass. *)
Lemma dispatch_with_lookup key args (params : list ToolParameter) :
  NoDup (tp_name <$> params) ->
  NoDup (key <$> filter (fun p => tp_in_body p = true) params) ->
  (forall k v,
      (dispatch_with key params args).1 !! k = Some v
      <-> exists p, p ∈ params /\ tp_in_body p = false /\ tp_name p = k
                    /\ v = argument_value args p)
  /\ (forall k v,
         (dispatch_with key params args).2 !! k = Some v
         <-> exists p, p ∈ params /\ tp_in_body p = true /\ key p = k
                       /\ v = argument_value args p).
Proof.
  induction params as [|p params IH] using rev_ind; intros Hn Hk.
  - split; intros k v; cbn; rewrite lookup_empty;
      (split; [discriminate | intros (p & Hp & _); by apply elem_of_nil in Hp]).
  - rewrite fmap_app in Hn. apply NoDup_app in Hn as (Hn & Hfresh & _).
    rewrite filter_app, fmap_app in Hk. apply NoDup_app in Hk as (Hk & Hkfresh & _).
    destruct (IH Hn Hk) as [IHq IHb]. rewrite dispatch_with_snoc.
    destruct (dispatch_with key params args) as [q b]. cbn [fst snd] in *.
    unfold dispatch_step. destruct (tp_in_body p) eqn:Ep; cbn [fst snd].
    + split; intros k v.
      * rewrite IHq. split; intros (p' & Hp' & Hb & Hrest).
        -- exists p'. rewrite elem_of_app. auto.
        -- apply elem_of_app in Hp' as [Hp'|Hp']; [eauto|].
           apply list_elem_of_singleton in Hp'. subst p'. congruence.
      * rewrite filter_cons_True in Hkfresh by exact Ep.
        destruct (decide (key p = k)) as [<-|Hne].
        -- rewrite lookup_insert_eq. split.
           ++ intros [= <-]. exists p. rewrite elem_of_app, list_elem_of_singleton. auto.
           ++ intros (p' & Hp' & Hb & Hkey & ->).
              apply elem_of_app in Hp' as [Hp'|Hp'].
              ** exfalso. apply (Hkfresh (key p)).
                 --- rewrite <- Hkey. apply list_elem_of_fmap_2.
                     apply list_elem_of_filter. auto.
                 --- csimpl. left.
              ** apply list_elem_of_singleton in Hp'. by subst p'.
        -- rewrite lookup_insert_ne by exact Hne. rewrite IHb.
           split; intros (p' & Hp' & Hb & Hkey & Hv).
           ++ exists p'. rewrite elem_of_app. auto.
           ++ apply elem_of_app in Hp' as [Hp'|Hp']; [eauto|].
              apply list_elem_of_singleton in Hp'. subst p'. congruence.
    + split; intros k v.
      * destruct (decide (tp_name p = k)) as [<-|Hne].
        -- rewrite lookup_insert_eq. split.
           ++ intros [= <-]. exists p. rewrite elem_of_app, list_elem_of_singleton. auto.
           ++ intros (p' & Hp' & Hb & Hname & ->).
              apply elem_of_app in Hp' as [Hp'|Hp'].
              ** exfalso. apply (Hfresh (tp_name p)).
                 --- rewrite <- Hname. by apply list_elem_of_fmap_2.
                 --- csimpl. left.
              ** apply list_elem_of_singleton in Hp'. by subst p'.
        -- rewrite lookup_insert_ne by exact Hne. rewrite IHq.
           split; intros (p' & Hp' & Hb & Hname & Hv).
           ++ exists p'. rewrite elem_of_app. auto.
           ++ apply elem_of_app in Hp' as [Hp'|Hp']; [eauto|].
              apply list_elem_of_singleton in Hp'. subst p'. congruence.
      * rewrite IHb. split; intros (p' & Hp' & Hb & Hrest).
        -- exists p'. rewrite elem_of_app. auto.
        -- apply elem_of_app in Hp' as [Hp'|Hp']; [eauto|].
           apply list_elem_of_singleton in Hp'. subst p'. congruence.
Qed.

Lemma NoDup_fmap_elem_eq {A B : Type} (f : A -> B) (l : list A) x y :
  NoDup (f <$> l) -> x ∈ l -> y ∈ l -> f x = f y -> x = y.
Proof.
  induction l as [|a l IH]; csimpl; intros Hn Hx Hy Hf.
  - by apply elem_of_nil in Hx.
  - apply NoDup_cons in Hn as [Ha Hn].
    apply elem_of_cons in Hx as [->|Hx]; apply elem_of_cons in Hy as [->|Hy]; auto.
    + exfalso. apply Ha. rewrite Hf. by apply list_elem_of_fmap_2.
    + exfalso. apply Ha. rewrite <- Hf. by apply list_elem_of_fmap_2.
Qed.

(** C8 (amended): for a descriptor whose parameter names are pairwise
    distinct and whose body parameters have pairwise distinct keys, the
    dispatcher writes the value of every body parameter into the
    outgoing body under its recorded field (under its name without the
    JSON marker when none was recorded) and makes no query entry under
    its name, and writes the value of every other parameter into the
    outgoing query map under its flattened name. *)
Theorem C8_argument_partition (params : list ToolParameter) (args : gmap string Value)
  (p : ToolParameter) :
  NoDup (tp_name <$> params) ->
  NoDup (body_key <$> filter (fun p => tp_in_body p = true) params) ->
  p ∈ params ->
  (tp_in_body p = true ->
   (dispatch params args).2 !! body_key p = Some (argument_value args p)
   /\ (dispatch params args).1 !! tp_name p = None
   /\ (forall field, tp_request_body_field p = Some field -> body_key p = field)
   /\ (tp_request_body_field p = None ->
       body_key p = remove_prefix JSON_PREFIX (tp_name p)))
  /\ (tp_in_body p = false ->
      (dispatch params args).1 !! tp_name p = Some (argument_value args p)).
Proof.
  intros Hn Hk Hp.
  destruct (dispatch_with_lookup body_key args params Hn Hk) as [Hq Hb].
  fold dispatch in Hq, Hb. split.
  - intros Hbody. split; [|split; [|split]].
    + apply Hb. eauto.
    + destruct ((dispatch params args).1 !! tp_name p) as [v|] eqn:E; [|reflexivity].
      apply Hq in E as (p' & Hp' & Hb' & Hname & _).
      assert (p' = p) by (apply (NoDup_fmap_elem_eq tp_name params); auto).
      congruence.
    + intros field Hf. unfold body_key. by rewrite Hf.
    + intros Hf. unfold body_key. by rewrite Hf.
  - intros Hquery. apply Hq. eauto.
Qed.

(** The amended C8 at the JSON body field [foo] dispatched with the
    value 7, and at the query parameter [param2] of the test. *)
Lemma C8_witness :
  ((dispatch [foo_tool_parameter] {[ "j_foo" := VInt 7 ]}).2 !! "foo" = Some (VInt 7)
   /\ (dispatch [foo_tool_parameter] {[ "j_foo" := VInt 7 ]}).1 !! "j_foo" = None)
  /\ dispatch [foo_tool_parameter] {[ "j_foo" := VInt 7 ]} = (∅, {[ "foo" := VInt 7 ]})
  /\ (dispatch mock_tool_parameters mock_arguments).1 !! "param2" = Some (VInt 123).
Proof.
  assert (N1 : NoDup (tp_name <$> [foo_tool_parameter])) by apply NoDup_singleton.
  assert (K1 : NoDup (body_key <$>
                      filter (fun p => tp_in_body p = true) [foo_tool_parameter]))
    by apply NoDup_singleton.
  assert (N2 : NoDup (tp_name <$> mock_tool_parameters))
    by (apply (bool_decide_unpack _); vm_compute; exact I).
  assert (K2 : NoDup (body_key <$>
                      filter (fun p => tp_in_body p = true) mock_tool_parameters))
    by (apply (bool_decide_unpack _); vm_compute; exact I).
  split; [|split].
  - destruct (proj1 (C8_argument_partition [foo_tool_parameter] {[ "j_foo" := VInt 7 ]}
                       foo_tool_parameter N1 K1
                       ltac:(apply list_elem_of_singleton; reflexivity)) eq_refl)
      as (H1 & H2 & _).
    split; [exact H1 | exact H2].
  - vm_compute. reflexivity.
  - refine (proj2 (C8_argument_partition mock_tool_parameters mock_arguments
                     (mkToolParameter "param2" "int" "Second parameter" (VStr "None")
                        None false)
                     N2 K2 _) eq_refl).
    apply elem_of_cons. right. apply elem_of_cons. left. reflexivity.
Defined.

(** X1: a call never removes a reference from the visited set, and a
    call on a reference below the depth limit leaves that reference in
    the set, whatever it returns. *)
Theorem process_schema_visited_grows (schema : SchemaNode) (api : OpenAPI)
  (depth max_depth : nat) (visited visited' : gset string) (r : option Schema) :
  _process_schema schema api depth max_depth visited = Done r visited' ->
  visited ⊆ visited'
  /\ (forall ref, schema = Reference ref -> depth < max_depth -> ref ∈ visited').
Proof.
  intros H. split.
  - eapply process_fuel_grows. exact H.
  - intros ref -> Hd. rewrite process_schema_unfold in H. unfold process_body in H.
    destruct (Nat.leb_spec max_depth depth) as [Hle|_]; [lia|].
    apply bind_inv in H as (seen & v1 & Ht & H).
    simpl in Ht. destruct (decide (ref ∈ visited)) as [Hin|Hnin].
    + injection Ht as <- <-. injection H as _ <-. exact Hin.
    + injection Ht as <- <-.
      apply bind_inv in H as ([name resolved] & v2 & Hres & H).
      assert (G1 : ({[ref]} ∪ visited) ⊆ v2).
      { revert Hres. simpl. intros Hres.
        apply bind_inv in Hres as (b & v3 & Hl & Hr).
        apply lookup_component_grows in Hl. injection Hr as _ _ <-. exact Hl. }
      assert (G2 : v2 ⊆ visited').
      { eapply build_grows; [|exact H].
        intros s v a v' Hs. eapply process_fuel_grows. exact Hs. }
      set_solver.
Qed.

(** X1 at the order schema: [Address] is in the set after the call. *)
Lemma process_schema_visited_grows_witness :
  (∅ : gset string) ⊆ {[ address_ref ]} ∪ ∅
  /\ (forall ref, Reference address_ref = Reference ref -> 0 < 10 ->
                  ref ∈ ({[ address_ref ]} ∪ ∅ : gset string)).
Proof.
  apply (process_schema_visited_grows (Reference address_ref) address_api 0 10 ∅
           ({[ address_ref ]} ∪ ∅)
           (Some (mkSchema "Address"
                    (Some [mkSchemaProperty "street" (TName "string") None None None
                             None None])))).
  vm_compute. reflexivity.
Defined.

(** ** Shape of the result *)

Ltac done_inv H :=
  match type of H with
  | bind _ _ _ = Done _ _ =>
      let a := fresh "a" in
      let v := fresh "v" in
      let H1 := fresh "Hm" in
      apply bind_inv in H as (a & v & H1 & H); done_inv H
  | ret _ _ = Done _ _ =>
      unfold ret in H; first [discriminate H | injection H as ? ?; subst]
  | context [match ?x with _ => _ end] =>
      first [is_var x; destruct x | let E := fresh "E" in destruct x eqn:E];
      done_inv H
  | _ => try discriminate H
  end.

Lemma process_property_name api rec depth name s v p v' :
  process_property api rec depth name s v = Done p v' -> sp_name p = name.
Proof.
  unfold process_property. intros H.
  done_inv H; try reflexivity.
Qed.

Lemma properties_loop_names_from api rec depth props :
  forall acc v out v',
    for_each props
      (fun '(prop_name, prop_schema) properties =>
         let* prop := process_property api rec depth prop_name prop_schema in
         ret (properties ++ [prop]))
      acc v = Done out v' ->
    sp_name <$> out = (sp_name <$> acc) ++ props.*1.
Proof.
  induction props as [|[n s] props IH]; intros acc v out v' H; simpl in H.
  - injection H as <- _. by rewrite app_nil_r.
  - apply bind_inv in H as (acc' & v1 & H1 & H).
    apply bind_inv in H1 as (p & v2 & Hp & H1). injection H1 as <- <-.
    apply process_property_name in Hp.
    rewrite (IH _ _ _ _ H), fmap_app. csimpl. rewrite Hp.
    by rewrite <- app_assoc.
Qed.

Lemma build_shape api rec depth name resolved v s v' :
  build api rec depth name resolved v = Done (Some s) v' ->
  schema_name s = name /\ is_Some (schema_properties s).
Proof.
  unfold build. intros H. done_inv H; simpl; eauto.
Qed.

(** X2: when a schema is resolved through its declared properties (no
    [allOf], no [anyOf]), a completed call returns a [Schema] whose
    properties carry exactly the declared names, in the declared order,
    one per declared property: none is dropped, added or reordered. *)
Theorem properties_keep_declared_names (api : OpenAPI) (schema : SchemaNode)
  (depth max_depth : nat) (visited : gset string) (name : string)
  (resolved : SchemaBody) (v0 : gset string) (r : option Schema)
  (visited' : gset string) :
  depth < max_depth ->
  enters api schema visited name resolved v0 ->
  nonempty (b_allOf resolved) = false ->
  nonempty (b_anyOf resolved) = false ->
  nonempty (b_properties resolved) = true ->
  _process_schema schema api depth max_depth visited = Done r visited' ->
  exists props,
    r = Some (mkSchema name (Some props))
    /\ sp_name <$> props = (b_properties resolved).*1
    /\ length props = length (b_properties resolved).
Proof.
  intros Hd He Hall Hany Hprops H.
  erewrite process_schema_enter in H by eassumption.
  unfold build in H. rewrite Hall, Hany, Hprops in H.
  apply bind_inv in H as (props & v1 & Hl & H). injection H as <- <-.
  exists props. split; [reflexivity|].
  unfold properties_loop in Hl. apply properties_loop_names_from in Hl.
  simpl in Hl. split; [exact Hl|].
  rewrite <- (length_fmap sp_name), Hl. by rewrite length_fmap.
Qed.

(** X2 at the order schema: [billing] and [shipping], in that order. *)
Lemma properties_keep_declared_names_witness :
  exists props,
    Some (mkSchema "inline"
            (Some [mkSchemaProperty "billing" (TName "object") None
                     (Some [mkSchemaProperty "street" (TName "string") None None
                              None None None])
                     None None None;
                   mkSchemaProperty "shipping" (TName "object") None
                     None None None None]))
    = Some (mkSchema "inline" (Some props))
    /\ sp_name <$> props = ["billing"; "shipping"]
    /\ length props = 2.
Proof.
  refine (properties_keep_declared_names address_api order_schema 0 10 ∅ "inline" _ ∅
            _ {[ address_ref ]} _ (enters_inline _ _ _) eq_refl eq_refl eq_refl _).
  - lia.
  - vm_compute. reflexivity.
Defined.

(** X3: a completed call that returns a [Schema] names it after the
    last path segment of the reference it was called on, or ["inline"]
    when it was called on a schema object; the property list of the
    result is always a list, never null. *)
Theorem process_schema_result_name (schema : SchemaNode) (api : OpenAPI)
  (depth max_depth : nat) (visited visited' : gset string) (s : Schema) :
  _process_schema schema api depth max_depth visited = Done (Some s) visited' ->
  schema_name s = match schema with
                  | Reference ref => last_segment ref
                  | Inline _ => "inline"
                  end
  /\ is_Some (schema_properties s).
Proof.
  rewrite process_schema_unfold. unfold process_body. intros H.
  destruct (max_depth <=? depth)%nat; [discriminate|].
  apply bind_inv in H as (seen & v1 & Ht & H).
  destruct seen; [discriminate|].
  apply bind_inv in H as ([name resolved] & v2 & Hres & H).
  apply build_shape in H as [Hn Hp]. split; [|exact Hp].
  destruct schema as [ref|b]; simpl in Hres.
  - apply bind_inv in Hres as (b & v3 & _ & Hr). injection Hr as <- _ _. exact Hn.
  - injection Hres as <- _ _. exact Hn.
Qed.

(** X3 at the document [Node]. *)
Lemma process_schema_result_name_witness :
  schema_name (mkSchema "Node"
                 (Some [mkSchemaProperty "child" (TName "object") None None
                          (Some "A tree node") None None]))
  = last_segment node_ref
  /\ is_Some (schema_properties
                (mkSchema "Node"
                   (Some [mkSchemaProperty "child" (TName "object") None None
                            (Some "A tree node") None None]))).
Proof.
  apply (process_schema_result_name (Reference node_ref) node_api 0 10 ∅
           ({[ node_ref ]} ∪ ∅)).
  vm_compute. reflexivity.
Defined.

(** ** Lookup failures *)

(** X4: a reference to a component that is not in the document raises
    [KeyError] with the component name, but only when the call gets as
    far as the lookup: at or beyond the depth limit, and for a reference
    already in the visited set, the call returns null without error. *)
Theorem missing_component_raises (api : OpenAPI) (ref : string)
  (depth max_depth : nat) (visited : gset string) :
  components_schemas api !! last_segment ref = None ->
  (depth < max_depth -> ref ∉ visited ->
   _process_schema (Reference ref) api depth max_depth visited
   = KeyError (last_segment ref))
  /\ (ref ∈ visited ->
      _process_schema (Reference ref) api depth max_depth visited = Done None visited)
  /\ (max_depth <= depth ->
      _process_schema (Reference ref) api depth max_depth visited = Done None visited).
Proof.
  intros Hmiss. split; [|split].
  - intros Hd Hnin. rewrite process_schema_unfold. unfold process_body.
    destruct (Nat.leb_spec max_depth depth) as [Hle|_]; [lia|].
    simpl. unfold bind. destruct (decide (ref ∈ visited)); [contradiction|].
    simpl. unfold lookup_component. rewrite Hmiss. reflexivity.
  - apply process_schema_seen.
  - apply process_schema_depth_guard.
Qed.

(** X4 at the undefined component [Ghost]. *)
Lemma missing_component_raises_witness :
  _process_schema (Reference ghost_ref) pet_api 0 10 ∅ = KeyError "Ghost"
  /\ _process_schema (Reference ghost_ref) pet_api 0 10 {[ ghost_ref ]}
     = Done None {[ ghost_ref ]}
  /\ _process_schema (Reference ghost_ref) pet_api 10 10 ∅ = Done None ∅.
Proof.
  pose proof (missing_component_raises pet_api ghost_ref 0 10 ∅ eq_refl) as (H1 & _ & _).
  pose proof (missing_component_raises pet_api ghost_ref 0 10 {[ ghost_ref ]} eq_refl)
    as (_ & H2 & _).
  pose proof (missing_component_raises pet_api ghost_ref 10 10 ∅ eq_refl) as (_ & _ & H3).
  split; [|split].
  - apply H1; [lia | apply not_elem_of_empty].
  - apply H2. apply elem_of_singleton_2. reflexivity.
  - apply H3. lia.
Defined.

(** X5: nothing catches the [KeyError] of a branch: when the branches of
    an [allOf] (or, without [allOf], of an [anyOf]) resolve in order up
    to one that raises [KeyError], the whole call raises that error,
    whatever the earlier branches returned and whatever follows. *)
Theorem branch_key_error_propagates (api : OpenAPI) (schema : SchemaNode)
  (depth max_depth : nat) (visited : gset string) (name : string)
  (resolved : SchemaBody) (v0 : gset string)
  (pre : list SchemaNode) (s : SchemaNode) (post : list SchemaNode)
  (rs : list (option Schema)) (v1 : gset string) (key : string) :
  depth < max_depth ->
  enters api schema visited name resolved v0 ->
  b_allOf resolved = pre ++ s :: post
  \/ (b_allOf resolved = [] /\ b_anyOf resolved = pre ++ s :: post) ->
  runs (fun s v => _process_schema s api (S depth) max_depth v) pre v0 rs v1 ->
  _process_schema s api (S depth) max_depth v1 = KeyError key ->
  _process_schema schema api depth max_depth visited = KeyError key.
Proof.
  intros Hd He Hbr Hr Hk.
  erewrite process_schema_enter by eassumption. unfold build.
  destruct Hbr as [Hall | [Hall Hany]].
  - rewrite Hall. replace (nonempty (pre ++ s :: post)) with true
      by (by destruct pre).
    apply bind_keyerror. eapply all_of_loop_keyerror; eassumption.
  - rewrite Hall, Hany. simpl nonempty.
    replace (nonempty (pre ++ s :: post)) with true by (by destruct pre).
    cbv iota. apply bind_keyerror. eapply any_of_loop_keyerror; eassumption.
Qed.

(** X5 at an [anyOf] of [Pet] and the undefined [Ghost]. *)
Lemma branch_key_error_propagates_witness :
  _process_schema
    (Inline (mkBody None None [] None [] [Reference pet_ref; Reference ghost_ref] None))
    pet_api 0 10 ∅
  = KeyError "Ghost".
Proof.
  refine (branch_key_error_propagates pet_api _ 0 10 ∅ "inline"
            (mkBody None None [] None [] [Reference pet_ref; Reference ghost_ref] None) ∅
            [Reference pet_ref] (Reference ghost_ref) []
            [Some (mkSchema "Pet"
                     (Some [mkSchemaProperty "name" (TName "string") None None None
                              None None]))]
            {[ pet_ref ]} "Ghost" _ (enters_inline _ _ _) _ _ _).
  - lia.
  - right. split; reflexivity.
  - eapply runs_cons; [vm_compute; reflexivity | constructor].
  - vm_compute. reflexivity.
Defined.

(** ** Scalars and array items *)

Lemma scalar_resolves api b depth max_depth v :
  depth < max_depth ->
  scalar_body b = true ->
  _process_schema (Inline b) api depth max_depth v
  = Done (Some (mkSchema "inline" (Some []))) v.
Proof.
  intros Hd Hs. unfold scalar_body in Hs.
  apply andb_prop in Hs as [Hs Harr]. apply andb_prop in Hs as [Hs Hprops].
  apply andb_prop in Hs as [Hall Hany].
  apply negb_true_iff in Hall, Hany, Hprops, Harr.
  apply bool_decide_eq_false in Harr.
  erewrite process_schema_enter by (first [eassumption | apply enters_inline]).
  unfold build. rewrite Hall, Hany, Hprops.
  destruct (decide (b_type b = Some "array")); [contradiction | reflexivity].
Qed.

(** X6: an object property with no [anyOf], [allOf] or
    [additionalProperties] whose declared children are all scalar
    schema objects comes out with an empty child list: at every depth
    and for every limit, none of the scalar children is kept, and the
    visited set is untouched. *)
Theorem nested_scalar_children_dropped (api : OpenAPI) (depth max_depth : nat)
  (prop_name : string) (pb : SchemaBody) (visited : gset string) :
  str_or (b_type pb) "object" = "object" ->
  nonempty (b_anyOf pb) = false ->
  nonempty (b_allOf pb) = false ->
  additional_truthy (b_additionalProperties pb) = false ->
  Forall (fun c : string * SchemaNode =>
            exists b, c.2 = Inline b /\ scalar_body b = true) (b_properties pb) ->
  process_property api (fun s d v => _process_schema s api d max_depth v) depth
    prop_name (Inline pb) visited
  = Done (mkSchemaProperty prop_name (TName "object") None (Some [])
            (b_description pb) None None)
         visited.
Proof.
  intros Hty Hany Hall Hadd Hch.
  set (res := if (S depth <? max_depth)%nat
              then Some (mkSchema "inline" (Some [])) else None).
  assert (Hrun : forall props,
             Forall (fun c : string * SchemaNode =>
                       exists b, c.2 = Inline b /\ scalar_body b = true) props ->
             runs (fun s v => _process_schema s api (S depth) max_depth v)
               props.*2 visited (map (fun _ => res) props) visited).
  { induction 1 as [|[n s] props (b & Hb & Hs) _ IH]; csimpl; [constructor|].
    simpl in Hb. subst s. eapply runs_cons; [|exact IH]. unfold res.
    destruct (Nat.ltb_spec (S depth) max_depth).
    - by apply scalar_resolves.
    - by apply process_schema_depth_guard. }
  assert (Hno : Forall (fun c : string * SchemaNode =>
                          nonempty (b_anyOf (attrs api c.2)) = false)
                  (b_properties pb)).
  { eapply Forall_impl; [exact Hch|]. intros [n s] (b & Hb & Hs). simpl in *. subst s.
    simpl. unfold scalar_body in Hs.
    destruct (nonempty (b_anyOf b)); [|reflexivity].
    by rewrite andb_false_r in Hs. }
  assert (Hnil : forall props : list (string * SchemaNode),
             concat (zip_with first_property_renamed props.*1
                       (map (fun _ => res) props)) = []).
  { induction props as [|[n s] props IH]; csimpl; [reflexivity|].
    rewrite IH. unfold res. by destruct (S depth <? max_depth)%nat. }
  unfold process_property. cbn [attrs]. rewrite Hty.
  cbn [String.eqb Ascii.eqb Bool.eqb andb]. rewrite Hany, Hall, Hadd.
  unfold nested_properties_loop.
  erewrite bind_done by (apply nested_properties_loop_from; [exact Hno | apply Hrun, Hch]).
  rewrite Hnil. reflexivity.
Qed.

(** X6 at the object [home] with the scalar children [street] and
    [city]. *)
Lemma nested_scalar_children_dropped_witness :
  process_property empty_api (fun s d v => _process_schema s empty_api d 10 v) 0
    "home" (Inline home_body) ∅
  = Done (mkSchemaProperty "home" (TName "object") None (Some [])
            (b_description home_body) None None)
         ∅.
Proof.
  apply (nested_scalar_children_dropped empty_api 0 10 "home" home_body ∅
           eq_refl eq_refl eq_refl eq_refl).
  repeat (constructor; [eexists; split; reflexivity|]). constructor.
Defined.

Lemma item_properties_loop_plain api rec depth props :
  Forall (fun c : string * SchemaNode =>
            str_or (b_type (attrs api c.2)) "object" <> "object") props ->
  forall acc v,
    for_each props
      (fun '(item_prop_name, item_prop_schema) item_properties =>
         let item_prop_type := str_or (b_type (attrs api item_prop_schema)) "object" in
         let item_prop :=
           mkSchemaProperty item_prop_name (TName item_prop_type) None None
             (b_description (attrs api item_prop_schema)) None None in
         if String.eqb item_prop_type "object" then
           let* nested_schema := rec item_prop_schema (S depth) in
           match nested_schema with
           | Some n =>
               ret (item_properties ++ [set_properties (schema_properties n) item_prop])
           | None => ret (item_properties ++ [item_prop])
           end
         else ret (item_properties ++ [item_prop]))
      acc v
    = Done (acc ++ (plain_item_property api <$> props)) v.
Proof.
  induction 1 as [|[n s] props Hc _ IH]; intros acc v; csimpl.
  - unfold ret. by rewrite app_nil_r.
  - simpl in Hc. apply String.eqb_neq in Hc. rewrite Hc.
    erewrite bind_done by reflexivity. rewrite IH. by rewrite <- app_assoc.
Qed.

(** X7: the reference in the [items] of an array property is looked up
    directly, without the cycle check and without a recursive call.
    When its target is an object whose properties are not objects, the
    item is expanded exactly one level, whatever the visited set
    contains (even the item's own reference) and at any depth, and the
    visited set is left as it was; when its target is not an object,
    the property gets no [items] at all. *)
Theorem array_item_reference_expands_one_level (api : OpenAPI) (depth max_depth : nat)
  (prop_name : string) (prop_schema : SchemaNode) (item_ref : string)
  (target : SchemaBody) (visited : gset string) :
  str_or (b_type (attrs api prop_schema)) "object" = "array" ->
  b_items (attrs api prop_schema) = Some (Reference item_ref) ->
  components_schemas api !! last_segment item_ref = Some target ->
  (b_type target = Some "object" ->
   Forall (fun c : string * SchemaNode =>
             str_or (b_type (attrs api c.2)) "object" <> "object")
     (b_properties target) ->
   process_property api (fun s d v => _process_schema s api d max_depth v) depth
     prop_name prop_schema visited
   = Done (mkSchemaProperty prop_name (TName "array")
             (Some (mkSchemaProperty (last_segment item_ref) (TName "object") None
                      (Some (plain_item_property api <$> b_properties target))
                      (b_description target) None None))
             None (b_description (attrs api prop_schema)) None None)
          visited)
  /\ (b_type target <> Some "object" ->
      process_property api (fun s d v => _process_schema s api d max_depth v) depth
        prop_name prop_schema visited
      = Done (mkSchemaProperty prop_name (TName "array") None None
                (b_description (attrs api prop_schema)) None None)
             visited).
Proof.
  intros Hty Hitems Htarget. split.
  - intros Hobj Hplain.
    unfold process_property. rewrite Hty. cbn [String.eqb Ascii.eqb Bool.eqb andb].
    rewrite Hitems.
    erewrite bind_done by (unfold lookup_component; rewrite Htarget; reflexivity).
    destruct (decide (b_type target = Some "object")); [|contradiction].
    unfold item_properties_loop.
    erewrite bind_done by (by apply item_properties_loop_plain).
    cbn [attrs]. rewrite Htarget. reflexivity.
  - intros Hobj.
    unfold process_property. rewrite Hty. cbn [String.eqb Ascii.eqb Bool.eqb andb].
    rewrite Hitems.
    erewrite bind_done by (unfold lookup_component; rewrite Htarget; reflexivity).
    destruct (decide (b_type target = Some "object")); [contradiction|].
    reflexivity.
Qed.

(** X7 at [Tree.children], an array of [Tree], while [Tree] itself is
    being resolved. *)
Lemma array_item_reference_expands_one_level_witness :
  process_property tree_api (fun s d v => _process_schema s tree_api d 10 v) 0
    "children" tree_children {[ tree_ref ]}
  = Done (mkSchemaProperty "children" (TName "array")
            (Some (mkSchemaProperty (last_segment tree_ref) (TName "object") None
                     (Some (plain_item_property tree_api <$> b_properties tree_body))
                     (b_description tree_body) None None))
            None (b_description (attrs tree_api tree_children)) None None)
         {[ tree_ref ]}.
Proof.
  refine (proj1 (array_item_reference_expands_one_level tree_api 0 10 "children"
                   tree_children tree_ref tree_body {[ tree_ref ]} eq_refl eq_refl _)
            eq_refl _).
  - vm_compute. reflexivity.
  - repeat (constructor; [vm_compute; discriminate|]). constructor.
Defined.

(** ** Operations *)

Lemma resolve_top_never_out_of_fuel schema api :
  resolve_top schema api <> inl RaisedOutOfFuel.
Proof.
  unfold resolve_top. destruct schema as [s|]; [|discriminate].
  pose proof (process_schema_safe api 10 s 0 ∅) as Hs. unfold process_schema_default.
  destruct (_process_schema s api 0 10 ∅); congruence.
Qed.

Lemma process_response_never_out_of_fuel api response :
  process_response api response <> inl RaisedOutOfFuel.
Proof.
  unfold process_response. destruct (content_entry _ _) as [media|]; [|discriminate].
  pose proof (resolve_top_never_out_of_fuel (mt_schema media) api).
  destruct (resolve_top (mt_schema media) api); congruence.
Qed.

Lemma process_responses_never_out_of_fuel api responses :
  process_responses api responses <> inl RaisedOutOfFuel.
Proof.
  induction responses as [|[code response] rest IH]; simpl; [discriminate|].
  pose proof (process_response_never_out_of_fuel api response).
  destruct (process_response api response); [congruence|].
  destruct (process_responses api rest); congruence.
Qed.

Lemma process_responses_app api pre post rs :
  process_responses api pre = inr rs ->
  process_responses api (pre ++ post)
  = match process_responses api post with
    | inl e => inl e
    | inr rs' => inr (rs ++ rs')
    end.
Proof.
  revert rs. induction pre as [|[code response] pre IH]; intros rs H; simpl in *.
  - injection H as <-. by destruct (process_responses api post).
  - destruct (process_response api response) as [e|r]; [discriminate|].
    destruct (process_responses api pre) as [e|rs0]; [discriminate|].
    injection H as <-. rewrite (IH rs0 eq_refl).
    by destruct (process_responses api post).
Qed.

Lemma process_responses_lookup api responses rs :
  process_responses api responses = inr rs ->
  rs.*1 = responses.*1
  /\ forall i code response,
       responses !! i = Some (code, response) ->
       exists r, rs !! i = Some (code, r) /\ process_response api response = inr r.
Proof.
  revert rs. induction responses as [|[code response] rest IH]; intros rs H; simpl in H.
  - injection H as <-. split; [reflexivity|]. intros i ? ? Hi. destruct i; discriminate.
  - destruct (process_response api response) as [e|r] eqn:Er; [discriminate|].
    destruct (process_responses api rest) as [e|rs0]; [discriminate|].
    injection H as <-. destruct (IH rs0 eq_refl) as [Hk Hl]. split.
    + csimpl. by rewrite Hk.
    + intros [|i] code' response' Hi; simpl in Hi.
      * injection Hi as <- <-. exists r. split; [reflexivity | exact Er].
      * apply Hl. exact Hi.
Qed.

(** X8: when [_process_operation] succeeds, the processed responses
    have the status codes of the operation in the same order, and each
    one is resolved on its own, from an empty visited set: a response
    with JSON content has format [application/json] and the schema
    that a fresh default call returns for its content schema (so two
    responses with the same schema get the same result), and any other
    response has format [text/plain] and no schema. *)
Theorem responses_resolved_independently (path_name : string) (operation : ApiOperation)
  (api : OpenAPI) (result : OperationModel) :
  _process_operation path_name operation api = inr result ->
  (om_responses result).*1 = (ao_responses operation).*1
  /\ forall i code response,
       ao_responses operation !! i = Some (code, response) ->
       exists r,
         om_responses result !! i = Some (code, r)
         /\ rs_description r = ar_description response
         /\ match content_entry (ar_content response) "application/json" with
            | Some media =>
                rs_format r = "application/json"
                /\ exists s v, mt_schema media = Some s
                               /\ process_schema_default s api = Done (rs_schema r) v
            | None => rs_format r = "text/plain" /\ rs_schema r = None
            end.
Proof.
  unfold _process_operation. intros H.
  destruct (process_parameters (ao_parameters operation)) as [e|ps]; [discriminate|].
  destruct (process_responses api (ao_responses operation)) as [e|rs] eqn:Er;
    [discriminate|].
  destruct (process_request_body api (ao_requestBody operation)) as [e|rb];
    [discriminate|].
  injection H as <-. cbn [om_responses].
  destruct (process_responses_lookup _ _ _ Er) as [Hk Hl]. split; [exact Hk|].
  intros i code response Hi. destruct (Hl i code response Hi) as (r & Hr & Hp).
  exists r. split; [exact Hr|].
  unfold process_response in Hp.
  destruct (content_entry (ar_content response) "application/json") as [media|].
  - unfold resolve_top in Hp. destruct (mt_schema media) as [s|]; [|discriminate].
    destruct (process_schema_default s api) as [| |res v] eqn:Es; try discriminate.
    injection Hp as <-. cbn. eauto 10.
  - injection Hp as <-. cbn. auto.
Qed.

(** X8 at an operation with two responses of schema [Address]. *)
Lemma responses_resolved_independently_witness :
  match _process_operation "/move" move_operation address_api with
  | inr result =>
      (om_responses result).*1 = ["200"; "201"; "204"]
      /\ exists r1 r2,
           om_responses result !! 0 = Some ("200", r1)
           /\ om_responses result !! 1 = Some ("201", r2)
           /\ rs_schema r1 = rs_schema r2
  | inl _ => False
  end.
Proof.
  pose proof (responses_resolved_independently "/move" move_operation address_api) as H.
  destruct (_process_operation "/move" move_operation address_api) as [e|result] eqn:E.
  - vm_compute in E. discriminate.
  - destruct (H result eq_refl) as [Hk Hl]. split; [exact Hk|].
    destruct (Hl 0 "200" _ eq_refl) as (r1 & H1 & _ & _ & s1 & v1 & Hs1 & Hr1).
    destruct (Hl 1 "201" _ eq_refl) as (r2 & H2 & _ & _ & s2 & v2 & Hs2 & Hr2).
    exists r1, r2. split; [exact H1|]. split; [exact H2|].
    injection Hs1 as <-. injection Hs2 as <-. congruence.
Defined.

Lemma process_parameters_spec (params : list ApiParameter) :
  match process_parameters params with
  | inr models =>
      Forall (fun param => is_Some (ap_schema param)) params
      /\ Forall2 (fun param p => process_parameter param = inr p) params models
  | inl e =>
      e = RaisedAttributeError /\ Exists (fun param => ap_schema param = None) params
  end.
Proof.
  induction params as [|param rest IH]; simpl; [split; constructor|].
  unfold process_parameter at 1.
  destruct (ap_schema param) as [sch|] eqn:Es.
  - destruct (process_parameters rest) as [e|ps].
    + destruct IH as [-> Hex]. split; [reflexivity | by apply Exists_cons_tl].
    + destruct IH as [Hall Hrel]. split; constructor; eauto.
      unfold process_parameter. by rewrite Es.
  - split; [reflexivity | by apply Exists_cons_hd].
Qed.

(** X9: [_process_operation] always completes (no resolution exhausts
    its stack), and its three loops run in the order of the source.  A
    parameter without schema makes the operation fail with
    [AttributeError], whatever the responses and the request body are.
    When every parameter has a schema, and the responses up to one
    resolve and that one fails, the operation fails with that error,
    whatever the later responses and the request body are; a response
    that offers JSON content without a schema fails with
    [AttributeError]. *)
Theorem process_operation_first_error (path_name : string) (operation : ApiOperation)
  (api : OpenAPI) :
  _process_operation path_name operation api <> inl RaisedOutOfFuel
  /\ (forall param,
         param ∈ ao_parameters operation ->
         ap_schema param = None ->
         _process_operation path_name operation api = inl RaisedAttributeError)
  /\ (forall pre code response post rs,
         Forall (fun param => is_Some (ap_schema param)) (ao_parameters operation) ->
         ao_responses operation = pre ++ (code, response) :: post ->
         process_responses api pre = inr rs ->
         (forall e, process_response api response = inl e ->
                    _process_operation path_name operation api = inl e)
         /\ (forall media,
                content_entry (ar_content response) "application/json" = Some media ->
                mt_schema media = None ->
                _process_operation path_name operation api = inl RaisedAttributeError)).
Proof.
  pose proof (process_parameters_spec (ao_parameters operation)) as Hps.
  split; [|split].
  - unfold _process_operation.
    destruct (process_parameters (ao_parameters operation)) as [e|ps].
    { destruct Hps as [-> _]. discriminate. }
    pose proof (process_responses_never_out_of_fuel api (ao_responses operation)) as H1.
    destruct (process_responses api (ao_responses operation)); [congruence|].
    unfold process_request_body.
    destruct (ao_requestBody operation) as [rb|]; [|discriminate].
    unfold request_body_schema.
    destruct (content_entry (arb_content rb) "application/x-www-form-urlencoded")
      as [form|].
    + destruct (mt_schema form) as [s|]; [|discriminate].
      pose proof (resolve_top_never_out_of_fuel (Some s) api).
      destruct (resolve_top (Some s) api); congruence.
    + destruct (content_entry (arb_content rb) "application/json") as [json|];
        [|discriminate].
      pose proof (resolve_top_never_out_of_fuel (mt_schema json) api).
      destruct (resolve_top (mt_schema json) api) as [|o]; congruence.
  - intros param Hin Hnone. unfold _process_operation.
    destruct (process_parameters (ao_parameters operation)) as [e|ps].
    + destruct Hps as [-> _]. reflexivity.
    + destruct Hps as [Hall _]. rewrite Forall_forall in Hall.
      apply Hall in Hin. rewrite Hnone in Hin. by destruct Hin.
  - intros pre code response post rs Hall Hresp Hpre.
    assert (Herr : forall e, process_response api response = inl e ->
                             _process_operation path_name operation api = inl e).
    { intros e He. unfold _process_operation.
      destruct (process_parameters (ao_parameters operation)) as [e'|ps].
      - destruct Hps as [_ Hex]. apply Exists_exists in Hex as (param & Hin & Hnone).
        rewrite Forall_forall in Hall. apply Hall in Hin. rewrite Hnone in Hin.
        by destruct Hin.
      - rewrite Hresp, (process_responses_app api pre _ rs Hpre). simpl.
        by rewrite He. }
    split; [exact Herr|].
    intros media Hm Hs. apply Herr. unfold process_response. by rewrite Hm, Hs.
Qed.

(** X9 at an operation with a parameter without schema (whose response
    refers to an undefined component), and at an operation without
    parameters whose second response has JSON content without a schema
    (and whose request body refers to an undefined component). *)
Lemma process_operation_first_error_witness :
  _process_operation "/filter" filter_operation address_api = inl RaisedAttributeError
  /\ _process_operation "/broken" broken_operation address_api <> inl RaisedOutOfFuel
  /\ _process_operation "/broken" broken_operation address_api
     = inl RaisedAttributeError.
Proof.
  split; [|split].
  - apply (proj1 (proj2 (process_operation_first_error "/filter" filter_operation
                           address_api)) content_parameter); [|reflexivity].
    apply elem_of_cons. right. apply elem_of_cons. left. reflexivity.
  - apply (proj1 (process_operation_first_error "/broken" broken_operation address_api)).
  - apply (proj2 (proj2 (proj2 (process_operation_first_error "/broken"
                                  broken_operation address_api))
                    [("200", json_response "Fine" address_media)] "500"
                    (json_response "No schema" no_schema_media) []
                    [("200", mkResponseModel "Fine"
                               (Some [("application/json", address_media)])
                               (Some (mkSchema "Address"
                                        (Some [mkSchemaProperty "street" (TName "string")
                                                 None None None None None])))
                               "application/json")]
                    ltac:(constructor) eq_refl ltac:(vm_compute; reflexivity))
             no_schema_media); reflexivity.
Defined.

(** X10: the request body is read from its form-encoded content when
    there is one, and the JSON content is then never looked at: the
    resolved schema and encoding depend on the form-encoded entry
    alone, and a form-encoded entry without a schema gives a body
    without schema and without error.  Without form-encoded content, a
    JSON entry without a schema fails with [AttributeError]. *)
Theorem request_body_form_encoded_first (api : OpenAPI)
  (content : option (list (string * MediaType))) :
  (forall form content',
      content_entry content "application/x-www-form-urlencoded" = Some form ->
      content_entry content' "application/x-www-form-urlencoded" = Some form ->
      request_body_schema api content = request_body_schema api content'
      /\ (mt_schema form = None ->
          request_body_schema api content
          = inr (None, if nonempty (mt_encoding form)
                       then Some (convert_encoding (mt_encoding form)) else None)))
  /\ (forall json,
         content_entry content "application/x-www-form-urlencoded" = None ->
         content_entry content "application/json" = Some json ->
         mt_schema json = None ->
         request_body_schema api content = inl RaisedAttributeError).
Proof.
  split.
  - intros form content' H1 H2. unfold request_body_schema. rewrite H1, H2.
    split; [reflexivity|]. intros Hs. by rewrite Hs.
  - intros json H1 H2 Hs. unfold request_body_schema. rewrite H1, H2, Hs. reflexivity.
Qed.

(** X10 at the body of [move_operation] (JSON content on an undefined
    component, form-encoded content without schema) and at the JSON
    body without schema. *)
Lemma request_body_form_encoded_first_witness :
  request_body_schema address_api
    (Some [("application/json", ghost_media);
           ("application/x-www-form-urlencoded", no_schema_media)])
  = inr (None, None)
  /\ request_body_schema address_api (Some [("application/json", no_schema_media)])
     = inl RaisedAttributeError.
Proof.
  split.
  - apply (proj2 (proj1 (request_body_form_encoded_first address_api
                           (Some [("application/json", ghost_media);
                                  ("application/x-www-form-urlencoded",
                                   no_schema_media)]))
                    no_schema_media
                    (Some [("application/x-www-form-urlencoded", no_schema_media)])
                    eq_refl eq_refl)).
    reflexivity.
  - apply (proj2 (request_body_form_encoded_first address_api
                    (Some [("application/json", no_schema_media)]))
             no_schema_media); reflexivity.
Defined.

(** X11: the parameter loop succeeds exactly when every parameter has
    a schema; it then gives one model per parameter, in order, each the
    model of its parameter and under its name.  Otherwise it raises
    [AttributeError], for the first parameter without schema. *)
Theorem process_parameters_kept (params : list ApiParameter) :
  (Forall (fun param => is_Some (ap_schema param)) params
   <-> exists models, process_parameters params = inr models)
  /\ (forall models,
         process_parameters params = inr models ->
         p_name <$> models = ap_name <$> params
         /\ Forall2 (fun param p => process_parameter param = inr p) params models)
  /\ (forall e,
         process_parameters params = inl e ->
         e = RaisedAttributeError
         /\ exists pre param post,
              params = pre ++ param :: post
              /\ Forall (fun param => is_Some (ap_schema param)) pre
              /\ ap_schema param = None).
Proof.
  split; [|split].
  - pose proof (process_parameters_spec params) as H.
    destruct (process_parameters params) as [e|models].
    + destruct H as [_ Hex]. split.
      * intros Hall. exfalso. apply Exists_exists in Hex as (param & Hin & Hnone).
        rewrite Forall_forall in Hall. apply Hall in Hin. rewrite Hnone in Hin.
        by destruct Hin.
      * intros [models H]. discriminate.
    + destruct H as [Hall _]. split; eauto.
  - intros models H. pose proof (process_parameters_spec params) as Hs.
    rewrite H in Hs. destruct Hs as [_ Hrel]. split; [|exact Hrel].
    clear H. induction Hrel as [|param p params models Hp _ IH]; csimpl;
      [reflexivity|].
    rewrite IH. f_equal. unfold process_parameter in Hp.
    destruct (ap_schema param); [|discriminate]. by injection Hp as <-.
  - induction params as [|param rest IH]; intros e H; simpl in H; [discriminate|].
    unfold process_parameter in H at 1.
    destruct (ap_schema param) as [sch|] eqn:Es.
    + destruct (process_parameters rest) as [e'|ps]; [|discriminate].
      injection H as <-. destruct (IH e' eq_refl) as (-> & pre & q & post & -> & Hpre & Hq).
      split; [reflexivity|]. exists (param :: pre), q, post.
      split; [reflexivity|]. split; [|exact Hq].
      constructor; [rewrite Es; eauto | exact Hpre].
    + injection H as <-. split; [reflexivity|]. exists [], param, rest.
      split; [reflexivity|]. split; [constructor | exact Es].
Qed.

(** ** Loading the paths *)

Section FromApiFacts.

Variable Pattern : Type.
Variable re_compile : string -> option Pattern.
Variable re_match : Pattern -> string -> bool.

Lemma process_paths_spec cs api paths ps :
  process_paths Pattern re_match cs api paths = inr ps ->
  pm_path <$> ps
  = filter (fun path => matches_any Pattern re_match cs path = true) paths.*1
  /\ Forall (fun pm => exists item,
                 (pm_path pm, item) ∈ paths
                 /\ matches_any Pattern re_match cs (pm_path pm) = true
                 /\ process_path_item (pm_path pm) item api = inr pm) ps.
Proof.
  revert ps. induction paths as [|[path item] rest IH]; intros ps H; simpl in H.
  - injection H as <-. split; [reflexivity | constructor].
  - destruct (matches_any Pattern re_match cs path) eqn:Em; simpl in H.
    + destruct (process_path_item path item api) as [e|pm] eqn:Ep; [discriminate|].
      destruct (process_paths Pattern re_match cs api rest) as [e|ps0]; [discriminate|].
      injection H as <-. destruct (IH ps0 eq_refl) as [Hn Hf].
      assert (Hpath : pm_path pm = path).
      { unfold process_path_item in Ep.
        repeat match type of Ep with
               | context [match ?x with _ => _ end] => destruct x; try discriminate
               end.
        by injection Ep as <-. }
      split.
      * csimpl. rewrite filter_cons_True by exact Em. by rewrite Hn, Hpath.
      * constructor.
        -- exists item. rewrite Hpath. split; [left|]. auto.
        -- eapply Forall_impl; [exact Hf|]. intros pm' (item' & Hin & Hm & Hp).
           exists item'. split; [by right | auto].
    + destruct (IH ps H) as [Hn Hf]. split.
      * csimpl. rewrite filter_cons_False by (rewrite Em; discriminate). exact Hn.
      * eapply Forall_impl; [exact Hf|]. intros pm' (item' & Hin & Hm & Hp).
        exists item'. split; [by right | auto].
Qed.

Lemma process_method_present path operation api o :
  process_method path operation api = inr o -> (is_Some o <-> is_Some operation).
Proof.
  unfold process_method. destruct operation as [op|].
  - destruct (_process_operation path op api); [discriminate|].
    intros [= <-]. split; eauto.
  - intros [= <-]. split; intros [x Hx]; discriminate.
Qed.

(** X12: when [_from_api] succeeds, the paths of the [Config] are the
    document's paths that match at least one pattern, in document
    order; each comes from a path item of the document at that path and
    has an operation for exactly the methods that item declares. *)
Theorem from_api_keeps_matching_paths (doc : Document) (path_patterns : list string)
  (paths : list PathModel) :
  _from_api Pattern re_compile re_match doc path_patterns = inr paths ->
  exists compiled,
    compile_patterns Pattern re_compile path_patterns = inr compiled
    /\ pm_path <$> paths
       = filter (fun path => matches_any Pattern re_match compiled path = true)
           (doc_paths doc).*1
    /\ Forall (fun pm => exists item,
                   (pm_path pm, item) ∈ doc_paths doc
                   /\ (is_Some (pm_get pm) <-> is_Some (pi_get item))
                   /\ (is_Some (pm_post pm) <-> is_Some (pi_post item))
                   /\ (is_Some (pm_put pm) <-> is_Some (pi_put item))
                   /\ (is_Some (pm_delete pm) <-> is_Some (pi_delete item))
                   /\ (is_Some (pm_patch pm) <-> is_Some (pi_patch item))) paths.
Proof.
  unfold _from_api. intros H.
  destruct (compile_patterns Pattern re_compile path_patterns) as [e|cs];
    [discriminate|].
  exists cs. split; [reflexivity|].
  destruct (process_paths_spec _ _ _ _ H) as [Hn Hf]. split; [exact Hn|].
  eapply Forall_impl; [exact Hf|]. intros pm (item & Hin & _ & Hp).
  exists item. split; [exact Hin|].
  unfold process_path_item in Hp.
  destruct (process_method (pm_path pm) (pi_get item) (doc_api doc)) as [|g] eqn:Eg;
    [discriminate|].
  destruct (process_method (pm_path pm) (pi_post item) (doc_api doc)) as [|po] eqn:Epo;
    [discriminate|].
  destruct (process_method (pm_path pm) (pi_put item) (doc_api doc)) as [|pu] eqn:Epu;
    [discriminate|].
  destruct (process_method (pm_path pm) (pi_delete item) (doc_api doc)) as [|d] eqn:Ed;
    [discriminate|].
  destruct (process_method (pm_path pm) (pi_patch item) (doc_api doc)) as [|pa] eqn:Epa;
    [discriminate|].
  injection Hp as <-. cbn.
  repeat split; eapply process_method_present; eassumption.
Qed.

End FromApiFacts.

(** X12 at the document with the paths [/pets], [/internal/debug] and
    [/pets/{id}] and the pattern [/pets]. *)
Lemma from_api_keeps_matching_paths_witness :
  match _from_api string literal_compile literal_match pets_document ["/pets"] with
  | inr paths => pm_path <$> paths = ["/pets"; "/pets/{id}"]
  | inl _ => False
  end.
Proof.
  pose proof (from_api_keeps_matching_paths string literal_compile literal_match
                pets_document ["/pets"]) as H.
  destruct (_from_api string literal_compile literal_match pets_document ["/pets"])
    as [e|paths] eqn:E.
  - vm_compute in E. discriminate.
  - destruct (H paths eq_refl) as (compiled & Hc & Hn & _).
    injection Hc as <-. rewrite Hn. reflexivity.
Defined.

Section FromApiErrors.

Variable Pattern : Type.
Variable re_compile : string -> option Pattern.
Variable re_match : Pattern -> string -> bool.

Lemma process_paths_app cs api pre post ps :
  process_paths Pattern re_match cs api pre = inr ps ->
  process_paths Pattern re_match cs api (pre ++ post)
  = match process_paths Pattern re_match cs api post with
    | inl e => inl e
    | inr ps' => inr (ps ++ ps')
    end.
Proof.
  revert ps. induction pre as [|[path item] pre IH]; intros ps H; simpl in *.
  - injection H as <-. by destruct (process_paths Pattern re_match cs api post).
  - destruct (negb (matches_any Pattern re_match cs path)); [by apply IH|].
    destruct (process_path_item path item api) as [e|pm]; [discriminate|].
    destruct (process_paths Pattern re_match cs api pre) as [e|ps0]; [discriminate|].
    injection H as <-. rewrite (IH ps0 eq_refl).
    by destruct (process_paths Pattern re_match cs api post).
Qed.

(** X13: a path that matches no pattern is never processed: when no
    path of the document matches (in particular with an empty pattern
    list), [_from_api] returns a [Config] without paths, whatever the
    operations of the document are, failing ones included. *)
Theorem from_api_nothing_matches (doc : Document) (path_patterns : list string)
  (compiled : list Pattern) :
  compile_patterns Pattern re_compile path_patterns = inr compiled ->
  Forall (fun path => matches_any Pattern re_match compiled path = false)
    (doc_paths doc).*1 ->
  _from_api Pattern re_compile re_match doc path_patterns = inr [].
Proof.
  intros Hc Hno. unfold _from_api. rewrite Hc.
  generalize dependent (doc_paths doc). intros paths.
  induction paths as [|[path item] rest IH]; intros Hno; [reflexivity|].
  apply Forall_cons in Hno as [Hp Hrest]. simpl in Hp. simpl. rewrite Hp. simpl.
  by apply IH.
Qed.

(** X14: [_from_api] has no recovery: the first matching path whose
    processing raises aborts the whole load with that error, and no
    [Config] is produced, whatever the paths before it gave and
    whatever follows; and a pattern that does not compile aborts it
    before any path is looked at. *)
Theorem from_api_first_error_aborts (doc : Document) (path_patterns : list string) :
  (forall compiled pre path item post ps e,
      compile_patterns Pattern re_compile path_patterns = inr compiled ->
      doc_paths doc = pre ++ (path, item) :: post ->
      process_paths Pattern re_match compiled (doc_api doc) pre = inr ps ->
      matches_any Pattern re_match compiled path = true ->
      process_path_item path item (doc_api doc) = inl e ->
      _from_api Pattern re_compile re_match doc path_patterns = inl e)
  /\ (forall good bad rest,
         path_patterns = good ++ bad :: rest ->
         Forall (fun p => is_Some (re_compile p)) good ->
         re_compile bad = None ->
         _from_api Pattern re_compile re_match doc path_patterns
         = inl (RaisedReError bad)).
Proof.
  split.
  - intros compiled pre path item post ps e Hc Hpaths Hpre Hm He.
    unfold _from_api. rewrite Hc, Hpaths, (process_paths_app _ _ _ _ _ Hpre).
    simpl. rewrite Hm. simpl. by rewrite He.
  - intros good bad rest -> Hgood Hbad. unfold _from_api.
    assert (Hc : compile_patterns Pattern re_compile (good ++ bad :: rest)
                 = inl (RaisedReError bad)).
    { induction Hgood as [|p good [c Hp] _ IH]; simpl.
      - by rewrite Hbad.
      - by rewrite Hp, IH. }
    by rewrite Hc.
Qed.

End FromApiErrors.

(** X13 at the pattern [/orders], which no path of the document
    matches. *)
Lemma from_api_nothing_matches_witness :
  _from_api string literal_compile literal_match pets_document ["/orders"] = inr [].
Proof.
  apply (from_api_nothing_matches string literal_compile literal_match pets_document
           ["/orders"] ["/orders"] eq_refl).
  repeat (constructor; [reflexivity|]). constructor.
Defined.

(** X14 at the pattern [/] (every path matches, and [/internal/debug]
    fails) and at the pattern list [/pets], [(]. *)
Lemma from_api_first_error_aborts_witness :
  _from_api string literal_compile literal_match pets_document ["/"]
  = inl RaisedAttributeError
  /\ _from_api string literal_compile literal_match pets_document ["/pets"; "("]
     = inl (RaisedReError "(").
Proof.
  split.
  - destruct (_from_api string literal_compile literal_match pets_document ["/pets"])
      as [e|ps] eqn:E; [vm_compute in E; discriminate|].
    refine (proj1 (from_api_first_error_aborts string literal_compile literal_match
                     pets_document ["/"])
              ["/"] [("/pets", mkPathItem (Some move_operation) None None None None)]
              "/internal/debug" (mkPathItem (Some broken_operation) None None None None)
              [("/pets/{id}", mkPathItem None None None (Some move_operation) None)]
              _ RaisedAttributeError eq_refl eq_refl _ eq_refl _).
    + vm_compute. reflexivity.
    + vm_compute. reflexivity.
  - refine (proj2 (from_api_first_error_aborts string literal_compile literal_match
                     pets_document ["/pets"; "("])
              ["/pets"] "(" [] eq_refl _ eq_refl).
    repeat constructor. by eexists.
Defined.

(** ** The order of the patterns, and the cache *)

Section PatternOrder.

Variable Pattern : Type.
Variable re_compile : string -> option Pattern.
Variable re_match : Pattern -> string -> bool.

Lemma compile_patterns_perm l l' :
  l ≡ₚ l' ->
  forall cs, compile_patterns Pattern re_compile l = inr cs ->
  exists cs', compile_patterns Pattern re_compile l' = inr cs' /\ cs ≡ₚ cs'.
Proof.
  induction 1 as [|x l l' _ IH|x y l|l l' l'' _ IH1 _ IH2]; intros cs H; simpl in *.
  - eauto.
  - destruct (re_compile x) as [c|]; [|discriminate].
    destruct (compile_patterns Pattern re_compile l) as [|cs0]; [discriminate|].
    injection H as <-. destruct (IH cs0 eq_refl) as (cs' & -> & Hp).
    exists (c :: cs'). split; [reflexivity | by constructor].
  - destruct (re_compile y) as [cy|]; [|discriminate].
    destruct (re_compile x) as [cx|]; [|discriminate].
    destruct (compile_patterns Pattern re_compile l) as [|cs0]; [discriminate|].
    injection H as <-. exists (cx :: cy :: cs0). split; [reflexivity | constructor].
  - destruct (IH1 cs H) as (cs1 & H1 & Hp1).
    destruct (IH2 cs1 H1) as (cs2 & H2 & Hp2).
    exists cs2. split; [exact H2 | by etransitivity].
Qed.

Lemma matches_any_perm cs cs' path :
  cs ≡ₚ cs' ->
  matches_any Pattern re_match cs path = matches_any Pattern re_match cs' path.
Proof.
  unfold matches_any.
  induction 1 as [|x l l' _ IH|x y l|l l' l'' _ IH1 _ IH2]; simpl.
  - reflexivity.
  - by rewrite IH.
  - by rewrite !orb_assoc, (orb_comm (re_match y path)).
  - congruence.
Qed.

Lemma process_paths_ext cs cs' api paths :
  (forall path, matches_any Pattern re_match cs path
                = matches_any Pattern re_match cs' path) ->
  process_paths Pattern re_match cs api paths
  = process_paths Pattern re_match cs' api paths.
Proof.
  intros H. induction paths as [|[path item] rest IH]; simpl; [reflexivity|].
  by rewrite H, IH.
Qed.

(** X15: the order of the patterns does not matter: for patterns that
    all compile, [_from_api] gives the same result, value or error, for
    every reordering of the pattern list. *)
Theorem from_api_pattern_order (doc : Document) (path_patterns path_patterns' : list string) :
  path_patterns ≡ₚ path_patterns' ->
  Forall (fun p => is_Some (re_compile p)) path_patterns ->
  _from_api Pattern re_compile re_match doc path_patterns
  = _from_api Pattern re_compile re_match doc path_patterns'.
Proof.
  intros Hp Hc.
  assert (Hcs : exists cs, compile_patterns Pattern re_compile path_patterns = inr cs).
  { clear Hp. induction Hc as [|p l [c Hcp] _ [cs IH]]; simpl; [eauto|].
    rewrite Hcp, IH. eauto. }
  destruct Hcs as [cs Hcs].
  destruct (compile_patterns_perm _ _ Hp cs Hcs) as (cs' & Hcs' & Hperm).
  unfold _from_api. rewrite Hcs, Hcs'.
  apply process_paths_ext. intros path. by apply matches_any_perm.
Qed.

End PatternOrder.

(** X15 at the patterns [/pets], [/internal] in both orders. *)
Lemma from_api_pattern_order_witness :
  _from_api string literal_compile literal_match pets_document ["/pets"; "/internal"]
  = _from_api string literal_compile literal_match pets_document ["/internal"; "/pets"].
Proof.
  apply from_api_pattern_order.
  - apply perm_swap.
  - repeat (constructor; [by eexists|]). constructor.
Defined.

Lemma string_leb_trans (a b c : string) :
  String.leb a b = true -> String.leb b c = true -> String.leb a c = true.
Proof.
  unfold String.leb. revert b c.
  induction a as [|x a IH]; intros [|y b] [|z c]; simpl; try congruence.
  unfold Ascii.compare.
  destruct (N.compare_spec (N_of_ascii x) (N_of_ascii y)),
           (N.compare_spec (N_of_ascii y) (N_of_ascii z)),
           (N.compare_spec (N_of_ascii x) (N_of_ascii z));
    try congruence; try lia; try apply IH.
Qed.

Lemma sorted_perm (l l' : list string) : l ≡ₚ l' -> sorted l = sorted l'.
Proof.
  intros Hp. unfold sorted.
  assert (Tr : Transitive string_le) by (intros a b c; apply string_leb_trans).
  assert (To : Total string_le) by (intros a b; apply String.leb_total).
  assert (An : AntiSymm (=) string_le) by (intros a b; apply String.leb_antisym).
  apply (Sorted_unique string_le).
  - apply Sorted_merge_sort; assumption.
  - apply Sorted_merge_sort; assumption.
  - by rewrite !merge_sort_Permutation.
Qed.

Lemma sorted_of_sorted (l : list string) : Sorted string_le l -> sorted l = l.
Proof.
  intros Hs. unfold sorted.
  assert (Tr : Transitive string_le) by (intros a b c; apply string_leb_trans).
  assert (To : Total string_le) by (intros a b; apply String.leb_total).
  assert (An : AntiSymm (=) string_le) by (intros a b; apply String.leb_antisym).
  apply (Sorted_unique string_le).
  - apply Sorted_merge_sort; assumption.
  - exact Hs.
  - apply merge_sort_Permutation.
Qed.

Section CacheFacts.

Variable Pattern : Type.
Variable re_compile : string -> option Pattern.
Variable re_match : Pattern -> string -> bool.
Variable md5_hexdigest : string -> string.

Lemma cache_file_perm source (path_patterns path_patterns' : list string) :
  path_patterns ≡ₚ path_patterns' ->
  cache_file md5_hexdigest source path_patterns
  = cache_file md5_hexdigest source path_patterns'.
Proof. intros Hp. unfold cache_file. by rewrite (sorted_perm _ _ Hp). Qed.

Lemma cached_load_stored load source path_patterns cache config cache' :
  cached_load Pattern re_compile re_match md5_hexdigest load source path_patterns cache
  = (inr config, cache') ->
  cache' !! cache_file md5_hexdigest source path_patterns = Some config.
Proof.
  unfold cached_load.
  destruct (cache !! cache_file md5_hexdigest source path_patterns) as [c|] eqn:Ec.
  - intros [= <- <-]. exact Ec.
  - destruct (load source) as [e|api]; [discriminate|].
    destruct (_from_api Pattern re_compile re_match api path_patterns) as [e|c];
      [discriminate|].
    intros [= <- <-]. apply lookup_insert_eq.
Qed.

(** X16: once a load has succeeded, the cached [Config] is what every
    later load of the same source with the same patterns, in any order,
    returns: the loader is not consulted again, so the result is the
    same whatever the source now contains, and the cache directory is
    left as it is. *)
Theorem cached_load_is_sticky (load1 load2 : string -> Raised + Document)
  (source : string) (path_patterns path_patterns' : list string)
  (cache cache' : gmap string (list PathModel)) (config : list PathModel) :
  cached_load Pattern re_compile re_match md5_hexdigest load1 source path_patterns cache
  = (inr config, cache') ->
  path_patterns' ≡ₚ path_patterns ->
  cached_load Pattern re_compile re_match md5_hexdigest load2 source path_patterns' cache'
  = (inr config, cache').
Proof.
  intros H Hp. apply cached_load_stored in H.
  unfold cached_load. rewrite (cache_file_perm source _ _ Hp), H. reflexivity.
Qed.

(** X17: a load only ever adds to the cache directory: a failed load
    (the loader or [_from_api] raised) leaves it as it was, a
    successful one stores the [Config] under the cache file of its
    arguments, and in both cases every file that was there keeps its
    content. *)
Theorem cached_load_cache_effect (load : string -> Raised + Document)
  (source : string) (path_patterns : list string)
  (cache cache' : gmap string (list PathModel)) (r : Raised + list PathModel) :
  cached_load Pattern re_compile re_match md5_hexdigest load source path_patterns cache
  = (r, cache') ->
  (forall e, r = inl e ->
             cache' = cache
             /\ cache !! cache_file md5_hexdigest source path_patterns = None)
  /\ (forall config, r = inr config ->
                     cache' !! cache_file md5_hexdigest source path_patterns
                     = Some config)
  /\ (forall file config, cache !! file = Some config -> cache' !! file = Some config).
Proof.
  intros H. split; [|split].
  - intros e ->. unfold cached_load in H.
    destruct (cache !! cache_file md5_hexdigest source path_patterns) as [c|];
      [discriminate|].
    destruct (load source) as [e'|api]; [by injection H as _ <-|].
    destruct (_from_api Pattern re_compile re_match api path_patterns) as [e'|c];
      [by injection H as _ <- | discriminate].
  - intros config ->. eapply cached_load_stored. exact H.
  - intros file config Hf. unfold cached_load in H.
    destruct (cache !! cache_file md5_hexdigest source path_patterns) as [c|] eqn:Ec;
      [by injection H as _ <-|].
    destruct (load source) as [e'|api]; [by injection H as _ <-|].
    destruct (_from_api Pattern re_compile re_match api path_patterns) as [e'|c];
      [by injection H as _ <-|].
    injection H as _ <-.
    rewrite lookup_insert_ne; [exact Hf|]. intros Heq. congruence.
Qed.

(** X18: the cache file does not tell a list of patterns from the
    single pattern that joins them, sorted, with commas: after a
    successful load with that single pattern, a load of the same source
    with the patterns themselves, in any order, returns the [Config]
    that was computed for the single pattern. *)
Theorem cached_load_comma_collision (load1 load2 : string -> Raised + Document)
  (source : string) (path_patterns path_patterns' : list string)
  (cache cache' : gmap string (list PathModel)) (config : list PathModel) :
  path_patterns' ≡ₚ path_patterns ->
  cached_load Pattern re_compile re_match md5_hexdigest load1 source
    [String.concat "," (sorted path_patterns)] cache
  = (inr config, cache') ->
  cache_file md5_hexdigest source [String.concat "," (sorted path_patterns)]
  = cache_file md5_hexdigest source path_patterns'
  /\ cached_load Pattern re_compile re_match md5_hexdigest load2 source path_patterns'
       cache'
     = (inr config, cache').
Proof.
  intros Hperm H.
  assert (Hf : cache_file md5_hexdigest source [String.concat "," (sorted path_patterns)]
               = cache_file md5_hexdigest source path_patterns').
  { rewrite (cache_file_perm source path_patterns' path_patterns Hperm).
    unfold cache_file.
    rewrite (sorted_of_sorted [String.concat "," (sorted path_patterns)])
      by repeat constructor.
    simpl. reflexivity. }
  apply cached_load_stored in H. rewrite Hf in H.
  split; [exact Hf|].
  unfold cached_load. by rewrite H.
Qed.

End CacheFacts.

(** X16 at the pets document: a load with [/pets], [/internal/x], then a
    load with the patterns swapped and a loader that fails. *)
Lemma cached_load_is_sticky_witness :
  match cached_load string literal_compile literal_match plain_digest load_pets
          "petstore.yaml" ["/pets"; "/internal/x"] ∅ with
  | (inr config, cache') =>
      cached_load string literal_compile literal_match plain_digest load_nothing
        "petstore.yaml" ["/internal/x"; "/pets"] cache'
      = (inr config, cache')
  | _ => False
  end.
Proof.
  destruct (cached_load string literal_compile literal_match plain_digest load_pets
              "petstore.yaml" ["/pets"; "/internal/x"] ∅) as [[e|config] cache'] eqn:E.
  - vm_compute in E. discriminate.
  - eapply cached_load_is_sticky; [exact E | apply perm_swap].
Defined.

(** X17 at a failing loader and an empty cache directory. *)
Lemma cached_load_cache_effect_witness :
  (∅ : gmap string (list PathModel)) = ∅
  /\ (∅ : gmap string (list PathModel))
     !! cache_file plain_digest "petstore.yaml" ["/pets"] = None.
Proof.
  assert (E : cached_load string literal_compile literal_match plain_digest
                load_nothing "petstore.yaml" ["/pets"] ∅
              = (inl (RaisedLoadError "petstore.yaml"), ∅))
    by (vm_compute; reflexivity).
  exact (proj1 (cached_load_cache_effect string literal_compile literal_match
                  plain_digest load_nothing "petstore.yaml" ["/pets"] ∅ ∅ _ E)
           (RaisedLoadError "petstore.yaml") eq_refl).
Defined.

(** X18 at the patterns [/pets] and [/a]: the single pattern is
    [/a,/pets], which matches no path. *)
Lemma cached_load_comma_collision_witness :
  String.concat "," (sorted ["/pets"; "/a"]) = "/a,/pets"
  /\ match cached_load string literal_compile literal_match plain_digest load_pets
             "petstore.yaml" ["/a,/pets"] ∅ with
     | (inr config, cache') =>
         config = []
         /\ cached_load string literal_compile literal_match plain_digest load_pets
              "petstore.yaml" ["/pets"; "/a"] cache'
            = (inr [], cache')
         /\ cached_load string literal_compile literal_match plain_digest load_pets
              "petstore.yaml" ["/a"; "/pets"] cache'
            = (inr [], cache')
     | _ => False
     end.
Proof.
  assert (Hs : String.concat "," (sorted ["/pets"; "/a"]) = "/a,/pets")
    by (vm_compute; reflexivity).
  split; [exact Hs|].
  destruct (cached_load string literal_compile literal_match plain_digest load_pets
              "petstore.yaml" ["/a,/pets"] ∅) as [[e|config] cache'] eqn:E.
  - vm_compute in E. discriminate.
  - assert (Hc : config = []) by (vm_compute in E; congruence).
    split; [exact Hc|]. rewrite <- Hc. rewrite <- Hs in E. split.
    + apply (proj2 (cached_load_comma_collision string literal_compile
                      literal_match plain_digest load_pets load_pets
                      "petstore.yaml" ["/pets"; "/a"] ["/pets"; "/a"] ∅ cache' config
                      (reflexivity _) E)).
    + apply (proj2 (cached_load_comma_collision string literal_compile
                      literal_match plain_digest load_pets load_pets
                      "petstore.yaml" ["/pets"; "/a"] ["/a"; "/pets"] ∅ cache' config
                      (perm_swap _ _ _) E)).
Defined.

(** ** The registries of the server manager *)

Section ManagerFacts.

Variable SpecT ServerT ToolT RouteT : Type.
Variable load_spec : ServerConfig -> option SpecT.
Variable new_server : ServerConfig -> ServerT.
Variable tools_from_spec : SpecT -> list string -> option (list ToolT).
Variable tool_name tool_description : ToolT -> string.
Variable register_tool : ServerT -> ToolT -> bool.
Variable sse_app_routes : ServerT -> option (list RouteT).

Local Notation start :=
  (start_server SpecT ServerT ToolT RouteT load_spec new_server tools_from_spec
     register_tool sse_app_routes).
Local Notation start_all :=
  (start_servers SpecT ServerT ToolT RouteT load_spec new_server tools_from_spec
     register_tool sse_app_routes).
Local Notation reload :=
  (handle_config_change SpecT ServerT ToolT RouteT load_spec new_server tools_from_spec
     register_tool sse_app_routes).
Local Notation listing := (get_namespace_tools ServerT ToolT RouteT tool_name tool_description).

Lemma start_server_effect (m : Manager ServerT ToolT RouteT) (c : ServerConfig) :
  (forall ns, is_Some (mg_tools _ _ _ m !! ns) ->
              is_Some (mg_tools _ _ _ (start m c) !! ns))
  /\ (exists rs, mg_routes _ _ _ (start m c)
                 = mg_routes _ _ _ m ++ map (ServerRoute RouteT) rs)
  /\ (forall ns, is_Some (mg_servers _ _ _ (start m c) !! ns) ->
                 is_Some (mg_servers _ _ _ m !! ns) \/ ns = sc_namespace c).
Proof.
  unfold start_server.
  destruct (load_spec c) as [spec|];
    [|split; [auto | split; [exists []; by rewrite app_nil_r | auto]]].
  destruct (tools_from_spec spec _) as [tools|];
    [|split; [auto | split; [exists []; by rewrite app_nil_r | auto]]].
  assert (Ht : forall ns, is_Some (mg_tools _ _ _ m !! ns) ->
                          is_Some (<[sc_namespace c := tools]> (mg_tools _ _ _ m) !! ns)).
  { intros ns H. destruct (decide (sc_namespace c = ns)) as [<-|Hne].
    - rewrite lookup_insert_eq. eauto.
    - by rewrite lookup_insert_ne. }
  assert (Hs : forall ns,
             is_Some (<[sc_namespace c := new_server c]> (mg_servers _ _ _ m) !! ns) ->
             is_Some (mg_servers _ _ _ m !! ns) \/ ns = sc_namespace c).
  { intros ns H. destruct (decide (sc_namespace c = ns)) as [<-|Hne]; [auto|].
    rewrite lookup_insert_ne in H by exact Hne. auto. }
  destruct (forallb (register_tool (new_server c)) tools); cbn.
  - destruct (sse_app_routes (new_server c)) as [rs|]; cbn.
    + split; [exact Ht | split; [by exists rs | exact Hs]].
    + split; [exact Ht | split; [exists []; by rewrite app_nil_r | exact Hs]].
  - split; [exact Ht | split; [exists []; by rewrite app_nil_r | auto]].
Qed.

Lemma start_fold_effect (cs : list ServerConfig) :
  forall m : Manager ServerT ToolT RouteT,
    (forall ns, is_Some (mg_tools _ _ _ m !! ns) ->
                is_Some (mg_tools _ _ _ (fold_left start cs m) !! ns))
    /\ (exists rs, mg_routes _ _ _ (fold_left start cs m)
                   = mg_routes _ _ _ m ++ map (ServerRoute RouteT) rs)
    /\ (forall ns, is_Some (mg_servers _ _ _ (fold_left start cs m) !! ns) ->
                   is_Some (mg_servers _ _ _ m !! ns) \/ ns ∈ sc_namespace <$> cs).
Proof.
  induction cs as [|c cs IH]; intros m; simpl.
  - split; [auto | split; [exists []; by rewrite app_nil_r | auto]].
  - destruct (start_server_effect m c) as (T1 & (rs1 & R1) & S1).
    destruct (IH (start m c)) as (T2 & (rs2 & R2) & S2).
    split; [auto | split].
    + exists (rs1 ++ rs2). by rewrite R2, R1, map_app, app_assoc.
    + intros ns H. destruct (S2 ns H) as [H'|H'].
      * destruct (S1 ns H') as [H''| ->]; [auto|]. right. csimpl. left.
      * right. csimpl. by right.
Qed.

(** X19: a configuration reload loses the two listing endpoints: after
    [_handle_config_change] every route of the manager is a route of a
    server, whereas the manager built by [__init__] and started has
    the route [/tools]; [setup_endpoints] is only run by [__init__] and
    [stop_servers] empties the route list. *)
Theorem reload_drops_listing_routes (servers0 servers : list ServerConfig)
  (m : Manager ServerT ToolT RouteT) (path : string) :
  ListingRoute RouteT "/tools" ∈ mg_routes _ _ _ (start_all (new_manager _ _ _ servers0))
  /\ ListingRoute RouteT path ∉ mg_routes _ _ _ (reload servers m).
Proof.
  split.
  - unfold start_servers.
    destruct (start_fold_effect (mg_config _ _ _ (new_manager ServerT ToolT RouteT servers0))
                (new_manager _ _ _ servers0)) as (_ & (rs & ->) & _).
    apply elem_of_app. left. cbn. left.
  - unfold handle_config_change, start_servers.
    destruct (start_fold_effect
                (mg_config _ _ _ (load_config _ _ _ servers (stop_servers _ _ _ m)))
                (load_config _ _ _ servers (stop_servers _ _ _ m))) as (_ & (rs & ->) & _).
    cbn. intros H. apply list_elem_of_fmap in H as (r & Hr & _). discriminate.
Qed.

(** X20: the tool registry is never pruned: a namespace that the
    listing endpoint knows is still listed after any configuration
    reload, also when the new configuration no longer has it, while
    the servers after the reload all belong to namespaces of the new
    configuration. *)
Theorem reload_keeps_stale_tools (servers : list ServerConfig)
  (m : Manager ServerT ToolT RouteT) (namespace : string) :
  is_Some (listing m namespace) ->
  is_Some (listing (reload servers m) namespace)
  /\ (forall ns, is_Some (mg_servers _ _ _ (reload servers m) !! ns) ->
                 ns ∈ sc_namespace <$> servers).
Proof.
  intros H.
  unfold handle_config_change, start_servers.
  destruct (start_fold_effect
              (mg_config _ _ _ (load_config _ _ _ servers (stop_servers _ _ _ m)))
              (load_config _ _ _ servers (stop_servers _ _ _ m))) as (T & _ & S).
  split.
  - unfold get_namespace_tools in *.
    destruct (mg_tools _ _ _ m !! namespace) as [tools|] eqn:E;
      [|by destruct H as [? H]].
    destruct (T namespace) as [tools' ->]; [cbn; rewrite E; eauto|]. eauto.
  - intros ns Hs. destruct (S ns Hs) as [Hold|Hin]; [|exact Hin].
    cbn in Hold. rewrite lookup_empty in Hold. by destruct Hold.
Qed.

(** X21: a server whose spec does not load, or whose tools cannot be
    built from it, is skipped without any effect on the manager, so
    starting a list of servers gives the same manager as starting only
    those for which both succeed. *)
Theorem failed_start_is_isolated (cs : list ServerConfig)
  (m : Manager ServerT ToolT RouteT) :
  fold_left start cs m
  = fold_left start
      (filter (fun c => is_Some (spec ← load_spec c;
                                 tools_from_spec spec (map fst (sc_forward_query_params c))))
              cs) m.
Proof.
  revert m. induction cs as [|c cs IH]; intros m; [reflexivity|].
  destruct (load_spec c) as [spec|] eqn:E; csimpl.
  - destruct (tools_from_spec spec (map fst (sc_forward_query_params c))) as [tools|] eqn:T.
    + rewrite filter_cons_True by (rewrite E; csimpl; rewrite T; eauto). simpl. apply IH.
    + rewrite filter_cons_False by (rewrite E; csimpl; rewrite T; intros [? ?]; discriminate).
      unfold start_server at 2. rewrite E, T. apply IH.
  - rewrite filter_cons_False by (rewrite E; intros [? ?]; discriminate).
    unfold start_server at 2. rewrite E. apply IH.
Qed.

End ManagerFacts.

Lemma reload_keeps_stale_tools_witness :
  is_Some (demo_listing demo_started "pets")
  /\ demo_listing demo_reloaded "pets" = Some [("pets", "A tool")]
  /\ mg_servers _ _ _ demo_reloaded !! "pets" = None.
Proof.
  assert (E : is_Some (demo_listing demo_started "pets")) by (vm_compute; eauto).
  destruct (reload_keeps_stale_tools string string (string * string) string demo_load_spec
              demo_new_server demo_tools fst snd demo_register demo_routes
              [demo_config "store"] demo_started "pets" E) as [H1 H2].
  split; [exact E | split].
  - vm_compute. reflexivity.
  - apply eq_None_not_Some. intros Hs. apply H2 in Hs.
    apply list_elem_of_fmap in Hs as (c & Hc & Hin).
    apply list_elem_of_singleton in Hin. subst c. vm_compute in Hc. discriminate.
Defined.

